(** * Genji: a shallow embedding of the value model, the catalog cache,
    the range model, the COUNT aggregator and the UPDATE statement.

  Each Go package becomes a module that keeps the names of the source.
  Go values are modelled as the code has them:
  - [int64] is a [Z] with its wrap-around written out ([wrap64]);
  - [float64] is the primitive binary64 [float];
  - [[]byte] is a [list byte], [string] is [string];
  - [interface{}] is the sum [iface] whose first constructor is the nil
    interface;
  - a Go [map[string]T] is a [gmap string T];
  - a run-time panic is the [Panic] outcome of [res]. *)

From Stdlib Require Import ZArith Floats.
From Stdlib.Strings Require Import Byte Ascii String.
From stdpp Require Import gmap strings list pretty.

Open Scope Z_scope.

(** ** Go run time *)

Module go.

(** int64 bounds and two's-complement wrap-around. *)
Definition MinInt64 : Z := - 2 ^ 63.
Definition MaxInt64 : Z := 2 ^ 63 - 1.

Definition is_int64 (z : Z) : Prop := MinInt64 <= z <= MaxInt64.

Definition wrap64 (z : Z) : Z := (z + 2 ^ 63) mod 2 ^ 64 - 2 ^ 63.

(** [float64(x)] for an int64 [x]: rounding to nearest, ties to even. *)
Definition float64_of_int64 (z : Z) : float :=
  SF2Prim (binary_normalize 53 1024 z 0 false).

(** An error value; [error] keeps the kinds the modelled code tests for
    and a message for the others. *)
Inductive error : Type :=
| ErrFieldNotFound
| ErrValueNotFound
| ErrTableNotFound
| ErrIndexNotFound
| ErrSequenceNotFound
| AlreadyExistsError (name : string)
| errorString (msg : string).

#[global] Instance error_eq_dec : EqDecision error.
Proof. solve_decision. Defined.

(** Outcome of a call returning [(T, error)]: a value with a nil error,
    a non-nil error, or a panic. *)
Inductive res (A : Type) : Type :=
| Ok (a : A)
| Err (e : error)
| Panic (msg : string).
Arguments Ok {A} a.
Arguments Err {A} e.
Arguments Panic {A} msg.

Definition bind {A B} (r : res A) (k : A -> res B) : res B :=
  match r with
  | Ok a => k a
  | Err e => Err e
  | Panic m => Panic m
  end.

#[global] Instance byte_eq_dec : EqDecision Byte.byte := Byte.byte_eq_dec.

(** [bytes.Compare]: lexicographic comparison of two byte slices,
    -1, 0 or 1. *)
Fixpoint bytes_Compare (a b : list Byte.byte) : Z :=
  match a, b with
  | [], [] => 0
  | [], _ :: _ => -1
  | _ :: _, [] => 1
  | x :: a', y :: b' =>
      match N.compare (Byte.to_N x) (Byte.to_N y) with
      | Lt => -1
      | Gt => 1
      | Eq => bytes_Compare a' b'
      end
  end.

End go.

Notation "x <- r ;; k" := (go.bind r (fun x => k))
(at level 100, r at next level, right associativity).

(** ** package types *)

Module types.

(** [type ValueType uint8] *)
Definition ValueType : Type := Z.

Definition AnyType : ValueType := 0x0.
Definition NullValue : ValueType := 0x80.
Definition BoolValue : ValueType := 0x81.
Definition IntegerValue : ValueType := 0x90.
Definition DoubleValue : ValueType := 0xA0.
Definition TextValue : ValueType := 0xC0.
Definition BlobValue : ValueType := 0xD0.
Definition ArrayValue : ValueType := 0xE0.
Definition DocumentValue : ValueType := 0xF0.

Definition IsNumber (t : ValueType) : bool :=
  (t =? IntegerValue) || (t =? DoubleValue).

Definition IsAny (t : ValueType) : bool := t =? AnyType.

(** [IsZero] is the name the range model uses for the same test. *)
Definition IsZero (t : ValueType) : bool := t =? 0.

End types.

(** ** package document: values, casts and arithmetic
    (document/value.go, document/cast.go) *)

Module document.
Import go.

(** [type value struct { tp types.ValueType; v interface{} }].
    [iface] is the dynamic content of the [interface{}] field: [inil] is
    the nil interface, every other constructor is a non-nil interface
    holding a value of the named Go type.  An [Array] is modelled by its
    list of elements (a ValueBuffer), a [Document] by its list of fields
    (a FieldBuffer). *)
Inductive Value : Type :=
| mkValue (tp : types.ValueType) (v : iface)
with iface : Type :=
| inil
| ibool (b : bool)
| iint64 (x : Z)
| ifloat64 (f : float)
| ibytes (x : list Byte.byte)
| istring (s : string)
| iArray (a : list Value)
| iDocument (d : list (string * Value)).

Definition Type_ (v : Value) : types.ValueType :=
  match v with mkValue tp _ => tp end.

Definition V (v : Value) : iface :=
  match v with mkValue _ x => x end.

Definition NewNullValue : Value := mkValue types.NullValue inil.
Definition NewBoolValue (x : bool) : Value := mkValue types.BoolValue (ibool x).
Definition NewIntegerValue (x : Z) : Value := mkValue types.IntegerValue (iint64 x).
Definition NewDoubleValue (x : float) : Value := mkValue types.DoubleValue (ifloat64 x).
Definition NewBlobValue (x : list Byte.byte) : Value := mkValue types.BlobValue (ibytes x).
Definition NewTextValue (x : string) : Value := mkValue types.TextValue (istring x).
Definition NewArrayValue (a : list Value) : Value := mkValue types.ArrayValue (iArray a).
Definition NewDocumentValue (d : list (string * Value)) : Value :=
  mkValue types.DocumentValue (iDocument d).
Definition NewEmptyValue (t : types.ValueType) : Value := mkValue t inil.
Definition NewValueWith (t : types.ValueType) (v : iface) : Value := mkValue t v.

(** [Array.GetByIndex] of a ValueBuffer. *)
Definition GetByIndex (a : list Value) (i : nat) : res Value :=
  match nth_error a i with
  | Some x => Ok x
  | None => Err ErrValueNotFound
  end.

(** [Document.Iterate] of a FieldBuffer: calls [fn] on each field in order
    and stops at the first error. *)
Fixpoint Iterate (d : list (string * Value))
    (fn : string -> Value -> option error) : option error :=
  match d with
  | [] => None
  | (k, x) :: d' =>
      match fn k x with
      | Some e => Some e
      | None => Iterate d' fn
      end
  end.

Definition errStop : error := errorString "errStop".

(** [IsZeroValue].  A comparison [v.V() == c] of an interface with a
    constant holds when the interface holds a value of the constant's type
    equal to it; [v.V() == nil] holds for the nil interface only. *)
Definition IsZeroValue (v : Value) : res bool :=
  let t := Type_ v in
  if t =? types.BoolValue then
    Ok (match V v with ibool b => negb b | _ => false end)
  else if t =? types.IntegerValue then
    Ok (match V v with iint64 x => x =? 0 | _ => false end)
  else if t =? types.DoubleValue then
    Ok (match V v with ifloat64 f => PrimFloat.eqb f 0%float | _ => false end)
  else if t =? types.BlobValue then
    Ok (match V v with inil => true | _ => false end)
  else if t =? types.TextValue then
    Ok (match V v with istring s => String.eqb s "" | _ => false end)
  else if t =? types.ArrayValue then
    match V v with
    | iArray a =>
        match GetByIndex a 0 with
        | Err ErrValueNotFound => Ok true
        | Err e => Err e
        | Ok _ => Ok false
        | Panic m => Panic m
        end
    | _ => Panic "interface conversion: not an Array"
    end
  else if t =? types.DocumentValue then
    match V v with
    | iDocument d =>
        match Iterate d (fun _ _ => Some errStop) with
        | None => Ok true
        | Some e => if decide (e = errStop) then Ok false else Err e
        end
    | _ => Panic "interface conversion: not a Document"
    end
  else Ok false.

(** [IsTruthy] *)
Definition IsTruthy (v : Value) : res bool :=
  if Type_ v =? types.NullValue then Ok false
  else b <- IsZeroValue v ;; Ok (negb b).

(** *** Casts (document/cast.go) and arithmetic

    The pieces of the Go standard library and run time that the casts and
    the floating-point operations call are parameters of the model. *)

Section Arithmetic.

(** [int64(f)] for a float64 [f]. *)
Variable float64_to_int64 : float -> Z.
(** [math.Mod]. *)
Variable math_Mod : float -> float -> float.
(** [strconv.ParseInt(s, 10, 64)] and [strconv.ParseFloat(s, 64)];
    [None] is a parse error. *)
Variable strconv_ParseInt : string -> option Z.
Variable strconv_ParseFloat : string -> option float.

Definition CastAsInteger (v : Value) : res Value :=
  let t := Type_ v in
  if t =? types.IntegerValue then Ok v
  else if t =? types.BoolValue then
    match V v with
    | ibool true => Ok (NewIntegerValue 1)
    | ibool false => Ok (NewIntegerValue 0)
    | _ => Panic "interface conversion: not a bool"
    end
  else if t =? types.DoubleValue then
    match V v with
    | ifloat64 f => Ok (NewIntegerValue (float64_to_int64 f))
    | _ => Panic "interface conversion: not a float64"
    end
  else if t =? types.TextValue then
    match V v with
    | istring s =>
        match strconv_ParseInt s with
        | Some i => Ok (NewIntegerValue i)
        | None =>
            match strconv_ParseFloat s with
            | Some f => Ok (NewIntegerValue (float64_to_int64 f))
            | None => Err (errorString "cannot cast as integer")
            end
        end
    | _ => Panic "interface conversion: not a string"
    end
  else Err (errorString "cannot cast as integer").

Definition CastAsDouble (v : Value) : res Value :=
  let t := Type_ v in
  if t =? types.DoubleValue then Ok v
  else if t =? types.IntegerValue then
    match V v with
    | iint64 x => Ok (NewDoubleValue (float64_of_int64 x))
    | _ => Panic "interface conversion: not an int64"
    end
  else if t =? types.TextValue then
    match V v with
    | istring s =>
        match strconv_ParseFloat s with
        | Some f => Ok (NewDoubleValue f)
        | None => Err (errorString "cannot cast as double")
        end
    | _ => Panic "interface conversion: not a string"
    end
  else Err (errorString "cannot cast as double").

(** [x.V().(int64)] and [x.V().(float64)] *)
Definition assert_int64 (v : Value) : res Z :=
  match V v with
  | iint64 x => Ok x
  | _ => Panic "interface conversion: not an int64"
  end.

Definition assert_float64 (v : Value) : res float :=
  match V v with
  | ifloat64 f => Ok f
  | _ => Panic "interface conversion: not a float64"
  end.

(** Go's [/] and [%] on int64: truncated division; [MinInt64 / -1] wraps. *)
Definition int64_div (x y : Z) : Z := wrap64 (Z.quot x y).
Definition int64_rem (x y : Z) : Z := Z.rem x y.

(** The body shared by the ['-'] case (after [xb = -xb], by fallthrough)
    and the ['+'] case of [calculateIntegers]. *)
Definition integers_add (xa xb : Z) : Value :=
  let xr := wrap64 (xa + xb) in
  if negb (Bool.eqb (xa <? xr) (0 <? xb)) then
    NewDoubleValue (PrimFloat.add (float64_of_int64 xa) (float64_of_int64 xb))
  else NewIntegerValue xr.

Definition calculateIntegers (a b : Value) (operator : ascii) : res Value :=
  match CastAsInteger a with
  | Panic m => Panic m
  | Err _ => Ok NewNullValue
  | Ok ia =>
      xa <- assert_int64 ia ;;
      match CastAsInteger b with
      | Panic m => Panic m
      | Err _ => Ok NewNullValue
      | Ok ib =>
          xb <- assert_int64 ib ;;
          if Ascii.eqb operator "-"%char then
            let xb := wrap64 (- xb) in
            Ok (integers_add xa xb)
          else if Ascii.eqb operator "+"%char then
            Ok (integers_add xa xb)
          else if Ascii.eqb operator "*"%char then
            if (xa =? 0) || (xb =? 0) then Ok (NewIntegerValue 0)
            else
              let xr := wrap64 (xa * xb) in
              let promoted :=
                NewDoubleValue
                  (PrimFloat.mul (float64_of_int64 xa) (float64_of_int64 xb)) in
              if Bool.eqb (xr <? 0) (negb (Bool.eqb (xa <? 0) (xb <? 0))) then
                if int64_div xr xb =? xa then Ok (NewIntegerValue xr)
                else Ok promoted
              else Ok promoted
          else if Ascii.eqb operator "/"%char then
            if xb =? 0 then Ok NewNullValue
            else Ok (NewIntegerValue (int64_div xa xb))
          else if Ascii.eqb operator "%"%char then
            if xb =? 0 then Ok NewNullValue
            else Ok (NewIntegerValue (int64_rem xa xb))
          else if Ascii.eqb operator "&"%char then
            Ok (NewIntegerValue (Z.land xa xb))
          else if Ascii.eqb operator "|"%char then
            Ok (NewIntegerValue (Z.lor xa xb))
          else if Ascii.eqb operator "^"%char then
            Ok (NewIntegerValue (Z.lxor xa xb))
          else Panic "unknown operator"
      end
  end.

Definition calculateFloats (a b : Value) (operator : ascii) : res Value :=
  match CastAsDouble a with
  | Panic m => Panic m
  | Err _ => Ok NewNullValue
  | Ok fa =>
      xa <- assert_float64 fa ;;
      match CastAsDouble b with
      | Panic m => Panic m
      | Err _ => Ok NewNullValue
      | Ok fb =>
          xb <- assert_float64 fb ;;
          if Ascii.eqb operator "+"%char then Ok (NewDoubleValue (PrimFloat.add xa xb))
          else if Ascii.eqb operator "-"%char then Ok (NewDoubleValue (PrimFloat.sub xa xb))
          else if Ascii.eqb operator "*"%char then Ok (NewDoubleValue (PrimFloat.mul xa xb))
          else if Ascii.eqb operator "/"%char then
            if PrimFloat.eqb xb 0%float then Ok NewNullValue
            else Ok (NewDoubleValue (PrimFloat.div xa xb))
          else if Ascii.eqb operator "%"%char then
            let mod_ := math_Mod xa xb in
            if PrimFloat.is_nan mod_ then Ok NewNullValue
            else Ok (NewDoubleValue mod_)
          else if Ascii.eqb operator "&"%char then
            Ok (NewIntegerValue (Z.land (float64_to_int64 xa) (float64_to_int64 xb)))
          else if Ascii.eqb operator "|"%char then
            Ok (NewIntegerValue (Z.lor (float64_to_int64 xa) (float64_to_int64 xb)))
          else if Ascii.eqb operator "^"%char then
            Ok (NewIntegerValue (Z.lxor (float64_to_int64 xa) (float64_to_int64 xb)))
          else Panic "unknown operator"
      end
  end.

Definition calculateValues (a b : Value) (operator : ascii) : res Value :=
  if (Type_ a =? types.NullValue) || (Type_ b =? types.NullValue) then
    Ok NewNullValue
  else if (Type_ a =? types.BoolValue) || (Type_ b =? types.BoolValue) then
    Ok NewNullValue
  else if types.IsNumber (Type_ a) && types.IsNumber (Type_ b) then
    if (Type_ a =? types.DoubleValue) || (Type_ b =? types.DoubleValue) then
      calculateFloats a b operator
    else calculateIntegers a b operator
  else Ok NewNullValue.

Definition Add (v1 v2 : Value) : res Value := calculateValues v1 v2 "+"%char.
Definition Sub (v1 v2 : Value) : res Value := calculateValues v1 v2 "-"%char.
Definition Mul (v1 v2 : Value) : res Value := calculateValues v1 v2 "*"%char.
Definition Div (v1 v2 : Value) : res Value := calculateValues v1 v2 "/"%char.
Definition Mod (v1 v2 : Value) : res Value := calculateValues v1 v2 "%"%char.
Definition BitwiseAnd (v1 v2 : Value) : res Value := calculateValues v1 v2 "&"%char.
Definition BitwiseOr (v1 v2 : Value) : res Value := calculateValues v1 v2 "|"%char.
Definition BitwiseXor (v1 v2 : Value) : res Value := calculateValues v1 v2 "^"%char.

End Arithmetic.

(** *** The other casts and the JSON form (document/cast.go,
    document/value.go)

    The functions of [strconv] and [encoding/base64], and the JSON
    encoders and decoders of arrays and documents, which are declared in
    files that are not part of the sources, are parameters.  A JSON text is
    a [string]: the conversion between [[]byte] and [string] keeps the
    bytes. *)

Section Casts.

Variable float64_to_int64 : float -> Z.
Variable strconv_ParseInt : string -> option Z.
Variable strconv_ParseFloat : string -> option float.
Variable strconv_ParseBool : string -> option bool.
Variable strconv_AppendInt : Z -> string.
Variable strconv_AppendFloat : float -> ascii -> string.
Variable strconv_Quote : string -> string.
Variable strconv_Unquote : string -> option string.
Variable base64_Encode : list Byte.byte -> string.
Variable base64_DecodeString : string -> option (list Byte.byte).
Variable jsonArray_MarshalJSON : list Value -> res string.
Variable jsonDocument_MarshalJSON : list (string * Value) -> res string.
Variable ValueBuffer_UnmarshalJSON : string -> option (list Value).
Variable FieldBuffer_UnmarshalJSON : string -> option (list (string * Value)).

(** The character of the double quote. *)
Definition dquote : ascii := Ascii.ascii_of_nat 34.

(** [value.MarshalJSON] *)
Definition MarshalJSON (v : Value) : res string :=
  let t := Type_ v in
  if t =? types.NullValue then Ok "null"%string
  else if t =? types.BoolValue then
    match V v with
    | ibool true => Ok "true"%string
    | ibool false => Ok "false"%string
    | _ => Panic "interface conversion: not a bool"
    end
  else if t =? types.IntegerValue then
    match V v with
    | iint64 x => Ok (strconv_AppendInt x)
    | _ => Panic "interface conversion: not an int64"
    end
  else if t =? types.DoubleValue then
    match V v with
    | ifloat64 f =>
        let abs := PrimFloat.abs f in
        let fmt :=
          if negb (PrimFloat.eqb abs 0%float) then
            if PrimFloat.ltb abs 0x1.0c6f7a0b5ed8dp-20%float (* 1e-6 *)
               || PrimFloat.leb 1e21%float abs
            then "e"%char else "f"%char
          else "f"%char in
        Ok (strconv_AppendFloat f fmt)
    | _ => Panic "interface conversion: not a float64"
    end
  else if t =? types.TextValue then
    match V v with
    | istring s => Ok (strconv_Quote s)
    | _ => Panic "interface conversion: not a string"
    end
  else if t =? types.BlobValue then
    match V v with
    | ibytes src =>
        Ok (String dquote (base64_Encode src ++ String dquote EmptyString))
    | _ => Panic "interface conversion: not a []byte"
    end
  else if t =? types.ArrayValue then
    match V v with
    | iArray a => jsonArray_MarshalJSON a
    | _ => Panic "interface conversion: not an Array"
    end
  else if t =? types.DocumentValue then
    match V v with
    | iDocument d => jsonDocument_MarshalJSON d
    | _ => Panic "interface conversion: not a Document"
    end
  else Err (errorString "unexpected type").

(** [CastAsBool] *)
Definition CastAsBool (v : Value) : res Value :=
  let t := Type_ v in
  if t =? types.BoolValue then Ok v
  else if t =? types.IntegerValue then
    match V v with
    | iint64 x => Ok (NewBoolValue (negb (x =? 0)))
    | _ => Panic "interface conversion: not an int64"
    end
  else if t =? types.TextValue then
    match V v with
    | istring s =>
        match strconv_ParseBool s with
        | Some b => Ok (NewBoolValue b)
        | None => Err (errorString "cannot cast as bool")
        end
    | _ => Panic "interface conversion: not a string"
    end
  else Err (errorString "cannot cast as bool").

(** [CastAsText] *)
Definition CastAsText (v : Value) : res Value :=
  if Type_ v =? types.TextValue then Ok v
  else
    s <- MarshalJSON v ;;
    if Type_ v =? types.BlobValue then
      match strconv_Unquote s with
      | Some s' => Ok (NewTextValue s')
      | None => Err (errorString "invalid syntax")
      end
    else Ok (NewTextValue s).

(** [CastAsBlob] *)
Definition CastAsBlob (v : Value) : res Value :=
  if Type_ v =? types.BlobValue then Ok v
  else if Type_ v =? types.TextValue then
    match V v with
    | istring s =>
        match base64_DecodeString s with
        | Some b => Ok (NewBlobValue b)
        | None => Err (errorString "cannot cast as blob")
        end
    | _ => Panic "interface conversion: not a string"
    end
  else Err (errorString "cannot cast as blob").

(** [CastAsArray] *)
Definition CastAsArray (v : Value) : res Value :=
  if Type_ v =? types.ArrayValue then Ok v
  else if Type_ v =? types.TextValue then
    match V v with
    | istring s =>
        match ValueBuffer_UnmarshalJSON s with
        | Some vb => Ok (NewArrayValue vb)
        | None => Err (errorString "cannot cast as array")
        end
    | _ => Panic "interface conversion: not a string"
    end
  else Err (errorString "cannot cast as array").

(** [CastAsDocument] *)
Definition CastAsDocument (v : Value) : res Value :=
  if Type_ v =? types.DocumentValue then Ok v
  else if Type_ v =? types.TextValue then
    match V v with
    | istring s =>
        match FieldBuffer_UnmarshalJSON s with
        | Some fb => Ok (NewDocumentValue fb)
        | None => Err (errorString "cannot cast as document")
        end
    | _ => Panic "interface conversion: not a string"
    end
  else Err (errorString "cannot cast as document").

(** [CastAs] *)
Definition CastAs (v : Value) (t : types.ValueType) : res Value :=
  if Type_ v =? t then Ok v
  else if Type_ v =? types.NullValue then Ok v
  else if t =? types.BoolValue then CastAsBool v
  else if t =? types.IntegerValue then
    CastAsInteger float64_to_int64 strconv_ParseInt strconv_ParseFloat v
  else if t =? types.DoubleValue then CastAsDouble strconv_ParseFloat v
  else if t =? types.BlobValue then CastAsBlob v
  else if t =? types.TextValue then CastAsText v
  else if t =? types.ArrayValue then CastAsArray v
  else if t =? types.DocumentValue then CastAsDocument v
  else Err (errorString "cannot cast").

End Casts.

End document.

(** ** package expr: comparison operators (sql/query/expr/comparison.go) *)

Module expr.
Import go document.

(** The literals of the package. *)
Definition trueLitteral : Value := NewBoolValue true.
Definition falseLitteral : Value := NewBoolValue false.
Definition nullLitteral : Value := NewNullValue.
Definition NullLiteral : Value := NewNullValue.

(** The tokens of [scanner] that an operator of this file is built with. *)
Inductive Token : Type := EQ | NEQ | GT | GTE | LT | LTE | IN.

Section Comparison.

Variable EvalStack : Type.

(** An expression is known by its [Eval] method, which returns a value
    together with an error. *)
Definition Expr : Type := EvalStack -> Value * option error.

(** [type simpleOperator struct { a, b Expr; Tok scanner.Token }] *)
Record simpleOperator : Type := mkSimpleOperator {
  a : Expr;
  b : Expr;
  Tok : Token
}.

(** [type cmpOp struct { *simpleOperator }] *)
Definition cmpOp : Type := simpleOperator.
Definition newCmpOp (a b : Expr) (t : Token) : cmpOp := mkSimpleOperator a b t.

(** [simpleOperator.eval] and the comparison methods of [document.Value]
    are declared in files that are not part of the sources; they are
    parameters here. *)
Variable simpleOperator_eval :
  simpleOperator -> EvalStack -> Value * Value * option error.
Variable IsEqual IsNotEqual IsGreaterThan IsGreaterThanOrEqual
         IsLesserThan IsLesserThanOrEqual : Value -> Value -> bool * option error.

Definition compare (op : cmpOp) (l r : Value) : res (bool * option error) :=
  match Tok op with
  | EQ => Ok (IsEqual l r)
  | NEQ => Ok (IsNotEqual l r)
  | GT => Ok (IsGreaterThan l r)
  | GTE => Ok (IsGreaterThanOrEqual l r)
  | LT => Ok (IsLesserThan l r)
  | LTE => Ok (IsLesserThanOrEqual l r)
  | _ => Panic "unknown token"
  end.

(** [cmpOp.Eval]; the result is the pair [(document.Value, error)]. *)
Definition Eval (op : cmpOp) (ctx : EvalStack) : res (Value * option error) :=
  let '(v1, v2, err) := simpleOperator_eval op ctx in
  match err with
  | Some e => Ok (falseLitteral, Some e)
  | None =>
      if (Type_ v1 =? types.NullValue) || (Type_ v2 =? types.NullValue) then
        Ok (nullLitteral, None)
      else
        r <- compare op v1 v2 ;;
        let '(ok, err) := r in
        if ok then Ok (trueLitteral, err) else Ok (falseLitteral, err)
  end.

Definition Eq (a b : Expr) : cmpOp := newCmpOp a b EQ.
Definition Neq (a b : Expr) : cmpOp := newCmpOp a b NEQ.
Definition Gt (a b : Expr) : cmpOp := newCmpOp a b GT.
Definition Gte (a b : Expr) : cmpOp := newCmpOp a b GTE.
Definition Lt (a b : Expr) : cmpOp := newCmpOp a b LT.
Definition Lte (a b : Expr) : cmpOp := newCmpOp a b LTE.

End Comparison.

(** *** The operators IN and NOT IN *)

(** [v == trueLitteral] and [v == falseLitteral], comparisons of two
    [Value] structs: the types are equal and the content is the same
    bool. *)
Definition is_bool_literal (v : Value) (b : bool) : bool :=
  (Type_ v =? types.BoolValue)
  && match V v with ibool x => Bool.eqb x b | _ => false end.

Section Membership.

Variable EvalStack : Type.

(** [simpleOperator.eval], [Value.ConvertToArray] and
    [document.ArrayContains] are declared in files that are not part of
    the sources; they are parameters here. *)
Variable simpleOperator_eval :
  simpleOperator EvalStack -> EvalStack -> Value * Value * option error.
Variable ConvertToArray : Value -> list Value * option error.
Variable ArrayContains : list Value -> Value -> bool * option error.

(** [type inOp struct { *simpleOperator }] and [In] *)
Definition inOp : Type := simpleOperator EvalStack.
Definition In (a b : Expr EvalStack) : inOp := mkSimpleOperator EvalStack a b IN.

(** [inOp.Eval] *)
Definition inOp_Eval (op : inOp) (ctx : EvalStack) : Value * option error :=
  let '(a, b, err) := simpleOperator_eval op ctx in
  match err with
  | Some e => (nullLitteral, Some e)
  | None =>
      if (Type_ a =? types.NullValue) || (Type_ b =? types.NullValue) then
        (nullLitteral, None)
      else if negb (Type_ b =? types.ArrayValue) then (falseLitteral, None)
      else
        let '(arr, err) := ConvertToArray b in
        match err with
        | Some e => (nullLitteral, Some e)
        | None =>
            let '(ok, err) := ArrayContains arr a in
            match err with
            | Some e => (nullLitteral, Some e)
            | None => if ok then (trueLitteral, None) else (falseLitteral, None)
            end
        end
  end.

(** [type notInOp struct { Expr }] *)
Definition notInOp : Type := Expr EvalStack.

(** [notInOp.Eval] *)
Definition notInOp_Eval (op : notInOp) (ctx : EvalStack) : Value * option error :=
  let '(v, err) := op ctx in
  match err with
  | Some e => (v, Some e)
  | None =>
      if is_bool_literal v true then (falseLitteral, None)
      else if is_bool_literal v false then (trueLitteral, None)
      else (v, None)
  end.

(** [NotIn] *)
Definition NotIn (a b : Expr EvalStack) : notInOp := inOp_Eval (In a b).

End Membership.

End expr.

(** ** package functions: the COUNT aggregator *)

Module functions.
Import go document.

(** [environment.Environment]: the current document, when there is one. *)
Record Environment : Type := mkEnvironment {
  Doc : option (list (string * Value))
}.

Definition GetDocument (env : Environment) : option (list (string * Value)) :=
  Doc env.

(** An expression is known by its [Eval] method. *)
Definition Expr : Type := Environment -> Value * option error.

(** Modelled from the spec: the evaluation of a field reference, which is
    not part of the sources.  "A document may be queried by Path returning
    a Value or FieldNotFound" and "FieldNotFound during expression
    evaluation yields Null": a missing field evaluates to the Null literal
    together with [ErrFieldNotFound]. *)
Definition Path_Eval (field : string) : Expr := fun env =>
  match GetDocument env with
  | None => (expr.NullLiteral, Some ErrFieldNotFound)
  | Some d =>
      match List.find (fun kv => String.eqb (fst kv) field) d with
      | Some kv => (snd kv, None)
      | None => (expr.NullLiteral, Some ErrFieldNotFound)
      end
  end.

(** [type CountFunc struct { Expr expr.Expr; Wildcard bool; Count int64 }] *)
Record CountFunc : Type := mkCountFunc {
  Expr_ : Expr;
  Wildcard : bool;
  CountFunc_Count : Z
}.

(** [type CountAggregator struct { Fn *CountFunc; Count int64 }] *)
Record CountAggregator : Type := mkCountAggregator {
  Fn : CountFunc;
  Count : Z
}.

(** [CountFunc.Aggregator] *)
Definition Aggregator (c : CountFunc) : CountAggregator :=
  mkCountAggregator c 0.

(** [v != expr.NullLiteral], a comparison of two [Value] structs: the
    types are equal and both interfaces are nil. *)
Definition is_NullLiteral (v : Value) : bool :=
  (Type_ v =? types.NullValue) && match V v with inil => true | _ => false end.

(** [CountAggregator.Aggregate]: the aggregator after the call and the
    error returned. *)
Definition Aggregate (c : CountAggregator) (env : Environment)
  : CountAggregator * option error :=
  if Wildcard (Fn c) then
    (mkCountAggregator (Fn c) (wrap64 (Count c + 1)), None)
  else
    let '(v, err) := Expr_ (Fn c) env in
    if bool_decide (err <> None) && bool_decide (err <> Some ErrFieldNotFound)
    then (c, err)
    else if negb (is_NullLiteral v) then
      (mkCountAggregator (Fn c) (wrap64 (Count c + 1)), None)
    else (c, None).

(** [CountAggregator.Eval] *)
Definition Eval (c : CountAggregator) : Value := NewIntegerValue (Count c).

(** Modelled from the spec: the operator that drives an aggregator, which
    is not part of the sources.  "HashAggregate: accumulate per-group
    state"; "the first non-sentinel error aborts the pipeline": each row of
    the stream is passed to [Aggregate] in order, up to the first error. *)
Fixpoint Aggregate_stream (c : CountAggregator) (rows : list Environment)
  : CountAggregator * option error :=
  match rows with
  | [] => (c, None)
  | env :: rows' =>
      match Aggregate c env with
      | (c', None) => Aggregate_stream c' rows'
      | (c', Some e) => (c', Some e)
      end
  end.

(** *** The MIN and MAX aggregators *)

(** [type MinFunc struct { Expr expr.Expr }] *)
Record MinFunc : Type := mkMinFunc {
  MinFunc_Expr : Expr
}.

(** [type MinAggregator struct { Fn *MinFunc; Min document.Value }] *)
Record MinAggregator : Type := mkMinAggregator {
  Min_Fn : MinFunc;
  Min : Value
}.

(** [MinFunc.Aggregator]; [Min] starts as the zero [document.Value{}],
    whose type is 0 and whose content is nil. *)
Definition MinFunc_Aggregator (m : MinFunc) : MinAggregator :=
  mkMinAggregator m (mkValue 0 inil).

(** [type MaxFunc struct { Expr expr.Expr }] *)
Record MaxFunc : Type := mkMaxFunc {
  MaxFunc_Expr : Expr
}.

(** [type MaxAggregator struct { Fn *MaxFunc; Max document.Value }] *)
Record MaxAggregator : Type := mkMaxAggregator {
  Max_Fn : MaxFunc;
  Max : Value
}.

(** [MaxFunc.Aggregator] *)
Definition MaxFunc_Aggregator (m : MaxFunc) : MaxAggregator :=
  mkMaxAggregator m (mkValue 0 inil).

Section MinMax.

(** The comparison methods of [document.Value] are declared in a file
    that is not part of the sources; they are parameters here. *)
Variable IsGreaterThan IsLesserThan : Value -> Value -> bool * option error.

(** [MinAggregator.Aggregate]: the aggregator after the call and the
    error returned. *)
Definition MinAggregator_Aggregate (m : MinAggregator) (env : Environment)
  : MinAggregator * option error :=
  let '(v, err) := MinFunc_Expr (Min_Fn m) env in
  if bool_decide (err <> None) && bool_decide (err <> Some ErrFieldNotFound)
  then (m, err)
  else if is_NullLiteral v then (m, None)
  else if Type_ (Min m) =? 0 then (mkMinAggregator (Min_Fn m) v, None)
  else if (Type_ (Min m) =? Type_ v)
          || (types.IsNumber (Type_ (Min m)) && types.IsNumber (Type_ v))
  then
    let '(ok, err) := IsGreaterThan (Min m) v in
    match err with
    | Some e => (m, Some e)
    | None =>
        if ok then (mkMinAggregator (Min_Fn m) v, None) else (m, None)
    end
  else if Type_ v <? Type_ (Min m) then (mkMinAggregator (Min_Fn m) v, None)
  else (m, None).

(** [MinAggregator.Eval] *)
Definition MinAggregator_Eval (m : MinAggregator) : Value :=
  if Type_ (Min m) =? 0 then NewNullValue else Min m.

(** [MaxAggregator.Aggregate] *)
Definition MaxAggregator_Aggregate (m : MaxAggregator) (env : Environment)
  : MaxAggregator * option error :=
  let '(v, err) := MaxFunc_Expr (Max_Fn m) env in
  if bool_decide (err <> None) && bool_decide (err <> Some ErrFieldNotFound)
  then (m, err)
  else if is_NullLiteral v then (m, None)
  else if Type_ (Max m) =? 0 then (mkMaxAggregator (Max_Fn m) v, None)
  else if (Type_ (Max m) =? Type_ v)
          || (types.IsNumber (Type_ (Max m)) && types.IsNumber (Type_ v))
  then
    let '(ok, err) := IsLesserThan (Max m) v in
    match err with
    | Some e => (m, Some e)
    | None =>
        if ok then (mkMaxAggregator (Max_Fn m) v, None) else (m, None)
    end
  else if Type_ (Max m) <? Type_ v then (mkMaxAggregator (Max_Fn m) v, None)
  else (m, None).

(** [MaxAggregator.Eval] *)
Definition MaxAggregator_Eval (m : MaxAggregator) : Value :=
  if Type_ (Max m) =? 0 then NewNullValue else Max m.

End MinMax.

(** *** The SUM aggregator *)

(** [type SumFunc struct { Expr expr.Expr }] *)
Record SumFunc : Type := mkSumFunc {
  SumFunc_Expr : Expr
}.

(** [type SumAggregator struct { Fn *SumFunc; SumI *int64; SumF *float64 }];
    a nil pointer is [None]. *)
Record SumAggregator : Type := mkSumAggregator {
  Sum_Fn : SumFunc;
  SumI : option Z;
  SumF : option float
}.

(** [SumFunc.Aggregator] *)
Definition SumFunc_Aggregator (s : SumFunc) : SumAggregator :=
  mkSumAggregator s None None.

(** [SumAggregator.Aggregate]; the type assertions [v.V.(int64)] and
    [v.V.(float64)] panic on a content of another Go type. *)
Definition SumAggregator_Aggregate (s : SumAggregator) (env : Environment)
  : res (SumAggregator * option error) :=
  let '(v, err) := SumFunc_Expr (Sum_Fn s) env in
  if bool_decide (err <> None) && bool_decide (err <> Some ErrFieldNotFound)
  then Ok (s, err)
  else if negb (Type_ v =? types.IntegerValue)
          && negb (Type_ v =? types.DoubleValue)
  then Ok (s, None)
  else
    match SumF s with
    | Some sumF =>
        if Type_ v =? types.IntegerValue then
          x <- assert_int64 v ;;
          Ok (mkSumAggregator (Sum_Fn s) (SumI s)
                (Some (sumF + float64_of_int64 x)%float), None)
        else
          x <- assert_float64 v ;;
          Ok (mkSumAggregator (Sum_Fn s) (SumI s) (Some (sumF + x)%float), None)
    | None =>
        if Type_ v =? types.DoubleValue then
          let sumF :=
            match SumI s with
            | Some i => float64_of_int64 i
            | None => 0%float
            end in
          x <- assert_float64 v ;;
          Ok (mkSumAggregator (Sum_Fn s) (SumI s) (Some (sumF + x)%float), None)
        else
          let sumI := match SumI s with Some i => i | None => 0 end in
          x <- assert_int64 v ;;
          Ok (mkSumAggregator (Sum_Fn s) (Some (wrap64 (sumI + x))) None, None)
    end.

(** [SumAggregator.Eval] *)
Definition SumAggregator_Eval (s : SumAggregator) : Value :=
  match SumF s, SumI s with
  | Some sumF, _ => NewDoubleValue sumF
  | None, Some sumI => NewIntegerValue sumI
  | None, None => NewNullValue
  end.

(** *** The AVG aggregator *)

(** [type AvgFunc struct { Expr expr.Expr }] *)
Record AvgFunc : Type := mkAvgFunc {
  AvgFunc_Expr : Expr
}.

(** [type AvgAggregator struct { Fn *AvgFunc; Avg float64; Counter int64 }] *)
Record AvgAggregator : Type := mkAvgAggregator {
  Avg_Fn : AvgFunc;
  Avg : float;
  Counter : Z
}.

(** [AvgFunc.Aggregator] *)
Definition AvgFunc_Aggregator (s : AvgFunc) : AvgAggregator :=
  mkAvgAggregator s 0%float 0.

(** [AvgAggregator.Aggregate] *)
Definition AvgAggregator_Aggregate (s : AvgAggregator) (env : Environment)
  : res (AvgAggregator * option error) :=
  let '(v, err) := AvgFunc_Expr (Avg_Fn s) env in
  if bool_decide (err <> None) && bool_decide (err <> Some ErrFieldNotFound)
  then Ok (s, err)
  else if Type_ v =? types.IntegerValue then
    x <- assert_int64 v ;;
    Ok (mkAvgAggregator (Avg_Fn s) (Avg s + float64_of_int64 x)%float
          (wrap64 (Counter s + 1)), None)
  else if Type_ v =? types.DoubleValue then
    x <- assert_float64 v ;;
    Ok (mkAvgAggregator (Avg_Fn s) (Avg s + x)%float
          (wrap64 (Counter s + 1)), None)
  else Ok (s, None).

(** [AvgAggregator.Eval] *)
Definition AvgAggregator_Eval (s : AvgAggregator) : Value :=
  if Counter s =? 0 then NewDoubleValue 0%float
  else NewDoubleValue (Avg s / float64_of_int64 (Counter s))%float.

End functions.

(** ** package stream: the range model *)

Module stream.
Import go document.

(** The [int] of the cost functions is a 64-bit integer. *)
Definition int_add (x y : Z) : Z := wrap64 (x + y).

(** [type ValueRange struct]; a nil [[]byte] is [None]. *)
Record ValueRange : Type := mkValueRange {
  Min : Value;
  Max : Value;
  Exclusive : bool;
  Exact : bool;
  encodedMin : option (list Byte.byte);
  encodedMax : option (list Byte.byte);
  rangeType : types.ValueType
}.

Definition ValueRanges : Type := list ValueRange.

(** The zero [document.Value{}] of an unset boundary. *)
Definition zeroValue : Value := mkValue 0 inil.

Section ValueRanges.

(** [document.Value.IsEqual] is declared in a file that is not part of the
    sources. *)
Variable Value_IsEqual : Value -> Value -> bool * option error.

Definition ValueRange_IsEqual (r other : ValueRange) : bool :=
  if negb (Bool.eqb (Exact r) (Exact other)) then false
  else if negb (rangeType r =? rangeType other) then false
  else if negb (Bool.eqb (Exclusive r) (Exclusive other)) then false
  else if negb (Type_ (Min r) =? Type_ (Min other)) then false
  else
    let '(ok, err) := Value_IsEqual (Min r) (Min other) in
    if bool_decide (err <> None) || negb ok then false
    else if negb (Type_ (Max r) =? Type_ (Max other)) then false
    else
      let '(ok, err) := Value_IsEqual (Max r) (Max other) in
      if bool_decide (err <> None) || negb ok then false
      else true.

(** The loop of [Append] that looks for a duplicate, with its [break]. *)
Fixpoint ValueRanges_isDuplicate (r : ValueRanges) (rng : ValueRange) : bool :=
  match r with
  | [] => false
  | e :: r' =>
      if ValueRange_IsEqual e rng then true
      else ValueRanges_isDuplicate r' rng
  end.

Definition ValueRanges_Append (r : ValueRanges) (rng : ValueRange) : ValueRanges :=
  if ValueRanges_isDuplicate r rng then r else r ++ [rng].

End ValueRanges.

(** One turn of the loop of [ValueRanges.Cost]; a [continue] ends the
    turn. *)
Definition ValueRanges_Cost_step (cost : Z) (rng : ValueRange) : Z :=
  if Exact rng then int_add cost 1
  else
    let cost :=
      if negb (types.IsZero (Type_ (Min rng))) && negb (types.IsZero (Type_ (Max rng)))
      then int_add cost 50 else cost in
    if (negb (types.IsZero (Type_ (Min rng))) && types.IsZero (Type_ (Max rng)))
       || (types.IsZero (Type_ (Min rng)) && negb (types.IsZero (Type_ (Max rng))))
    then int_add cost 100
    else int_add cost 200.

Definition ValueRanges_Cost (r : ValueRanges) : Z :=
  fold_left ValueRanges_Cost_step r 0.

Definition ValueRange_IsInRange (r : ValueRange) (value : list Byte.byte) : bool :=
  let cmpMin := 1 in
  let cmpMax := -1 in
  let cmpMin :=
    match encodedMin r with
    | Some m => bytes_Compare value m
    | None => cmpMin
    end in
  if Exact r then cmpMin =? 0
  else if Exclusive r && (cmpMin =? 0) then false
  else
    let cmpMax :=
      match encodedMax r with
      | Some m => bytes_Compare value m
      | None => cmpMax
      end in
    if Exclusive r && (cmpMax =? 0) then false
    else cmpMax <=? 0.

Section IndexRanges.

(** [document.ValueBuffer] and its methods [Len] and [IsEqual] are declared
    in a file that is not part of the sources. *)
Variable ValueBuffer : Type.
Variable ValueBuffer_Len : ValueBuffer -> Z.
Variable ValueBuffer_IsEqual : ValueBuffer -> ValueBuffer -> bool.

(** [type IndexRange struct] *)
Record IndexRange : Type := mkIndexRange {
  IMin : ValueBuffer;
  IMax : ValueBuffer;
  IExclusive : bool;
  IExact : bool;
  Arity : Z;
  IndexArityMax : Z;
  IencodedMin : option (list Byte.byte);
  IencodedMax : option (list Byte.byte);
  rangeTypes : list types.ValueType
}.

Definition IndexRanges : Type := list IndexRange.

(** The loop [for i, typ := range r.rangeTypes] of [IsEqual], from index
    [i]: [Some true] when a type differs, [None] when [other.rangeTypes[i]]
    is out of range. *)
Fixpoint rangeTypes_differ (rt other : list types.ValueType) : option bool :=
  match rt with
  | [] => Some false
  | typ :: rt' =>
      match other with
      | [] => None
      | otyp :: other' =>
          if negb (typ =? otyp) then Some true
          else rangeTypes_differ rt' other'
      end
  end.

Definition IndexRange_IsEqual (r other : IndexRange) : res bool :=
  if negb (Bool.eqb (IExact r) (IExact other)) then Ok false
  else
    match rangeTypes_differ (rangeTypes r) (rangeTypes other) with
    | None => Panic "index out of range"
    | Some true => Ok false
    | Some false =>
        if negb (Bool.eqb (IExclusive r) (IExclusive other)) then Ok false
        else if negb (ValueBuffer_IsEqual (IMin r) (IMin other)) then Ok false
        else if negb (ValueBuffer_IsEqual (IMax r) (IMax other)) then Ok false
        else Ok true
    end.

Fixpoint IndexRanges_isDuplicate (r : IndexRanges) (rng : IndexRange) : res bool :=
  match r with
  | [] => Ok false
  | e :: r' =>
      eq <- IndexRange_IsEqual e rng ;;
      if eq : bool then Ok true else IndexRanges_isDuplicate r' rng
  end.

Definition IndexRanges_Append (r : IndexRanges) (rng : IndexRange) : res IndexRanges :=
  isDuplicate <- IndexRanges_isDuplicate r rng ;;
  if isDuplicate : bool then Ok r else Ok (r ++ [rng]).

Definition IndexRanges_Cost_step (cost : Z) (rng : IndexRange) : Z :=
  if IExact rng then int_add cost 1
  else if (0 <? ValueBuffer_Len (IMin rng)) && (0 <? ValueBuffer_Len (IMax rng))
  then int_add cost 50
  else if (0 <? ValueBuffer_Len (IMin rng)) || (0 <? ValueBuffer_Len (IMax rng))
  then int_add cost 100
  else int_add cost 200.

Definition IndexRanges_Cost (r : IndexRanges) : Z :=
  fold_left IndexRanges_Cost_step r 0.

(** [value[:n]]; the capacity of [value] is taken to be its length. *)
Definition slice_to (value : list Byte.byte) (n : Z) : res (list Byte.byte) :=
  if (n <? 0) || (Z.of_nat (length value) <? n)
  then Panic "slice bounds out of range"
  else Ok (take (Z.to_nat n) value).

Definition IndexRange_IsInRange (r : IndexRange) (value : list Byte.byte) : res bool :=
  let cmpMin := 1 in
  let cmpMax := -1 in
  let cmpMin :=
    match IencodedMin r with
    | Some m => bytes_Compare value m
    | None => cmpMin
    end in
  if IExact r then Ok (cmpMin =? 0)
  else if IExclusive r && (cmpMin =? 0) then Ok false
  else
    cmpMax <-
      match IencodedMax r with
      | Some m =>
          if IndexArityMax r <? Arity r then
            v <- slice_to value (Z.of_nat (length m) - 1) ;;
            Ok (bytes_Compare v m)
          else Ok (bytes_Compare value m)
      | None => Ok cmpMax
      end ;;
    if IExclusive r && (cmpMax =? 0) then Ok false
    else Ok ((0 <=? cmpMin) && (cmpMax <=? 0)).

End IndexRanges.

(** *** Encoding of the ranges *)

Definition set_Value_Type (v : Value) (t : types.ValueType) : Value :=
  mkValue t (V v).

Definition set_Min (r : ValueRange) (v : Value) : ValueRange :=
  mkValueRange v (Max r) (Exclusive r) (Exact r) (encodedMin r)
    (encodedMax r) (rangeType r).
Definition set_Max (r : ValueRange) (v : Value) : ValueRange :=
  mkValueRange (Min r) v (Exclusive r) (Exact r) (encodedMin r)
    (encodedMax r) (rangeType r).
Definition set_encodedMin (r : ValueRange) (b : option (list Byte.byte))
  : ValueRange :=
  mkValueRange (Min r) (Max r) (Exclusive r) (Exact r) b (encodedMax r)
    (rangeType r).
Definition set_encodedMax (r : ValueRange) (b : option (list Byte.byte))
  : ValueRange :=
  mkValueRange (Min r) (Max r) (Exclusive r) (Exact r) (encodedMin r) b
    (rangeType r).
Definition set_rangeType (r : ValueRange) (t : types.ValueType) : ValueRange :=
  mkValueRange (Min r) (Max r) (Exclusive r) (Exact r) (encodedMin r)
    (encodedMax r) t.

Section ValueEncode.

(** [ValueEncoder.EncodeValue]: the slice and the error it returns. *)
Variable EncodeValue : Value -> option (list Byte.byte) * option error.

(** [ValueRange.encode]; the receiver is a pointer: the result is the
    range after the call, with the error returned. *)
Definition ValueRange_encode (r : ValueRange) : res (ValueRange * option error) :=
  let '(r, err) :=
    if negb (types.IsZero (Type_ (Min r))) then
      let '(b, err) := EncodeValue (Min r) in
      let r := set_encodedMin r b in
      match err with
      | Some e => (r, Some e)
      | None => (set_rangeType r (Type_ (Min r)), None)
      end
    else (r, None) in
  match err with
  | Some e => Ok (r, Some e)
  | None =>
      r2 <-
        (if negb (types.IsZero (Type_ (Max r))) then
           let '(b, err) := EncodeValue (Max r) in
           let r := set_encodedMax r b in
           match err with
           | Some e => Ok (r, Some e)
           | None =>
               if negb (types.IsZero (rangeType r))
                  && negb (rangeType r =? Type_ (Max r))
               then Panic "range contain values of different types"
               else Ok (set_rangeType r (Type_ (Max r)), None)
           end
         else Ok (r, None)) ;;
      let '(r, err) := r2 in
      match err with
      | Some e => Ok (r, Some e)
      | None =>
          let r :=
            if types.IsZero (Type_ (Min r))
            then set_Min r (set_Value_Type (Min r) (rangeType r)) else r in
          let r :=
            if types.IsZero (Type_ (Max r))
            then set_Max r (set_Value_Type (Max r) (rangeType r)) else r in
          if Exclusive r && Exact r
          then Panic "exclusive and exact cannot both be true"
          else Ok (r, None)
      end
  end.

(** [ValueRanges.Encode]: the ranges are encoded in place, in order, up to
    the first error. *)
Fixpoint ValueRanges_Encode (r : ValueRanges) : res (ValueRanges * option error) :=
  match r with
  | [] => Ok ([], None)
  | rng :: r' =>
      x <- ValueRange_encode rng ;;
      let '(rng', err) := x in
      match err with
      | Some e => Ok (rng' :: r', Some e)
      | None =>
          y <- ValueRanges_Encode r' ;;
          let '(r'', err) := y in Ok (rng' :: r'', err)
      end
  end.

End ValueEncode.

Section IndexEncode.

(** [document.ValueBuffer], its methods [Len] and [Types], and
    [ValueBufferEncoder.EncodeValueBuffer] are declared in files that are
    not part of the sources. *)
Variable ValueBuffer : Type.
Variable ValueBuffer_Len : ValueBuffer -> Z.
Variable ValueBuffer_Types : ValueBuffer -> list types.ValueType.
Variable EncodeValueBuffer :
  ValueBuffer -> option (list Byte.byte) * option error.

Definition set_IencodedMin (r : IndexRange ValueBuffer)
    (b : option (list Byte.byte)) : IndexRange ValueBuffer :=
  mkIndexRange ValueBuffer (IMin _ r) (IMax _ r) (IExclusive _ r) (IExact _ r)
    (Arity _ r) (IndexArityMax _ r) b (IencodedMax _ r) (rangeTypes _ r).
Definition set_IencodedMax (r : IndexRange ValueBuffer)
    (b : option (list Byte.byte)) : IndexRange ValueBuffer :=
  mkIndexRange ValueBuffer (IMin _ r) (IMax _ r) (IExclusive _ r) (IExact _ r)
    (Arity _ r) (IndexArityMax _ r) (IencodedMin _ r) b (rangeTypes _ r).
Definition set_rangeTypes (r : IndexRange ValueBuffer)
    (t : list types.ValueType) : IndexRange ValueBuffer :=
  mkIndexRange ValueBuffer (IMin _ r) (IMax _ r) (IExclusive _ r) (IExact _ r)
    (Arity _ r) (IndexArityMax _ r) (IencodedMin _ r) (IencodedMax _ r) t.

(** The loop [for i, typ := range maxTypes] of [encode]: whether a type
    differs from [r.rangeTypes[i]]; [None] when the index is out of
    range. *)
Fixpoint maxTypes_differ (maxTypes rt : list types.ValueType) : option bool :=
  match maxTypes with
  | [] => Some false
  | typ :: maxTypes' =>
      match rt with
      | [] => None
      | rtyp :: rt' =>
          if negb (typ =? rtyp) then Some true
          else maxTypes_differ maxTypes' rt'
      end
  end.

(** [IndexRange.encode] *)
Definition IndexRange_encode (r : IndexRange ValueBuffer)
  : res (IndexRange ValueBuffer * option error) :=
  let '(r, err) :=
    if 0 <? ValueBuffer_Len (IMin _ r) then
      let '(b, err) := EncodeValueBuffer (IMin _ r) in
      let r := set_IencodedMin r b in
      match err with
      | Some e => (r, Some e)
      | None => (set_rangeTypes r (ValueBuffer_Types (IMin _ r)), None)
      end
    else (r, None) in
  match err with
  | Some e => Ok (r, Some e)
  | None =>
      r2 <-
        (if 0 <? ValueBuffer_Len (IMax _ r) then
           let '(b, err) := EncodeValueBuffer (IMax _ r) in
           let r := set_IencodedMax r b in
           match err with
           | Some e => Ok (r, Some e)
           | None =>
               let maxTypes := ValueBuffer_Types (IMax _ r) in
               if (0 <? Z.of_nat (length (rangeTypes _ r)))%Z then
                 if negb (Z.of_nat (length maxTypes)
                          =? Z.of_nat (length (rangeTypes _ r)))
                 then Panic "range types for max and min differ in size"
                 else
                   match maxTypes_differ maxTypes (rangeTypes _ r) with
                   | None => Panic "index out of range"
                   | Some true =>
                       Panic "range contain values of different types"
                   | Some false => Ok (set_rangeTypes r maxTypes, None)
                   end
               else Ok (set_rangeTypes r maxTypes, None)
           end
         else Ok (r, None)) ;;
      let '(r, err) := r2 in
      match err with
      | Some e => Ok (r, Some e)
      | None =>
          if IExclusive _ r && IExact _ r
          then Panic "exclusive and exact cannot both be true"
          else Ok (r, None)
      end
  end.

End IndexEncode.

(** *** The document iterator (stream/iterator.go) *)

(** [documentIterator.Iterate]: the function is called on each document in
    order, in an environment that holds it, and the first error stops the
    iteration.  The function is a closure: [S] is the state it closes
    over, and the result is that state with the error returned. *)
Fixpoint documentIterator_Iterate {S : Type} (it : list (list (string * Value)))
    (fn : S -> functions.Environment -> res (S * option error)) (s : S)
  : res (S * option error) :=
  match it with
  | [] => Ok (s, None)
  | d :: it' =>
      r <- fn s (functions.mkEnvironment (Some d)) ;;
      match r with
      | (s', None) => documentIterator_Iterate it' fn s'
      | (s', Some e) => Ok (s', Some e)
      end
  end.

(** [NewDocumentIterator] *)
Definition NewDocumentIterator (documents : list (list (string * Value)))
  : list (list (string * Value)) := documents.

End stream.

(** ** package database: the catalog cache (internal/database/catalog.go) *)

Module database.
Import go.

(** [document.PathFragment] and [document.Path]. *)
Inductive PathFragment : Type :=
| FieldName (name : string)
| ArrayIndex (i : Z).

Definition Path : Type := list PathFragment.

#[global] Instance PathFragment_eq_dec : EqDecision PathFragment.
Proof. solve_decision. Defined.

(** Modelled from the spec: [Path.IsEqual], which is not part of the
    sources.  A Path is "a sequence of PathFragment" and "a pure lookup
    key": two paths are equal when they have the same fragments. *)
Definition Path_IsEqual (p q : Path) : bool := bool_decide (p = q).

(** Modelled from the spec: the declarations of [FieldConstraint],
    [TableInfo], [IndexInfo], [SequenceInfo] and [Sequence], which are not
    part of the sources; the fields are those the spec lists and the
    catalog reads. *)
Record FieldConstraint : Type := mkFieldConstraint {
  FC_Path : Path;
  FC_Type : types.ValueType;
  IsPrimaryKey : bool;
  IsNotNull : bool
}.

Record TableInfo : Type := mkTableInfo {
  TI_TableName : string;
  TI_StoreName : list Byte.byte;
  ReadOnly : bool;
  FieldConstraints : list FieldConstraint
}.

Record IndexInfo : Type := mkIndexInfo {
  TableName : string;
  IndexName : string;
  Paths : list Path;
  Unique : bool;
  Types : list types.ValueType;
  StoreName : list Byte.byte;
  ConstraintPath : option Path
}.

Record SequenceInfo : Type := mkSequenceInfo {
  Name : string
}.

Record Sequence : Type := mkSequence {
  Info : SequenceInfo;
  CurrentValue : option Z
}.

(** [type catalogCache struct]; the lock is not modelled. *)
Record catalogCache : Type := mkCatalogCache {
  tables : gmap string TableInfo;
  indexes : gmap string IndexInfo;
  indexesPerTables : gmap string (list IndexInfo);
  sequences : gmap string Sequence
}.

Definition newCatalogCache : catalogCache := mkCatalogCache ∅ ∅ ∅ ∅.

(** A rollback hook is a closure over the cache: a function of the cache
    it runs on. *)
Definition Hook : Type := catalogCache -> catalogCache.

(** [type Transaction struct]: the part the cache uses. *)
Record Transaction : Type := mkTransaction {
  OnRollbackHooks : list Hook
}.

Definition append_hook (tx : Transaction) (h : Hook) : Transaction :=
  mkTransaction (OnRollbackHooks tx ++ [h]).

(** Modelled from the spec: [Transaction.Rollback], which is not part of
    the sources.  "On abort, hooks run in reverse order": the hook
    appended last runs first. *)
Definition Rollback (tx : Transaction) (c : catalogCache) : catalogCache :=
  fold_left (fun c h => h c) (rev (OnRollbackHooks tx)) c.

Definition set_tables (c : catalogCache) (m : gmap string TableInfo) :=
  mkCatalogCache m (indexes c) (indexesPerTables c) (sequences c).
Definition set_indexes (c : catalogCache) (m : gmap string IndexInfo) :=
  mkCatalogCache (tables c) m (indexesPerTables c) (sequences c).
Definition set_indexesPerTables (c : catalogCache) (m : gmap string (list IndexInfo)) :=
  mkCatalogCache (tables c) (indexes c) m (sequences c).
Definition set_sequences (c : catalogCache) (m : gmap string Sequence) :=
  mkCatalogCache (tables c) (indexes c) (indexesPerTables c) m.

(** [m[k]] for a map of slices: the nil slice when [k] is absent. *)
Definition lookup_list {A} (m : gmap string (list A)) (k : string) : list A :=
  default [] (m !! k).

(** [catalogCache.AddTable] *)
Definition AddTable (c : catalogCache) (tx : Transaction) (info : TableInfo)
  : res (catalogCache * Transaction) :=
  if bool_decide (is_Some (tables c !! TI_TableName info)) then
    Err (AlreadyExistsError (TI_TableName info))
  else if bool_decide (is_Some (indexes c !! TI_TableName info)) then
    Err (AlreadyExistsError (TI_TableName info))
  else if bool_decide (is_Some (sequences c !! TI_TableName info)) then
    Err (AlreadyExistsError (TI_TableName info))
  else
    let c := set_tables c (<[TI_TableName info := info]> (tables c)) in
    let hook : Hook := fun c =>
      set_tables c (delete (TI_TableName info) (tables c)) in
    Ok (c, append_hook tx hook).

(** The loop [for _, idx := range c.indexes] of [DeleteTable].  Go leaves
    the order in which a map is ranged over unspecified; the model ranges
    in the order of [map_to_list]. *)
Definition indexes_of_table (m : gmap string IndexInfo) (tableName : string)
  : list IndexInfo :=
  filter (fun idx => TableName idx = tableName) (snd <$> map_to_list m).

(** [catalogCache.DeleteTable] *)
Definition DeleteTable (c : catalogCache) (tx : Transaction) (tableName : string)
  : res (TableInfo * list IndexInfo * catalogCache * Transaction) :=
  match tables c !! tableName with
  | None => Err ErrTableNotFound
  | Some ti =>
      if ReadOnly ti then Err (errorString "cannot write to read-only table")
      else
        let c := set_tables c (delete tableName (tables c)) in
        let c := set_indexesPerTables c (delete tableName (indexesPerTables c)) in
        let removedIndexes := indexes_of_table (indexes c) tableName in
        let hook : Hook := fun c =>
          let c := set_tables c (<[tableName := ti]> (tables c)) in
          let c := set_indexes c
            (fold_left (fun m idx => <[IndexName idx := idx]> m)
                       removedIndexes (indexes c)) in
          if 0 <? Z.of_nat (length removedIndexes) then
            set_indexesPerTables c
              (<[tableName := removedIndexes]> (indexesPerTables c))
          else c in
        Ok (ti, removedIndexes, c, append_hook tx hook)
  end.

(** [catalogCache.GetTable] *)
Definition GetTable (c : catalogCache) (tableName : string) : res TableInfo :=
  match tables c !! tableName with
  | None => Err ErrTableNotFound
  | Some ti => Ok ti
  end.

(** The loop labelled [OUTER] of [AddIndex], for one path: the inner loop
    over the field constraints, then the statement that follows it. *)
Fixpoint AddIndex_types_of_path (fcs : list FieldConstraint) (path : Path)
    (types_ : list types.ValueType) : list types.ValueType :=
  match fcs with
  | [] => types_ ++ [0]
  | fc :: fcs' =>
      if Path_IsEqual (FC_Path fc) path then
        if negb (FC_Type fc =? 0) then types_ ++ [FC_Type fc]
        else types_
      else AddIndex_types_of_path fcs' path types_
  end.

Definition AddIndex_types (ti : TableInfo) (paths : list Path)
  : list types.ValueType :=
  fold_left (fun types_ path =>
               AddIndex_types_of_path (FieldConstraints ti) path types_)
            paths [].

Section IndexNames.

(** [Path.String] is declared in a file that is not part of the sources. *)
Variable Path_String : Path -> string.

(** [pathsToIndexName]: the paths joined by an underscore. *)
Fixpoint pathsToIndexName_from (i : nat) (paths : list Path) : string :=
  match paths with
  | [] => ""
  | p :: paths' =>
      ((if (0 <? i)%nat then "_" else "") ++ Path_String p
       ++ pathsToIndexName_from (S i) paths')%string
  end.

Definition pathsToIndexName (paths : list Path) : string :=
  pathsToIndexName_from 0 paths.

(** The loop that looks for a free generated name, from counter [i]; the
    fuel bounds the number of turns. *)
Fixpoint free_index_name (fuel : nat) (m : gmap string IndexInfo)
    (info : IndexInfo) (i : nat) : option string :=
  match fuel with
  | O => None
  | S fuel' =>
      let name := (TableName info ++ "_" ++ pathsToIndexName (Paths info)
                   ++ "_idx" ++ pretty i)%string in
      if bool_decide (is_Some (m !! name)) then
        free_index_name fuel' m info (S i)
      else Some name
  end.

Definition set_IndexName (info : IndexInfo) (name : string) : IndexInfo :=
  mkIndexInfo (TableName info) name (Paths info) (Unique info) (Types info)
              (StoreName info) (ConstraintPath info).
Definition set_Types (info : IndexInfo) (t : list types.ValueType) : IndexInfo :=
  mkIndexInfo (TableName info) (IndexName info) (Paths info) (Unique info) t
              (StoreName info) (ConstraintPath info).
Definition set_TableName (info : IndexInfo) (name : string) : IndexInfo :=
  mkIndexInfo name (IndexName info) (Paths info) (Unique info) (Types info)
              (StoreName info) (ConstraintPath info).

(** The generated name of [AddIndex]; among [size m + 1] candidate
    counters one is free, so [None] is not returned when the generated
    names differ from each other. *)
Definition generated_index_name (m : gmap string IndexInfo) (info : IndexInfo)
  : option string :=
  let name := (TableName info ++ "_" ++ pathsToIndexName (Paths info)
               ++ "_idx")%string in
  if bool_decide (is_Some (m !! name)) then
    free_index_name (S (size m)) m info 1
  else Some name.

(** [catalogCache.AddIndex]; [info] is updated in place, the result
    carries it. *)
Definition AddIndex (c : catalogCache) (tx : Transaction) (info : IndexInfo)
  : res (IndexInfo * catalogCache * Transaction) :=
  info <-
    (if String.eqb (IndexName info) "" then
       match generated_index_name (indexes c) info with
       | Some name => Ok (set_IndexName info name)
       | None => Panic "no free index name"
       end
     else Ok info) ;;
  if bool_decide (is_Some (indexes c !! IndexName info)) then
    Err (AlreadyExistsError (IndexName info))
  else if bool_decide (is_Some (tables c !! IndexName info)) then
    Err (AlreadyExistsError (IndexName info))
  else if bool_decide (is_Some (sequences c !! IndexName info)) then
    Err (AlreadyExistsError (IndexName info))
  else
    match tables c !! TableName info with
    | None => Err ErrTableNotFound
    | Some ti =>
        let info := set_Types info (AddIndex_types ti (Paths info)) in
        let c := set_indexes c (<[IndexName info := info]> (indexes c)) in
        let previousIndexes := lookup_list (indexesPerTables c) (TableName info) in
        let c := set_indexesPerTables c
          (<[TableName info :=
               lookup_list (indexesPerTables c) (TableName info) ++ [info]]>
             (indexesPerTables c)) in
        let hook : Hook := fun c =>
          let c := set_indexes c (delete (IndexName info) (indexes c)) in
          if Z.of_nat (length previousIndexes) =? 0 then
            set_indexesPerTables c (delete (TableName info) (indexesPerTables c))
          else
            set_indexesPerTables c
              (<[TableName info := previousIndexes]> (indexesPerTables c)) in
        Ok (info, c, append_hook tx hook)
    end.

End IndexNames.

(** [catalogCache.DeleteIndex] *)
Definition DeleteIndex (c : catalogCache) (tx : Transaction) (indexName : string)
  : res (IndexInfo * catalogCache * Transaction) :=
  match indexes c !! indexName with
  | None => Err ErrIndexNotFound
  | Some info =>
      if bool_decide (is_Some (ConstraintPath info)) then
        Err (errorString "cannot drop index because a constraint requires it")
      else
        let c := set_indexes c (delete indexName (indexes c)) in
        let newIndexlist :=
          filter (fun idx => IndexName idx <> indexName)
                 (lookup_list (indexesPerTables c) (TableName info)) in
        let oldIndexList := lookup_list (indexesPerTables c) (TableName info) in
        let c := set_indexesPerTables c
          (<[TableName info := newIndexlist]> (indexesPerTables c)) in
        let hook : Hook := fun c =>
          let c := set_indexes c (<[indexName := info]> (indexes c)) in
          set_indexesPerTables c
            (<[TableName info := oldIndexList]> (indexesPerTables c)) in
        Ok (info, c, append_hook tx hook)
  end.

Definition set_TI_TableName (ti : TableInfo) (name : string) : TableInfo :=
  mkTableInfo name (TI_StoreName ti) (ReadOnly ti) (FieldConstraints ti).

(** [catalogCache.updateTable]; [fn] updates the clone of the table info
    or fails. *)
Definition updateTable (c : catalogCache) (tx : Transaction) (tableName : string)
    (fn : TableInfo -> res TableInfo)
  : res (TableInfo * list IndexInfo * catalogCache * Transaction) :=
  match tables c !! tableName with
  | None => Err ErrTableNotFound
  | Some ti =>
      if ReadOnly ti then Err (errorString "cannot write to read-only table")
      else
        clone <- fn ti ;;
        let renamed := bool_decide (TI_TableName clone <> tableName) in
        let oldIndexes :=
          if renamed then lookup_list (indexesPerTables c) tableName else [] in
        let newIndexes :=
          (fun idx => set_TableName idx (TI_TableName clone)) <$> oldIndexes in
        let c :=
          if renamed then
            let c := set_tables c (delete tableName (tables c)) in
            let c := set_indexes c
              (fold_left (fun m idxClone => <[IndexName idxClone := idxClone]> m)
                         newIndexes (indexes c)) in
            if 0 <? Z.of_nat (length newIndexes) then
              let c := set_indexesPerTables c
                (<[TI_TableName clone := newIndexes]> (indexesPerTables c)) in
              set_indexesPerTables c (delete tableName (indexesPerTables c))
            else c
          else c in
        let c := set_tables c (<[TI_TableName clone := clone]> (tables c)) in
        let hook : Hook := fun c =>
          let c := set_tables c (delete (TI_TableName clone) (tables c)) in
          let c := set_tables c (<[tableName := ti]> (tables c)) in
          let c := set_indexes c
            (fold_left (fun m idx => <[IndexName idx := idx]> m)
                       oldIndexes (indexes c)) in
          if renamed then
            let c := set_indexesPerTables c
              (delete (TI_TableName clone) (indexesPerTables c)) in
            set_indexesPerTables c
              (<[tableName := oldIndexes]> (indexesPerTables c))
          else c in
        Ok (clone, newIndexes, c, append_hook tx hook)
  end.

(** [catalogCache.AddSequence] *)
Definition AddSequence (c : catalogCache) (tx : Transaction) (info : SequenceInfo)
  : res (catalogCache * Transaction) :=
  if bool_decide (is_Some (sequences c !! Name info)) then
    Err (AlreadyExistsError (Name info))
  else if bool_decide (is_Some (tables c !! Name info)) then
    Err (AlreadyExistsError (Name info))
  else if bool_decide (is_Some (indexes c !! Name info)) then
    Err (AlreadyExistsError (Name info))
  else
    let c := set_sequences c (<[Name info := mkSequence info None]> (sequences c)) in
    let hook : Hook := fun c =>
      set_sequences c (delete (Name info) (sequences c)) in
    Ok (c, append_hook tx hook).

(** [catalogCache.DeleteSequence] *)
Definition DeleteSequence (c : catalogCache) (tx : Transaction) (name : string)
  : res (Sequence * catalogCache * Transaction) :=
  match sequences c !! name with
  | None => Err ErrSequenceNotFound
  | Some seq =>
      let c := set_sequences c (delete name (sequences c)) in
      let hook : Hook := fun c =>
        set_sequences c (<[name := seq]> (sequences c)) in
      Ok (seq, c, append_hook tx hook)
  end.

(** [catalogCache.GetIndex] *)
Definition GetIndex (c : catalogCache) (indexName : string) : res IndexInfo :=
  match indexes c !! indexName with
  | None => Err ErrIndexNotFound
  | Some info => Ok info
  end.

(** [catalogCache.GetTableIndexes] *)
Definition GetTableIndexes (c : catalogCache) (tableName : string)
  : list IndexInfo :=
  lookup_list (indexesPerTables c) tableName.

(** [catalogCache.GetSequence] *)
Definition GetSequence (c : catalogCache) (name : string) : res Sequence :=
  match sequences c !! name with
  | None => Err ErrSequenceNotFound
  | Some seq => Ok seq
  end.

(** [catalogCache.load] *)
Definition load (c : catalogCache) (tables_ : list TableInfo)
    (indexes_ : list IndexInfo) (sequences_ : list Sequence) : catalogCache :=
  let c :=
    fold_left (fun c ti => set_tables c (<[TI_TableName ti := ti]> (tables c)))
              tables_ c in
  let c :=
    fold_left
      (fun c idx =>
         let c := set_indexes c (<[IndexName idx := idx]> (indexes c)) in
         set_indexesPerTables c
           (<[TableName idx :=
                lookup_list (indexesPerTables c) (TableName idx) ++ [idx]]>
              (indexesPerTables c)))
      indexes_ c in
  fold_left
    (fun c seq => set_sequences c (<[Name (Info seq) := seq]> (sequences c)))
    sequences_ c.

(** The names of the catalog table. *)
Definition internalPrefix : string := "__genji_".
Definition CatalogTableName : string := (internalPrefix ++ "catalog")%string.

(** [NewCatalogTable]: the info of the catalog table. *)
Definition NewCatalogTable_info : TableInfo :=
  mkTableInfo CatalogTableName (list_byte_of_string CatalogTableName) false
    [mkFieldConstraint [FieldName "name"] types.TextValue true false;
     mkFieldConstraint [FieldName "type"] types.TextValue false false;
     mkFieldConstraint [FieldName "table_name"] types.TextValue false false;
     mkFieldConstraint [FieldName "sql"] types.TextValue false false;
     mkFieldConstraint [FieldName "store_name"] types.BlobValue false false].

(** [type Catalog struct]: the cache and the infos of the catalog table
    and of the sequence table. *)
Record Catalog : Type := mkCatalog {
  cache : catalogCache;
  SchemaTable_info : TableInfo;
  SequenceTable_info : TableInfo
}.

Definition set_ReadOnly (ti : TableInfo) (b : bool) : TableInfo :=
  mkTableInfo (TI_TableName ti) (TI_StoreName ti) b (FieldConstraints ti).

(** [Catalog.Load] *)
Definition Catalog_Load (c : Catalog) (tables_ : list TableInfo)
    (indexes_ : list IndexInfo) (sequences_ : list Sequence) : Catalog :=
  let ti := set_ReadOnly (SchemaTable_info c) true in
  let tables_ := tables_ ++ [ti] in
  let tables_ := tables_ ++ [SequenceTable_info c] in
  mkCatalog (load (cache c) tables_ indexes_ sequences_)
            (SchemaTable_info c) (SequenceTable_info c).

(** [NewCatalog] *)
Definition NewCatalog (schemaTable_info sequenceTable_info : TableInfo)
  : Catalog :=
  mkCatalog newCatalogCache schemaTable_info sequenceTable_info.

End database.

(** ** package query: the UPDATE statement (sql/query/update.go) *)

Module query.
Import go.

(** [updateBufferSize] *)
Definition updateBufferSize : Z := 100.

(** Modelled from the spec: [deleteBufferSize], declared in a file that is
    not part of the sources: "select up to BUFFER=100 rows into a buffer". *)
Definition deleteBufferSize : Z := 100.

Section Update.

(** A stored document; the statement is known by what its SET or UNSET
    clause does to a document and by its WHERE clause. *)
Variable Document : Type.
Variable set_or_unset : Document -> res Document.
Variable whereClause : Document -> bool.

(** Modelled from the spec: [engine.Store] and its iterator, which are not
    part of the sources: an ordered store, here the list of its
    [(key, document)] pairs in ascending key order; [Seek(k)] moves to the
    first pair whose key is not below [k], [Next] to the following one. *)
Definition Store : Type := list (list Byte.byte * Document).

Fixpoint Seek (s : Store) (k : list Byte.byte) : Store :=
  match s with
  | [] => []
  | kv :: s' => if bytes_Compare (fst kv) k <? 0 then Seek s' k else s
  end.

(** Modelled from the spec: [Table.Replace], which is not part of the
    sources: "replace(key, doc)" stores [d] under [key], which must be
    there. *)
Fixpoint Replace (s : Store) (key : list Byte.byte) (d : Document) : res Store :=
  match s with
  | [] => Err (errorString "document not found")
  | (k, d0) :: s' =>
      if bytes_Compare k key =? 0 then Ok ((key, d) :: s')
      else s'' <- Replace s' key d ;; Ok ((k, d0) :: s'')
  end.

(** [type resumableIterator struct { store engine.Store; curKey []byte }] *)
Record resumableIterator : Type := mkResumableIterator {
  store : Store;
  curKey : list Byte.byte
}.

(** The buffers [keys] and [docs] of [Run], filled up to index [i]. *)
Record buffers : Type := mkBuffers {
  keys : list (list Byte.byte);
  docs : list Document
}.

(** The function that [Run] passes to [st.Iterate]: it fills slot [i] of
    the buffers with the key and the updated document. *)
Definition Run_fn (b : buffers) (key : list Byte.byte) (d : Document)
  : res buffers :=
  d' <- set_or_unset d ;;
  Ok (mkBuffers (keys b ++ [key]) (docs b ++ [d'])).

(** [resumableIterator.Iterate] under the stream of [Run],
    [NewStream(&rit).Filter(whereClause).Limit(updateBufferSize)]: the
    pairs from [Seek(curKey)] on are visited in order; one that passes the
    filter is handed to the function while fewer than [updateBufferSize]
    were, and the first one after that closes the stream.  The result is
    the buffers and the error of [st.Iterate]. *)
Fixpoint st_Iterate_from (items : Store) (b : buffers)
  : res (buffers * option error) :=
  match items with
  | [] => Ok (b, None)
  | (k, d) :: items' =>
      if whereClause d then
        if Z.of_nat (length (keys b)) <? updateBufferSize then
          match Run_fn b k d with
          | Ok b' => st_Iterate_from items' b'
          | Err e => Ok (b, Some e)
          | Panic m => Panic m
          end
        else Ok (b, None)
      else st_Iterate_from items' b
  end.

Definition st_Iterate (rit : resumableIterator) : res (buffers * option error) :=
  st_Iterate_from (Seek (store rit) (curKey rit)) (mkBuffers [] []).

(** The loop [for j := 0; j < i; j++] of [Run]: the store after the
    replacements and the keys replaced, in order. *)
Fixpoint Run_replace (s : Store) (ks : list (list Byte.byte)) (ds : list Document)
    (log : list (list Byte.byte)) : res (Store * list (list Byte.byte)) :=
  match ks, ds with
  | k :: ks', d :: ds' =>
      s' <- Replace s k d ;;
      Run_replace s' ks' ds' (log ++ [k])
  | _, _ => Ok (s, log)
  end.

(** The outer loop of [UpdateStmt.Run]; the fuel bounds its turns, and
    [None] means it ran out.  The result is the store after the statement,
    the keys replaced in order, and the error returned. *)
Fixpoint Run_loop (fuel : nat) (rit : resumableIterator)
    (log : list (list Byte.byte))
  : option (res (Store * list (list Byte.byte) * option error)) :=
  match fuel with
  | O => None
  | S fuel' =>
      match st_Iterate rit with
      | Err e => Some (Err e)
      | Panic m => Some (Panic m)
      | Ok (b, err) =>
          let i := Z.of_nat (length (keys b)) in
          match Run_replace (store rit) (keys b) (docs b) log with
          | Err e => Some (Err e)
          | Panic m => Some (Panic m)
          | Ok (s, log') =>
              let err := if 0 <? i then None else err in
              if i <? deleteBufferSize then Some (Ok (s, log', err))
              else
                Run_loop fuel'
                  (mkResumableIterator s (List.last (keys b) [])) log'
          end
      end
  end.

Definition Run (fuel : nat) (s : Store)
  : option (res (Store * list (list Byte.byte) * option error)) :=
  Run_loop fuel (mkResumableIterator s []) [].

End Update.

End query.

(** * Specification vocabulary

    The notions in which the properties below are stated. *)

Module spec.
Import go document functions stream database.

(** The number of rows on which [e] evaluates to a value other than the
    Null literal. *)
Definition non_null_rows (e : Expr) (rows : list Environment) : nat :=
  length (filter (fun env => is_NullLiteral (fst (e env)) = false) rows).

(** No row makes the evaluation fail, a missing field apart. *)
Definition evaluates (e : Expr) (rows : list Environment) : Prop :=
  Forall (fun env => snd (e env) = None \/ snd (e env) = Some ErrFieldNotFound)
         rows.

(** The cost the planner gives one index range. *)
Definition IndexRange_cost {VB} (Len : VB -> Z) (rng : IndexRange VB) : Z :=
  if IExact VB rng then 1
  else if (0 <? Len (IMin VB rng)) && (0 <? Len (IMax VB rng)) then 50
  else if (0 <? Len (IMin VB rng)) || (0 <? Len (IMax VB rng)) then 100
  else 200.

(** The lexicographic order of byte strings. *)
Inductive bytes_lt : list Byte.byte -> list Byte.byte -> Prop :=
| bytes_lt_nil y ys : bytes_lt [] (y :: ys)
| bytes_lt_head x y xs ys :
    (Byte.to_N x < Byte.to_N y)%N -> bytes_lt (x :: xs) (y :: ys)
| bytes_lt_tail x xs ys : bytes_lt xs ys -> bytes_lt (x :: xs) (x :: ys).

Definition bytes_le (a b : list Byte.byte) : Prop := a = b \/ bytes_lt a b.

(** [v] is not below the lower bound [m], when there is one; not equal to
    it either when the range is exclusive. *)
Definition above_min (m : option (list Byte.byte)) (exclusive : bool)
    (v : list Byte.byte) : Prop :=
  match m with
  | None => True
  | Some m => if exclusive then bytes_lt m v else bytes_le m v
  end.

(** [v] is not above the upper bound [m], when there is one; not equal to
    it either when the range is exclusive. *)
Definition below_max (m : option (list Byte.byte)) (exclusive : bool)
    (v : list Byte.byte) : Prop :=
  match m with
  | None => True
  | Some m => if exclusive then bytes_lt v m else bytes_le v m
  end.

(** No range of [r] has more types than [rng]: every comparison of
    [Append r rng] is within the bounds of [rng.rangeTypes]. *)
Definition comparable (ValueBuffer : Type) (r : IndexRanges ValueBuffer)
    (rng : IndexRange ValueBuffer) : Prop :=
  Forall (fun e => (length (rangeTypes ValueBuffer e)
                    <= length (rangeTypes ValueBuffer rng))%nat) r.

(** The type that the field constraints declare for a path: that of the
    first constraint on the path, 0 when there is none. *)
Definition declared_type (fcs : list FieldConstraint) (path : Path)
  : types.ValueType :=
  match List.find (fun fc => Path_IsEqual (FC_Path fc) path) fcs with
  | Some fc => FC_Type fc
  | None => 0
  end.

(** Every constraint met first on a path of [paths] declares a type. *)
Definition constraints_typed (fcs : list FieldConstraint) (paths : list Path)
  : Prop :=
  Forall (fun path =>
            forall fc,
              List.find (fun fc => Path_IsEqual (FC_Path fc) path) fcs = Some fc ->
              FC_Type fc <> 0)
         paths.

(** A mutation of the catalog cache that a statement makes: the creation
    of a table, the update of a table info, the creation and the deletion
    of a sequence. *)
Inductive mutation : Type :=
| MAddTable (info : TableInfo)
| MUpdateTable (tableName : string) (fn : TableInfo -> res TableInfo)
| MAddSequence (info : SequenceInfo)
| MDeleteSequence (name : string).

Definition apply_mutation (m : mutation) (c : catalogCache) (tx : Transaction)
  : res (catalogCache * Transaction) :=
  match m with
  | MAddTable info => AddTable c tx info
  | MUpdateTable tableName fn =>
      r <- updateTable c tx tableName fn ;;
      let '(_, _, c', tx') := r in Ok (c', tx')
  | MAddSequence info => AddSequence c tx info
  | MDeleteSequence name =>
      r <- DeleteSequence c tx name ;;
      let '(_, c', tx') := r in Ok (c', tx')
  end.

(** A transaction makes its mutations in order and stops at the first one
    that fails; the result is the cache and the transaction at that
    point. *)
Fixpoint run_mutations (ms : list mutation) (c : catalogCache) (tx : Transaction)
  : catalogCache * Transaction :=
  match ms with
  | [] => (c, tx)
  | m :: ms' =>
      match apply_mutation m c tx with
      | Ok (c', tx') => run_mutations ms' c' tx'
      | _ => (c, tx)
      end
  end.

(** An update of a table info that leaves the name of the table as it is,
    as adding a field constraint does. *)
Definition keeps_name (m : mutation) : Prop :=
  match m with
  | MUpdateTable tableName fn =>
      forall ti clone, fn ti = Ok clone -> TI_TableName clone = TI_TableName ti
  | _ => True
  end.

(** Every table info of the cache is stored under its own name. *)
Definition table_names_ok (c : catalogCache) : Prop :=
  forall n ti, tables c !! n = Some ti -> TI_TableName ti = n.

(** A value whose content has the Go type that its type tag announces:
    the values that the constructors of the package build. *)
Definition well_typed (v : Value) : Prop :=
  match V v with
  | inil => Type_ v = types.NullValue
  | ibool _ => Type_ v = types.BoolValue
  | iint64 _ => Type_ v = types.IntegerValue
  | ifloat64 _ => Type_ v = types.DoubleValue
  | ibytes _ => Type_ v = types.BlobValue
  | istring _ => Type_ v = types.TextValue
  | iArray _ => Type_ v = types.ArrayValue
  | iDocument _ => Type_ v = types.DocumentValue
  end.

(** The operators that [Add], [Sub], [Mul], [Div], [Mod], [BitwiseAnd],
    [BitwiseOr] and [BitwiseXor] pass to [calculateValues]. *)
Definition arithmetic_operators : list ascii :=
  ["+"; "-"; "*"; "/"; "%"; "&"; "|"; "^"]%char.

(** The type of a result of the arithmetic: Null, Integer or Double. *)
Definition arithmetic_type (r : Value) : Prop :=
  Type_ r = types.NullValue \/ Type_ r = types.IntegerValue
  \/ Type_ r = types.DoubleValue.

(** The casts between two different types that [CastAs] attempts: to
    Bool from Integer and Text; to Integer from Bool, Double and Text; to
    Double from Integer and Text; to Text from every type; to Blob, Array
    and Document from Text. *)
Definition cast_attempted (from to : types.ValueType) : bool :=
  if to =? types.BoolValue then
    (from =? types.IntegerValue) || (from =? types.TextValue)
  else if to =? types.IntegerValue then
    (from =? types.BoolValue) || (from =? types.DoubleValue)
    || (from =? types.TextValue)
  else if to =? types.DoubleValue then
    (from =? types.IntegerValue) || (from =? types.TextValue)
  else if to =? types.TextValue then true
  else if (to =? types.BlobValue) || (to =? types.ArrayValue)
          || (to =? types.DocumentValue) then
    from =? types.TextValue
  else false.

(** A name is used in the cache: by a table, an index or a sequence. *)
Definition name_used (c : catalogCache) (n : string) : Prop :=
  is_Some (tables c !! n) \/ is_Some (indexes c !! n)
  \/ is_Some (sequences c !! n).

(** No name is used by two objects of different kinds. *)
Definition names_unique (c : catalogCache) : Prop :=
  forall n,
    (is_Some (tables c !! n) ->
     indexes c !! n = None /\ sequences c !! n = None)
    /\ (is_Some (indexes c !! n) -> sequences c !! n = None).

(** The names that [AddIndex] tries for an index without a name: the
    table, the paths and [_idx], then the same followed by 1, 2, ... *)
Definition index_name_base (Path_String : Path -> string) (info : IndexInfo)
  : string :=
  (TableName info ++ "_" ++ pathsToIndexName Path_String (Paths info)
   ++ "_idx")%string.

Definition index_name_candidate (Path_String : Path -> string)
    (info : IndexInfo) (i : nat) : string :=
  (TableName info ++ "_" ++ pathsToIndexName Path_String (Paths info)
   ++ "_idx" ++ pretty i)%string.

(** The last element of a list that is stored under the name [n]. *)
Definition last_named {A} (key : A -> string) (n : string) (l : list A)
  : option A :=
  last (filter (fun x => key x = n) l).

(** The rows of a table that pass the WHERE clause, in the order of the
    table. *)
Definition matching_rows {D} (whereClause : D -> bool)
    (s : list (list Byte.byte * D)) : list (list Byte.byte * D) :=
  filter (fun kv => whereClause (snd kv) = true) s.

(** [s'] is the table [s] after the update of each of its rows that passes
    the WHERE clause: the keys are those of [s], in the same order; the
    document of a row that passes is the result of the SET or UNSET clause
    on the document it had, and the other documents are as they were. *)
Definition updated_rows {D} (set_or_unset : D -> res D)
    (whereClause : D -> bool) (s s' : list (list Byte.byte * D)) : Prop :=
  Forall2 (fun kv kv' =>
             fst kv' = fst kv
             /\ if whereClause (snd kv)
                then set_or_unset (snd kv) = Ok (snd kv')
                else snd kv' = snd kv)
          s s'.

(** The SET or UNSET clause succeeds on every row that passes the WHERE
    clause. *)
Definition clause_succeeds {D} (set_or_unset : D -> res D)
    (whereClause : D -> bool) (s : list (list Byte.byte * D)) : Prop :=
  Forall (fun kv => whereClause (snd kv) = true ->
                    exists d', set_or_unset (snd kv) = Ok d') s.

(** The environments in which an iterator over [docs] calls its
    function, and the values that [e] has on them. *)
Definition document_rows (docs : list (list (string * Value)))
  : list Environment :=
  (fun d => mkEnvironment (Some d)) <$> docs.

Definition row_values (e : Expr) (docs : list (list (string * Value)))
  : list Value :=
  (fun d => fst (e (mkEnvironment (Some d)))) <$> docs.

(** The Integers and Doubles among values, in order. *)
Definition numbers (vals : list Value) : list Value :=
  filter (fun v => types.IsNumber (Type_ v) = true) vals.

(** The values other than the Null literal, in order. *)
Definition non_null (vals : list Value) : list Value :=
  filter (fun v => is_NullLiteral v = false) vals.

(** The exact sum of integers. *)
Definition Zsum (l : list Z) : Z := foldr Z.add 0 l.

(** A number as a float64. *)
Definition as_float (v : Value) : float :=
  match V v with
  | iint64 x => float64_of_int64 x
  | ifloat64 f => f
  | _ => 0%float
  end.

(** The float64 sum of numbers, added to [start] from left to right. *)
Definition float_sum (start : float) (vals : list Value) : float :=
  fold_left (fun acc v => (acc + as_float v)%float) vals start.

(** The class in which MIN and MAX compare values by content: Integer and
    Double are one class, every other type is a class of its own. *)
Definition type_class (t : types.ValueType) : types.ValueType :=
  if types.IsNumber t then types.IntegerValue else t.

(** What MIN and MAX need of a comparison [lt a b] (for MIN, [a] is greater
    than [b]; for MAX, [a] is lesser than [b]) on values of one class: it
    returns no error, it does not hold both ways, and its negation is
    transitive. *)
Definition strict_order_on_classes
    (lt : Value -> Value -> bool * option error) : Prop :=
  (forall a b, snd (lt a b) = None)
  /\ (forall a b,
        type_class (Type_ a) = type_class (Type_ b) ->
        fst (lt a b) = true -> fst (lt b a) = false)
  /\ (forall a b c,
        type_class (Type_ a) = type_class (Type_ b) ->
        type_class (Type_ b) = type_class (Type_ c) ->
        fst (lt a b) = false -> fst (lt b c) = false -> fst (lt a c) = false).

(** [m] is an extremum of the values [seen]: it is one of them; its class
    is [below] the class of every one of them; and among those of its
    class, the comparison [lt m w], which would make the aggregator prefer
    [w], holds of none. *)
Definition extremum (lt : Value -> Value -> bool * option error)
    (below : Z -> Z -> Prop) (m : Value) (seen : list Value) : Prop :=
  m ∈ seen
  /\ forall w, w ∈ seen ->
       below (type_class (Type_ m)) (type_class (Type_ w))
       /\ (type_class (Type_ w) = type_class (Type_ m) ->
           fst (lt m w) = false).

(** A value range whose two boundaries have the type of the range, and
    which is not both exclusive and exact. *)
Definition typed_range (r : ValueRange) : Prop :=
  Type_ (Min r) = rangeType r /\ Type_ (Max r) = rangeType r
  /\ Exclusive r && Exact r = false.

(** [r'] keeps the contents of the boundaries and the flags of [r], and
    holds the encoding of each boundary of [r] that has a type. *)
Definition encoded_from
    (EncodeValue : Value -> option (list Byte.byte) * option error)
    (r r' : ValueRange) : Prop :=
  V (Min r') = V (Min r) /\ V (Max r') = V (Max r)
  /\ Exclusive r' = Exclusive r /\ Exact r' = Exact r
  /\ encodedMin r'
     = (if types.IsZero (Type_ (Min r)) then encodedMin r
        else fst (EncodeValue (Min r)))
  /\ encodedMax r'
     = (if types.IsZero (Type_ (Max r)) then encodedMax r
        else fst (EncodeValue (Max r))).

(** The two boundaries of [r] have types, and the types differ. *)
Definition boundaries_differ (r : ValueRange) : Prop :=
  Type_ (Min r) <> 0 /\ Type_ (Max r) <> 0 /\ Type_ (Min r) <> Type_ (Max r).

End spec.

(** * Concrete inputs

    The inputs at which the model is run in the examples below. *)

Module inputs.
Import go document.

(** Concrete stand-ins for the parameters, used to run the model. *)
Definition trunc0 (f : float) : Z := 0.
Definition mod0 (x y : float) : float := x.
Definition parse_int0 (s : string) : option Z := None.
Definition parse_float0 (s : string) : option float := None.

Definition const_expr (v : Value) : expr.Expr unit := fun _ => (v, None).

(** Both operands are evaluated, left first; the first error is returned. *)
Definition eval0 (op : expr.simpleOperator unit) (ctx : unit)
  : Value * Value * option error :=
  let '(va, ea) := expr.a unit op ctx in
  let '(vb, eb) := expr.b unit op ctx in
  match ea with
  | Some e => (va, vb, Some e)
  | None => (va, vb, eb)
  end.

Definition cmp0 (l r : Value) : bool * option error := (false, None).

(** Three rows of a table: the second has no field [x], the third has a
    Null one. *)
Definition count_rows : list functions.Environment :=
  [functions.mkEnvironment (Some [("x", NewIntegerValue 7)]);
   functions.mkEnvironment (Some [("y", NewIntegerValue 1)]);
   functions.mkEnvironment (Some [("x", NewNullValue)])].

(** Stand-ins for [Value.IsEqual] and for the methods of [ValueBuffer]:
    integers and unset values are compared, buffers are lists of values
    compared element by element. *)
Definition value_IsEqual0 (a b : Value) : bool * option error :=
  match V a, V b with
  | iint64 x, iint64 y => (x =? y, None)
  | inil, inil => (true, None)
  | _, _ => (false, None)
  end.

Definition vb_Len (vb : list Value) : Z := Z.of_nat (length vb).

Fixpoint vb_IsEqual0 (a b : list Value) : bool :=
  match a, b with
  | [], [] => true
  | x :: a', y :: b' => fst (value_IsEqual0 x y) && vb_IsEqual0 a' b'
  | _, _ => false
  end.

(** Value ranges: [x = 3], [1 <= x <= 5], [x >= 1], and no bound. *)
Definition vr_exact : stream.ValueRange :=
  stream.mkValueRange (NewIntegerValue 3) stream.zeroValue false true
    None None 0.
Definition vr_two_sided : stream.ValueRange :=
  stream.mkValueRange (NewIntegerValue 1) (NewIntegerValue 5) false false
    None None 0.
Definition vr_one_sided : stream.ValueRange :=
  stream.mkValueRange (NewIntegerValue 1) stream.zeroValue false false
    None None 0.
Definition vr_open : stream.ValueRange :=
  stream.mkValueRange stream.zeroValue stream.zeroValue false false
    None None 0.

(** The range [5 <= x <= 9] after its boundaries were encoded as the
    bytes 05 and 09. *)
Definition vr_encoded : stream.ValueRange :=
  stream.mkValueRange (NewIntegerValue 5) (NewIntegerValue 9) false false
    (Some ["005"%byte]) (Some ["009"%byte]) types.IntegerValue.

(** Index ranges over one column: before and after [encode] set the
    types of the range. *)
Definition ir_plain : stream.IndexRange (list Value) :=
  stream.mkIndexRange (list Value) [NewIntegerValue 1] [] false false 0 0
    None None [].
Definition ir_encoded : stream.IndexRange (list Value) :=
  stream.mkIndexRange (list Value) [NewIntegerValue 1] [] false false 0 0
    (Some ["001"%byte]) None [types.IntegerValue].
Definition ir_two_sided : stream.IndexRange (list Value) :=
  stream.mkIndexRange (list Value) [NewIntegerValue 1] [NewIntegerValue 5]
    false false 0 0 (Some ["001"%byte]) (Some ["005"%byte]) [].

(** The index range with the encoded bounds 05 and 09. *)
Definition ir_encoded_5_9 : stream.IndexRange (list Value) :=
  stream.mkIndexRange (list Value) [NewIntegerValue 5] [NewIntegerValue 9]
    false false 0 0 (Some ["005"%byte]) (Some ["009"%byte])
    [types.IntegerValue].

(** A stand-in for [Path.String]: the names of the fields, joined by a
    dot. *)
Fixpoint path_String0 (p : database.Path) : string :=
  match p with
  | [] => ""
  | database.FieldName n :: p' => (n ++ "." ++ path_String0 p')%string
  | database.ArrayIndex i :: p' => (pretty i ++ "." ++ path_String0 p')%string
  end.

Definition path_a : database.Path := [database.FieldName "a"].
Definition path_b : database.Path := [database.FieldName "b"].

(** [CREATE TABLE t (a NOT NULL, b INTEGER)]: the constraint on [a]
    declares no type. *)
Definition ti_t : database.TableInfo :=
  database.mkTableInfo "t" ["001"%byte] false
    [database.mkFieldConstraint path_a 0 false true;
     database.mkFieldConstraint path_b types.IntegerValue false false].

Definition cache_t : database.catalogCache :=
  database.mkCatalogCache {["t" := ti_t]} ∅ ∅ ∅.

(** [CREATE INDEX idx_t_ab ON t (a, b)] *)
Definition idx_t_ab : database.IndexInfo :=
  database.mkIndexInfo "t" "idx_t_ab" [path_a; path_b] false [] [] None.

(** [CREATE TABLE u (a TEXT, b INTEGER)] and
    [CREATE INDEX idx_u_bc ON u (b, c)]. *)
Definition path_c : database.Path := [database.FieldName "c"].

Definition ti_u : database.TableInfo :=
  database.mkTableInfo "u" ["003"%byte] false
    [database.mkFieldConstraint path_a types.TextValue false false;
     database.mkFieldConstraint path_b types.IntegerValue false false].

Definition cache_u : database.catalogCache :=
  database.mkCatalogCache {["u" := ti_u]} ∅ ∅ ∅.

Definition idx_u_bc : database.IndexInfo :=
  database.mkIndexInfo "u" "idx_u_bc" [path_b; path_c] false [] [] None.

Definition tx0 : database.Transaction := database.mkTransaction [].

(** A catalog with the two tables [a] and [b], and the update of
    [ALTER TABLE a RENAME TO b]. *)
Definition ti_a : database.TableInfo :=
  database.mkTableInfo "a" ["001"%byte] false [].
Definition ti_b : database.TableInfo :=
  database.mkTableInfo "b" ["002"%byte] false [].

Definition cache_a_b : database.catalogCache :=
  database.mkCatalogCache (<["b" := ti_b]> {["a" := ti_a]}) ∅ ∅ ∅.

Definition rename_to_b (clone : database.TableInfo) : res database.TableInfo :=
  Ok (database.set_TI_TableName clone "b").

(** A table of [n] rows with the one-byte keys 1 to [n], each holding the
    counter 0, and the statement [UPDATE t SET x = x + 1]. *)
Definition update_key (i : nat) : list Byte.byte :=
  [default "000"%byte (Byte.of_nat i)].

Definition update_rows (n : nat) : query.Store Z :=
  (fun i => (update_key i, 0)) <$> seq 1 n.

Definition increment (d : Z) : res Z := Ok (d + 1).

Definition no_where (d : Z) : bool := true.

(** [ALTER TABLE a ADD FIELD x INTEGER]: the update of the table info
    adds a constraint. *)
Definition add_constraint_x (clone : database.TableInfo)
  : res database.TableInfo :=
  Ok (database.mkTableInfo (database.TI_TableName clone)
        (database.TI_StoreName clone) (database.ReadOnly clone)
        (database.FieldConstraints clone
         ++ [database.mkFieldConstraint [database.FieldName "x"]
               types.IntegerValue false false])).

(** A transaction on the catalog with the tables [a] and [b]: create the
    table [c] and the sequence [s], add a constraint to [a], then create
    the table [b], which exists. *)
Definition failing_transaction : list spec.mutation :=
  [spec.MAddTable (database.mkTableInfo "c" ["004"%byte] false []);
   spec.MAddSequence (database.mkSequenceInfo "s");
   spec.MUpdateTable "a" add_constraint_x;
   spec.MAddTable (database.mkTableInfo "b" ["005"%byte] false [])].

(** Stand-ins for the remaining parameters of the casts: the texts
    [true] and [false] are parsed as booleans, nothing else is parsed or
    decoded, and every encoder prints the empty text. *)
Definition parse_bool0 (s : string) : option bool :=
  if String.eqb s "true" then Some true
  else if String.eqb s "false" then Some false
  else None.
Definition print_int0 (x : Z) : string := "".
Definition print_float0 (f : float) (fmt : ascii) : string := "".
Definition quote0 (s : string) : string := s.
Definition unquote0 (s : string) : option string := Some s.
Definition base64_encode0 (b : list Byte.byte) : string := "".
Definition base64_decode0 (s : string) : option (list Byte.byte) := None.
Definition marshal_array0 (a : list Value) : res string := Ok ""%string.
Definition marshal_document0 (d : list (string * Value)) : res string :=
  Ok ""%string.
Definition unmarshal_array0 (s : string) : option (list Value) := None.
Definition unmarshal_document0 (s : string)
  : option (list (string * Value)) := None.

Definition CastAs0 : Value -> types.ValueType -> res Value :=
  CastAs trunc0 parse_int0 parse_float0 parse_bool0 print_int0 print_float0
    quote0 unquote0 base64_encode0 base64_decode0 marshal_array0
    marshal_document0 unmarshal_array0 unmarshal_document0.

(** The cache with the table [u] and an index on it. *)
Definition idx_u_b : database.IndexInfo :=
  database.mkIndexInfo "u" "idx_u_b" [path_b] false [types.IntegerValue] []
    None.

Definition cache_u_idx : database.catalogCache :=
  database.mkCatalogCache {["u" := ti_u]} {["idx_u_b" := idx_u_b]}
    {["u" := [idx_u_b]]} ∅.

(** The info of a sequence table, and a table that takes the name of the
    catalog table. *)
Definition ti_sequence : database.TableInfo :=
  database.mkTableInfo "__genji_sequence" [] false [].

Definition ti_impostor : database.TableInfo :=
  database.mkTableInfo database.CatalogTableName [] false [].

(** A WHERE clause that keeps the even counters, and a SET clause that
    fails on the counter 4. *)
Definition where_even (d : Z) : bool := Z.even d.

Definition increment_but_4 (d : Z) : res Z :=
  if d =? 4 then Err (errorString "division by zero") else Ok (d + 1).

(** A table of [n] rows whose counters are 1 to [n]. *)
Definition counter_rows (n : nat) : query.Store Z :=
  (fun i => (update_key i, Z.of_nat i)) <$> seq 1 n.

(** Documents with a field [a], and the expression that reads it. *)
Definition doc_a (v : Value) : list (string * Value) := [("a"%string, v)].

Definition field_a : functions.Expr := functions.Path_Eval "a".

(** A comparison of values by their integer content, 0 for the others. *)
Definition int_key (v : Value) : Z :=
  match V v with iint64 x => x | _ => 0 end.

Definition int_gt (a b : Value) : bool * option error :=
  (int_key b <? int_key a, None).

Definition int_lt (a b : Value) : bool * option error :=
  (int_key a <? int_key b, None).

(** An encoder of values: one byte for the type; and the types of a
    buffer of values with its encoder. *)
Definition encode_value0 (v : Value) : option (list Byte.byte) * option error :=
  (Some [default "000"%byte (Byte.of_N (Z.to_N (Type_ v)))], None).

Definition vb_Types0 (vb : list Value) : list types.ValueType :=
  Type_ <$> vb.

Definition encode_buffer0 (vb : list Value)
  : option (list Byte.byte) * option error :=
  (Some ((fun v => default "000"%byte (Byte.of_N (Z.to_N (Type_ v)))) <$> vb),
   None).

(** The range [1 <= x <= "a"], whose boundaries have different types, and
    an index range [1 <= x <= 5] that is not encoded yet. *)
Definition vr_mixed : stream.ValueRange :=
  stream.mkValueRange (NewIntegerValue 1) (NewTextValue "a") false false
    None None 0.

Definition ir_1_5 : stream.IndexRange (list Value) :=
  stream.mkIndexRange (list Value) [NewIntegerValue 1] [NewIntegerValue 5]
    false false 1 1 None None [].

(** A conversion to an array and a search in it by integer content. *)
Definition to_array0 (v : Value) : list Value * option error :=
  match V v with
  | iArray a => (a, None)
  | _ => ([], Some (errorString "not an array"))
  end.

Definition contains0 (arr : list Value) (v : Value) : bool * option error :=
  (existsb (fun w => int_key w =? int_key v) arr, None).

(** A stand-in for base64: the bytes as characters; and an unquoting that
    drops the first and the last character. *)
Definition base64_encode1 (b : list Byte.byte) : string :=
  string_of_list_byte b.

Definition base64_decode1 (s : string) : option (list Byte.byte) :=
  Some (list_byte_of_string s).

Definition unquote1 (s : string) : option string :=
  Some (String.substring 1 (String.length s - 2) s).

End inputs.

(** * Properties *)

(** ** Wrap-around of int64 *)

Module int64_facts.
Import go.

Lemma wrap64_id_small (z : Z) : - 2 ^ 63 <= z <= 2 ^ 63 - 1 -> wrap64 z = z.
Proof. intros H. unfold wrap64. rewrite Z.mod_small; lia. Qed.

End int64_facts.

(** ** Null propagation (document/value.go, sql/query/expr/comparison.go) *)

Module null_propagation.
Import go document inputs spec.

Section Arith.

Variable float64_to_int64 : float -> Z.
Variable math_Mod : float -> float -> float.
Variable strconv_ParseInt : string -> option Z.
Variable strconv_ParseFloat : string -> option float.

Local Abbreviation calc :=
  (calculateValues float64_to_int64 math_Mod strconv_ParseInt strconv_ParseFloat).

Lemma calculateValues_Null_l a b operator :
  Type_ a = types.NullValue -> calc a b operator = Ok NewNullValue.
Proof. intros H. unfold calculateValues. rewrite H. reflexivity. Qed.

Lemma calculateValues_Null_r a b operator :
  Type_ b = types.NullValue -> calc a b operator = Ok NewNullValue.
Proof.
  intros H. unfold calculateValues. rewrite H.
  rewrite Z.eqb_refl, orb_true_r. reflexivity.
Qed.

Lemma calculateValues_Bool_l a b operator :
  Type_ a = types.BoolValue -> calc a b operator = Ok NewNullValue.
Proof.
  intros H. unfold calculateValues. rewrite H. simpl.
  destruct (Type_ b =? types.NullValue); reflexivity.
Qed.

Lemma calculateValues_Bool_r a b operator :
  Type_ b = types.BoolValue -> calc a b operator = Ok NewNullValue.
Proof.
  intros H. unfold calculateValues. rewrite H. simpl.
  rewrite !orb_false_r, orb_true_r.
  destruct (Type_ a =? types.NullValue); reflexivity.
Qed.

Lemma calculateValues_Null_or_Bool a b operator :
  Type_ a = types.NullValue \/ Type_ a = types.BoolValue \/
  Type_ b = types.NullValue \/ Type_ b = types.BoolValue ->
  calc a b operator = Ok NewNullValue.
Proof.
  intros [H | [H | [H | H]]];
    eauto using calculateValues_Null_l, calculateValues_Null_r,
                calculateValues_Bool_l, calculateValues_Bool_r.
Qed.

End Arith.

(** C2. For every pair of values, each of Add, Sub, Mul, Div, Mod,
    BitwiseAnd, BitwiseOr and BitwiseXor returns Null when either operand
    is Null or Bool; and [cmpOp.Eval], for every comparison operator,
    returns Null when either evaluated operand is Null. *)
Theorem Null_propagation :
  (forall f2i fmod pint pfloat (a b : Value),
      Type_ a = types.NullValue \/ Type_ a = types.BoolValue \/
      Type_ b = types.NullValue \/ Type_ b = types.BoolValue ->
      Forall (fun op => op a b = Ok NewNullValue)
             [Add f2i fmod pint pfloat; Sub f2i fmod pint pfloat;
              Mul f2i fmod pint pfloat; Div f2i fmod pint pfloat;
              Mod f2i fmod pint pfloat; BitwiseAnd f2i fmod pint pfloat;
              BitwiseOr f2i fmod pint pfloat; BitwiseXor f2i fmod pint pfloat])
  /\
  (forall (EvalStack : Type) eval eq neq gt gte lt lte
          (op : expr.cmpOp EvalStack) (ctx : EvalStack) (v1 v2 : Value),
      eval op ctx = (v1, v2, None) ->
      Type_ v1 = types.NullValue \/ Type_ v2 = types.NullValue ->
      expr.Eval EvalStack eval eq neq gt gte lt lte op ctx
      = Ok (expr.nullLitteral, None)).
Proof.
  split.
  - intros f2i fmod pint pfloat a b H.
    repeat constructor; unfold Add, Sub, Mul, Div, Mod, BitwiseAnd, BitwiseOr,
      BitwiseXor; apply calculateValues_Null_or_Bool; exact H.
  - intros EvalStack eval eq neq gt gte lt lte op ctx v1 v2 Hev Hnull.
    unfold expr.Eval. rewrite Hev.
    destruct Hnull as [H | H]; rewrite H; simpl.
    + reflexivity.
    + rewrite orb_true_r. reflexivity.
Qed.

Lemma Null_propagation_witness :
  Forall (fun op => op NewNullValue (NewIntegerValue 1) = Ok NewNullValue)
         [Add trunc0 mod0 parse_int0 parse_float0;
          Sub trunc0 mod0 parse_int0 parse_float0;
          Mul trunc0 mod0 parse_int0 parse_float0;
          Div trunc0 mod0 parse_int0 parse_float0;
          Mod trunc0 mod0 parse_int0 parse_float0;
          BitwiseAnd trunc0 mod0 parse_int0 parse_float0;
          BitwiseOr trunc0 mod0 parse_int0 parse_float0;
          BitwiseXor trunc0 mod0 parse_int0 parse_float0]
  /\ expr.Eval unit eval0 cmp0 cmp0 cmp0 cmp0 cmp0 cmp0
       (expr.Lt unit (const_expr (NewIntegerValue 1)) (const_expr NewNullValue)) tt
     = Ok (expr.nullLitteral, None).
Proof.
  split.
  - apply (proj1 Null_propagation trunc0 mod0 parse_int0 parse_float0
             NewNullValue (NewIntegerValue 1)).
    left. reflexivity.
  - apply (proj2 Null_propagation unit eval0 cmp0 cmp0 cmp0 cmp0 cmp0 cmp0
             (expr.Lt unit (const_expr (NewIntegerValue 1)) (const_expr NewNullValue))
             tt (NewIntegerValue 1) NewNullValue).
    + reflexivity.
    + right. reflexivity.
Defined.

End null_propagation.

(** ** Integer arithmetic and overflow (document/value.go) *)

Module integer_overflow.
Import go document inputs spec.

Lemma wrap64_eq (z k : Z) :
  is_int64 (z - k * 2 ^ 64) -> wrap64 z = z - k * 2 ^ 64.
Proof.
  unfold is_int64, MinInt64, MaxInt64, wrap64. intros H.
  replace (z + 2 ^ 63) with ((z - k * 2 ^ 64 + 2 ^ 63) + k * 2 ^ 64) by ring.
  rewrite Z_mod_plus_full, Z.mod_small; lia.
Qed.

Lemma wrap64_id (z : Z) : is_int64 z -> wrap64 z = z.
Proof.
  intros H. rewrite (wrap64_eq z 0); [ring | now rewrite Z.mul_0_l, Z.sub_0_r].
Qed.

Lemma wrap64_range (z : Z) : is_int64 (wrap64 z).
Proof.
  unfold is_int64, MinInt64, MaxInt64, wrap64.
  pose proof (Z.mod_pos_bound (z + 2 ^ 63) (2 ^ 64) ltac:(lia)). lia.
Qed.

Lemma wrap64_decompose (z : Z) : exists k, wrap64 z = z - k * 2 ^ 64.
Proof.
  exists ((z + 2 ^ 63) / 2 ^ 64). unfold wrap64.
  rewrite Z.mod_eq by lia. ring.
Qed.

Section Arith.

Variable float64_to_int64 : float -> Z.
Variable math_Mod : float -> float -> float.
Variable strconv_ParseInt : string -> option Z.
Variable strconv_ParseFloat : string -> option float.

Local Abbreviation Add' :=
  (Add float64_to_int64 math_Mod strconv_ParseInt strconv_ParseFloat).
Local Abbreviation Sub' :=
  (Sub float64_to_int64 math_Mod strconv_ParseInt strconv_ParseFloat).
Local Abbreviation Mul' :=
  (Mul float64_to_int64 math_Mod strconv_ParseInt strconv_ParseFloat).

Lemma Add_Integer (x y : Z) :
  Add' (NewIntegerValue x) (NewIntegerValue y) = Ok (integers_add x y).
Proof. reflexivity. Qed.

Lemma Sub_Integer (x y : Z) :
  Sub' (NewIntegerValue x) (NewIntegerValue y)
  = Ok (integers_add x (wrap64 (- y))).
Proof. reflexivity. Qed.

Lemma integers_add_exact (x y : Z) :
  is_int64 x -> is_int64 y -> is_int64 (x + y) ->
  integers_add x y = NewIntegerValue (x + y).
Proof.
  intros Hx Hy Hxy. unfold integers_add.
  rewrite (wrap64_id _ Hxy).
  destruct (Z.ltb_spec x (x + y)), (Z.ltb_spec 0 y); simpl; try reflexivity; lia.
Qed.

Lemma integers_add_overflow (x y : Z) :
  is_int64 x -> is_int64 y -> ~ is_int64 (x + y) ->
  integers_add x y
  = NewDoubleValue (PrimFloat.add (float64_of_int64 x) (float64_of_int64 y)).
Proof.
  unfold is_int64, MinInt64, MaxInt64. intros Hx Hy Hxy. unfold integers_add.
  assert (Hc : x + y > 2 ^ 63 - 1 \/ x + y < - 2 ^ 63) by lia.
  destruct Hc as [Hc | Hc].
  - rewrite (wrap64_eq (x + y) 1)
      by (unfold is_int64, MinInt64, MaxInt64; lia).
    destruct (Z.ltb_spec x (x + y - 1 * 2 ^ 64)), (Z.ltb_spec 0 y);
      simpl; try reflexivity; lia.
  - rewrite (wrap64_eq (x + y) (-1))
      by (unfold is_int64, MinInt64, MaxInt64; lia).
    destruct (Z.ltb_spec x (x + y - -1 * 2 ^ 64)), (Z.ltb_spec 0 y);
      simpl; try reflexivity; lia.
Qed.

Lemma Mul_Integer (x y : Z) :
  Mul' (NewIntegerValue x) (NewIntegerValue y)
  = if (x =? 0) || (y =? 0) then Ok (NewIntegerValue 0)
    else
      let xr := wrap64 (x * y) in
      let promoted :=
        NewDoubleValue
          (PrimFloat.mul (float64_of_int64 x) (float64_of_int64 y)) in
      if Bool.eqb (xr <? 0) (negb (Bool.eqb (x <? 0) (y <? 0))) then
        if int64_div xr y =? x then Ok (NewIntegerValue xr) else Ok promoted
      else Ok promoted.
Proof. reflexivity. Qed.

Lemma Mul_Integer_exact (x y : Z) :
  is_int64 x -> is_int64 y -> is_int64 (x * y) ->
  Mul' (NewIntegerValue x) (NewIntegerValue y) = Ok (NewIntegerValue (x * y)).
Proof.
  intros Hx Hy Hxy. rewrite Mul_Integer.
  destruct (Z.eqb_spec x 0) as [-> | Hx0]; [reflexivity |].
  destruct (Z.eqb_spec y 0) as [-> | Hy0]; [now rewrite Z.mul_0_r |].
  cbn [orb]. cbv zeta. rewrite (wrap64_id _ Hxy).
  assert (Hs : Bool.eqb (x * y <? 0) (negb (Bool.eqb (x <? 0) (y <? 0))) = true).
  { destruct (Z.ltb_spec (x * y) 0), (Z.ltb_spec x 0), (Z.ltb_spec y 0);
      simpl; try reflexivity; nia. }
  rewrite Hs. unfold int64_div.
  rewrite Z.quot_mul by assumption. rewrite (wrap64_id _ Hx).
  now rewrite Z.eqb_refl.
Qed.

Lemma Mul_Integer_overflow (x y : Z) :
  is_int64 x -> is_int64 y -> ~ is_int64 (x * y) ->
  Mul' (NewIntegerValue x) (NewIntegerValue y)
  = Ok (NewDoubleValue
          (PrimFloat.mul (float64_of_int64 x) (float64_of_int64 y))).
Proof.
  intros Hx Hy Hxy. rewrite Mul_Integer.
  destruct (Z.eqb_spec x 0) as [-> | Hx0].
  { exfalso. apply Hxy. unfold is_int64, MinInt64, MaxInt64. lia. }
  destruct (Z.eqb_spec y 0) as [-> | Hy0].
  { exfalso. apply Hxy. rewrite Z.mul_0_r. unfold is_int64, MinInt64, MaxInt64. lia. }
  cbn [orb]. cbv zeta.
  destruct (Bool.eqb (wrap64 (x * y) <? 0) (negb (Bool.eqb (x <? 0) (y <? 0))))
    eqn:Hs; [| reflexivity].
  destruct (Z.eqb_spec (int64_div (wrap64 (x * y)) y) x) as [Hd | Hd];
    [| reflexivity].
  exfalso. apply Hxy.
  destruct (wrap64_decompose (x * y)) as [k Hk].
  pose proof (wrap64_range (x * y)) as Hr.
  set (xr := wrap64 (x * y)) in *.
  unfold int64_div in Hd.
  pose proof (Z.quot_rem' xr y) as Hq.
  pose proof (Z.rem_bound_abs xr y Hy0) as Hb.
  unfold is_int64, MinInt64, MaxInt64 in *.
  destruct (Z.eq_dec y (-1)) as [-> | Hy1].
  - (* y = -1: the quotient is -xr, which wraps for MinInt64 only *)
    replace (xr ÷ -1) with (- xr) in Hd
      by (change (-1) with (- (1)); rewrite Z.quot_opp_r by lia;
          now rewrite Z.quot_1_r).
    destruct (Z.eq_dec xr (- 2 ^ 63)) as [He | He].
    + rewrite He in Hd. change (wrap64 (- - 2 ^ 63)) with (- 2 ^ 63) in Hd.
      subst x. rewrite He in Hs.
      change (Bool.eqb (- 2 ^ 63 <? 0)
                (negb (Bool.eqb (- 2 ^ 63 <? 0) (-1 <? 0)))) with false in Hs.
      discriminate.
    + rewrite wrap64_id in Hd by (unfold is_int64, MinInt64, MaxInt64; lia).
      lia.
  - assert (Hqr : is_int64 (xr ÷ y)).
    { unfold is_int64, MinInt64, MaxInt64.
      assert (Z.abs (xr ÷ y) <= Z.abs xr).
      { rewrite <- Z.quot_abs by assumption.
        rewrite Z.quot_div_nonneg by lia.
        apply Z.div_le_upper_bound; [lia | nia]. }
      lia. }
    rewrite wrap64_id in Hd by assumption.
    rewrite Hd in Hq.
    assert (Hrem : Z.rem xr y = - k * 2 ^ 64) by lia.
    rewrite Hrem in Hb.
    assert (k = 0) by lia. subst k. lia.
Qed.

Lemma Sub_Integer_exact (x y : Z) :
  is_int64 x -> is_int64 y -> y <> MinInt64 -> is_int64 (x - y) ->
  Sub' (NewIntegerValue x) (NewIntegerValue y) = Ok (NewIntegerValue (x - y)).
Proof.
  intros Hx Hy Hmin Hxy. rewrite Sub_Integer.
  assert (Hn : is_int64 (- y))
    by (unfold is_int64, MinInt64, MaxInt64 in *; lia).
  rewrite (wrap64_id _ Hn).
  replace (x - y) with (x + - y) in * by ring.
  now rewrite integers_add_exact.
Qed.

Lemma Sub_Integer_overflow (x y : Z) :
  is_int64 x -> is_int64 y -> y <> MinInt64 -> ~ is_int64 (x - y) ->
  Sub' (NewIntegerValue x) (NewIntegerValue y)
  = Ok (NewDoubleValue
          (PrimFloat.add (float64_of_int64 x) (float64_of_int64 (- y)))).
Proof.
  intros Hx Hy Hmin Hxy. rewrite Sub_Integer.
  assert (Hn : is_int64 (- y))
    by (unfold is_int64, MinInt64, MaxInt64 in *; lia).
  rewrite (wrap64_id _ Hn).
  replace (x - y) with (x + - y) in * by ring.
  now rewrite integers_add_overflow.
Qed.

End Arith.

(** Integer addition and multiplication return the exact Integer when it
    fits in int64 and the Double of the converted operands otherwise, for
    all int64 operands; subtraction does so when the subtrahend is not the
    smallest int64. *)
Theorem Integer_overflow_promotes_to_Double :
  forall f2i fmod pint pfloat (x y : Z),
    is_int64 x -> is_int64 y ->
    (is_int64 (x + y) ->
     Add f2i fmod pint pfloat (NewIntegerValue x) (NewIntegerValue y)
     = Ok (NewIntegerValue (x + y)))
    /\ (~ is_int64 (x + y) ->
        Add f2i fmod pint pfloat (NewIntegerValue x) (NewIntegerValue y)
        = Ok (NewDoubleValue
                (PrimFloat.add (float64_of_int64 x) (float64_of_int64 y))))
    /\ (is_int64 (x * y) ->
        Mul f2i fmod pint pfloat (NewIntegerValue x) (NewIntegerValue y)
        = Ok (NewIntegerValue (x * y)))
    /\ (~ is_int64 (x * y) ->
        Mul f2i fmod pint pfloat (NewIntegerValue x) (NewIntegerValue y)
        = Ok (NewDoubleValue
                (PrimFloat.mul (float64_of_int64 x) (float64_of_int64 y))))
    /\ (y <> MinInt64 -> is_int64 (x - y) ->
        Sub f2i fmod pint pfloat (NewIntegerValue x) (NewIntegerValue y)
        = Ok (NewIntegerValue (x - y)))
    /\ (y <> MinInt64 -> ~ is_int64 (x - y) ->
        Sub f2i fmod pint pfloat (NewIntegerValue x) (NewIntegerValue y)
        = Ok (NewDoubleValue
                (PrimFloat.add (float64_of_int64 x) (float64_of_int64 (- y))))).
Proof.
  intros f2i fmod pint pfloat x y Hx Hy.
  repeat split.
  - intros H. rewrite Add_Integer. now rewrite integers_add_exact.
  - intros H. rewrite Add_Integer. now rewrite integers_add_overflow.
  - now apply Mul_Integer_exact.
  - now apply Mul_Integer_overflow.
  - intros. now apply Sub_Integer_exact.
  - intros. now apply Sub_Integer_overflow.
Qed.

Lemma Integer_overflow_promotes_to_Double_witness :
  Add trunc0 mod0 parse_int0 parse_float0
    (NewIntegerValue MaxInt64) (NewIntegerValue 1)
  = Ok (NewDoubleValue
          (PrimFloat.add (float64_of_int64 MaxInt64) (float64_of_int64 1)))
  /\ Mul trunc0 mod0 parse_int0 parse_float0
       (NewIntegerValue 3) (NewIntegerValue (-7))
     = Ok (NewIntegerValue (-21)).
Proof.
  pose proof (Integer_overflow_promotes_to_Double
                trunc0 mod0 parse_int0 parse_float0 MaxInt64 1) as H1.
  pose proof (Integer_overflow_promotes_to_Double
                trunc0 mod0 parse_int0 parse_float0 3 (-7)) as H2.
  split.
  - apply H1; unfold is_int64, MinInt64, MaxInt64; lia.
  - apply H2; unfold is_int64, MinInt64, MaxInt64; lia.
Defined.

(** C3, at the smallest int64.  [0 - MinInt64] is [2^63], which does not
    fit in int64, and the result is the Integer [MinInt64]: a wrapped
    value.  [-1 - MinInt64] is [MaxInt64], which fits, and the result is a
    Double, that of [-1 + MinInt64]. *)
Theorem Sub_MinInt64_wraps :
  ~ is_int64 (0 - MinInt64)
  /\ Sub trunc0 mod0 parse_int0 parse_float0
       (NewIntegerValue 0) (NewIntegerValue MinInt64)
     = Ok (NewIntegerValue MinInt64)
  /\ is_int64 (-1 - MinInt64)
  /\ Sub trunc0 mod0 parse_int0 parse_float0
       (NewIntegerValue (-1)) (NewIntegerValue MinInt64)
     = Ok (NewDoubleValue
             (PrimFloat.add (float64_of_int64 (-1)) (float64_of_int64 MinInt64))).
Proof.
  repeat split; try reflexivity;
    unfold is_int64, MinInt64, MaxInt64; lia.
Qed.

End integer_overflow.

(** ** Truthiness (document/value.go) *)

Module truthiness.
Import go document spec.

(** [IsTruthy] on the values built by the constructors of the package:
    Null is not truthy; a Bool, an Integer, a Double, a Text, an Array and
    a Document are truthy unless they are false, 0, 0.0, the empty string,
    the empty array and the empty document. *)
Theorem IsTruthy_constructors :
  IsTruthy NewNullValue = Ok false
  /\ (forall b, IsTruthy (NewBoolValue b) = Ok b)
  /\ (forall x, IsTruthy (NewIntegerValue x) = Ok (negb (x =? 0)))
  /\ (forall f, IsTruthy (NewDoubleValue f) = Ok (negb (PrimFloat.eqb f 0%float)))
  /\ (forall s, IsTruthy (NewTextValue s) = Ok (negb (String.eqb s "")))
  /\ (forall a, IsTruthy (NewArrayValue a)
                = Ok (match a with [] => false | _ => true end))
  /\ (forall d, IsTruthy (NewDocumentValue d)
                = Ok (match d with [] => false | _ => true end)).
Proof.
  repeat split; try reflexivity.
  - intros b. destruct b; reflexivity.
  - intros a. destruct a; reflexivity.
  - intros d. destruct d as [| [k x] d]; reflexivity.
Qed.

(** C8, at the empty blob: [IsZeroValue] does not take it for the zero
    value of its type, and [IsTruthy] returns true, as it does for every
    blob built by [NewBlobValue]. *)
Theorem IsTruthy_empty_blob :
  IsZeroValue (NewBlobValue []) = Ok false
  /\ IsTruthy (NewBlobValue []) = Ok true
  /\ (forall x, IsTruthy (NewBlobValue x) = Ok true).
Proof. repeat split. Qed.

End truthiness.

(** ** The COUNT aggregator *)

Module count.
Import go document functions inputs int64_facts spec.

Lemma is_NullLiteral_spec (v : Value) :
  is_NullLiteral v = true <-> v = expr.NullLiteral.
Proof.
  unfold is_NullLiteral, expr.NullLiteral, NewNullValue.
  destruct v as [tp x]; simpl. split.
  - intros H. apply andb_true_iff in H as [Ht Hx].
    apply Z.eqb_eq in Ht. subst tp. destruct x; try discriminate. reflexivity.
  - intros H. injection H as -> ->. reflexivity.
Qed.

Lemma Aggregate_expr (fn : CountFunc) (n : Z) (env : Environment) :
  Wildcard fn = false ->
  snd (Expr_ fn env) = None \/ snd (Expr_ fn env) = Some ErrFieldNotFound ->
  Aggregate (mkCountAggregator fn n) env
  = (mkCountAggregator fn
       (if is_NullLiteral (fst (Expr_ fn env)) then n else wrap64 (n + 1)),
     None).
Proof.
  intros Hw He. unfold Aggregate. simpl. rewrite Hw.
  destruct (Expr_ fn env) as [v err]. simpl in *.
  destruct He as [-> | ->]; simpl; destruct (is_NullLiteral v); reflexivity.
Qed.

Lemma Aggregate_stream_expr (fn : CountFunc) (rows : list Environment) :
  Wildcard fn = false ->
  evaluates (Expr_ fn) rows ->
  forall n : Z,
    0 <= n -> n + Z.of_nat (length rows) <= MaxInt64 ->
    Aggregate_stream (mkCountAggregator fn n) rows
    = (mkCountAggregator fn (n + Z.of_nat (non_null_rows (Expr_ fn) rows)), None).
Proof.
  intros Hw. unfold evaluates, non_null_rows.
  induction rows as [| env rows IH]; intros Hev n Hn Hlen.
  - simpl. now rewrite Z.add_0_r.
  - apply Forall_cons in Hev as [He Hev].
    cbn [Aggregate_stream]. rewrite (Aggregate_expr fn n env Hw He).
    cbn [length] in Hlen. rewrite filter_cons.
    destruct (is_NullLiteral (fst (Expr_ fn env))) eqn:Hnull.
    + rewrite decide_False by discriminate.
      apply IH; [assumption | lia | lia].
    + rewrite decide_True by reflexivity.
      rewrite wrap64_id_small by (unfold MaxInt64 in *; lia).
      rewrite IH; [| assumption | lia | lia].
      cbn [length]. do 2 f_equal. lia.
Qed.

Lemma Aggregate_stream_wildcard (fn : CountFunc) (rows : list Environment) :
  Wildcard fn = true ->
  forall n : Z,
    0 <= n -> n + Z.of_nat (length rows) <= MaxInt64 ->
    Aggregate_stream (mkCountAggregator fn n) rows
    = (mkCountAggregator fn (n + Z.of_nat (length rows)), None).
Proof.
  intros Hw. induction rows as [| env rows IH]; intros n Hn Hlen.
  - simpl. now rewrite Z.add_0_r.
  - cbn [Aggregate_stream length] in *. unfold Aggregate. simpl. rewrite Hw.
    rewrite wrap64_id_small by (unfold MaxInt64 in *; lia).
    rewrite IH by lia. do 2 f_equal. lia.
Qed.

Lemma Path_Eval_missing (field : string) (d : list (string * Value)) :
  (forall v, (field, v) ∉ d) ->
  Path_Eval field (mkEnvironment (Some d))
  = (expr.NullLiteral, Some ErrFieldNotFound).
Proof.
  intros Hmiss. unfold Path_Eval. simpl.
  destruct (List.find (fun kv => String.eqb (fst kv) field) d) as [[k v] |] eqn:Hf;
    [| reflexivity].
  apply List.find_some in Hf as [Hin Hk]. simpl in Hk.
  apply String.eqb_eq in Hk. subst k.
  exfalso. apply (Hmiss v). now apply list_elem_of_In.
Qed.

(** C9. Over a stream of rows that the counted expression evaluates
    without an error other than a missing field, the COUNT aggregator built
    on an expression ends with the number of rows on which the expression
    is not the Null literal; a row whose document lacks the counted field
    evaluates to Null and leaves the counter as it is; the aggregator of
    COUNT( * ) ends with the number of rows.  The test of the code for the
    Null literal holds of that value only. *)
Theorem CountAggregator_counts_non_null :
  forall (e : Expr) (rows : list Environment),
    Z.of_nat (length rows) <= MaxInt64 ->
    (evaluates e rows ->
     Aggregate_stream (Aggregator (mkCountFunc e false 0)) rows
     = (mkCountAggregator (mkCountFunc e false 0)
          (Z.of_nat (non_null_rows e rows)), None))
    /\ (forall (field : string) (d : list (string * Value)) (n : Z),
           (forall v, (field, v) ∉ d) ->
           fst (Path_Eval field (mkEnvironment (Some d))) = expr.NullLiteral
           /\ Aggregate
                (mkCountAggregator (mkCountFunc (Path_Eval field) false 0) n)
                (mkEnvironment (Some d))
              = (mkCountAggregator (mkCountFunc (Path_Eval field) false 0) n,
                 None))
    /\ Aggregate_stream (Aggregator (mkCountFunc e true 0)) rows
       = (mkCountAggregator (mkCountFunc e true 0) (Z.of_nat (length rows)),
          None)
    /\ (forall v, is_NullLiteral v = true <-> v = expr.NullLiteral).
Proof.
  intros e rows Hlen. split; [| split; [| split]]; [| | | apply is_NullLiteral_spec].
  - intros Hev. unfold Aggregator.
    rewrite (Aggregate_stream_expr (mkCountFunc e false 0) rows);
      [reflexivity | reflexivity | exact Hev | lia | simpl; lia].
  - intros field d n Hmiss.
    pose proof (Path_Eval_missing field d Hmiss) as Hp.
    split; [now rewrite Hp |].
    rewrite Aggregate_expr; simpl; [| reflexivity | rewrite Hp; now right].
    rewrite Hp. reflexivity.
  - unfold Aggregator.
    rewrite (Aggregate_stream_wildcard (mkCountFunc e true 0) rows);
      [reflexivity | reflexivity | lia | simpl; lia].
Qed.

Lemma CountAggregator_counts_non_null_witness :
  Aggregate_stream (Aggregator (mkCountFunc (Path_Eval "x") false 0)) count_rows
  = (mkCountAggregator (mkCountFunc (Path_Eval "x") false 0) 1, None)
  /\ Aggregate_stream (Aggregator (mkCountFunc (Path_Eval "x") true 0)) count_rows
     = (mkCountAggregator (mkCountFunc (Path_Eval "x") true 0) 3, None).
Proof.
  assert (Hlen : Z.of_nat (length count_rows) <= MaxInt64)
    by (unfold MaxInt64; simpl; lia).
  pose proof (CountAggregator_counts_non_null (Path_Eval "x") count_rows Hlen)
    as [H1 [_ [H3 _]]].
  split.
  - apply H1. unfold evaluates, count_rows.
    constructor; [left; reflexivity |].
    constructor; [right; reflexivity |].
    constructor; [left; reflexivity |].
    constructor.
  - exact H3.
Defined.

End count.

(** ** The cost of ranges *)

Module range_cost.
Import go document stream inputs int64_facts spec.

Lemma IndexRange_cost_bounds {VB} (Len : VB -> Z) (rng : IndexRange VB) :
  1 <= IndexRange_cost Len rng <= 200.
Proof.
  unfold IndexRange_cost.
  repeat match goal with |- context [if ?b then _ else _] => destruct b end; lia.
Qed.

Lemma IndexRanges_Cost_step_cost {VB} (Len : VB -> Z) (cost : Z) (rng : IndexRange VB) :
  IndexRanges_Cost_step VB Len cost rng
  = wrap64 (cost + IndexRange_cost Len rng).
Proof.
  unfold IndexRanges_Cost_step, IndexRange_cost, int_add.
  repeat match goal with |- context [if ?b then _ else _] => destruct b end;
    reflexivity.
Qed.

Lemma IndexRanges_Cost_fold {VB} (Len : VB -> Z) (r : IndexRanges VB) :
  forall cost : Z,
    0 <= cost -> cost + 200 * Z.of_nat (length r) <= MaxInt64 ->
    fold_left (IndexRanges_Cost_step VB Len) r cost
    = cost + foldr Z.add 0 (IndexRange_cost Len <$> r).
Proof.
  induction r as [| rng r IH]; intros cost Hc Hlen.
  - simpl. lia.
  - cbn [fold_left fmap list_fmap foldr length] in *.
    pose proof (IndexRange_cost_bounds Len rng) as Hb.
    rewrite IndexRanges_Cost_step_cost.
    rewrite wrap64_id_small by (unfold MaxInt64 in *; lia).
    rewrite IH by lia. lia.
Qed.

(** The cost of index ranges: 1 for an exact range, 50 with both bounds,
    100 with one bound, 200 with none, so that the four are in increasing
    order; the cost of a list is the sum of the costs of its ranges. *)
Theorem IndexRanges_Cost_sum :
  forall (VB : Type) (Len : VB -> Z) (r : IndexRanges VB),
    200 * Z.of_nat (length r) <= MaxInt64 ->
    IndexRanges_Cost VB Len r = foldr Z.add 0 (IndexRange_cost Len <$> r)
    /\ (forall rng, IExact VB rng = true -> IndexRange_cost Len rng = 1)
    /\ (forall rng, IExact VB rng = false ->
          0 < Len (IMin VB rng) -> 0 < Len (IMax VB rng) ->
          IndexRange_cost Len rng = 50)
    /\ (forall rng, IExact VB rng = false ->
          (0 < Len (IMin VB rng) /\ Len (IMax VB rng) <= 0) \/
          (Len (IMin VB rng) <= 0 /\ 0 < Len (IMax VB rng)) ->
          IndexRange_cost Len rng = 100)
    /\ (forall rng, IExact VB rng = false ->
          Len (IMin VB rng) <= 0 -> Len (IMax VB rng) <= 0 ->
          IndexRange_cost Len rng = 200).
Proof.
  intros VB Len r Hlen. split; [| repeat split].
  - unfold IndexRanges_Cost. rewrite IndexRanges_Cost_fold; lia.
  - intros rng H. unfold IndexRange_cost. now rewrite H.
  - intros rng H H1 H2. unfold IndexRange_cost. rewrite H.
    apply Z.ltb_lt in H1, H2. now rewrite H1, H2.
  - intros rng H [[H1 H2] | [H1 H2]]; unfold IndexRange_cost; rewrite H.
    + apply Z.ltb_lt in H1. apply Z.ltb_ge in H2. now rewrite H1, H2.
    + apply Z.ltb_ge in H1. apply Z.ltb_lt in H2. now rewrite H1, H2.
  - intros rng H H1 H2. unfold IndexRange_cost. rewrite H.
    apply Z.ltb_ge in H1, H2. now rewrite H1, H2.
Qed.

Lemma IndexRanges_Cost_sum_witness :
  IndexRanges_Cost (list Value) vb_Len [ir_two_sided; ir_plain] = 150.
Proof.
  assert (H : 200 * Z.of_nat (length [ir_two_sided; ir_plain]) <= MaxInt64)
    by (unfold MaxInt64; simpl; lia).
  exact (proj1 (IndexRanges_Cost_sum (list Value) vb_Len
                  [ir_two_sided; ir_plain] H)).
Defined.

(** C4, at a value range with both bounds: [ValueRanges.Cost] is 250 and
    not 50, above the cost of a range with one bound and of a range with
    none; the other three shapes cost 1, 100 and 200, and the index range
    with both bounds costs 50. *)
Theorem ValueRanges_Cost_two_sided :
  ValueRanges_Cost [vr_two_sided] = 250
  /\ ValueRanges_Cost [vr_exact] = 1
  /\ ValueRanges_Cost [vr_one_sided] = 100
  /\ ValueRanges_Cost [vr_open] = 200
  /\ IndexRanges_Cost (list Value) vb_Len [ir_two_sided] = 50.
Proof. repeat split; reflexivity. Qed.

End range_cost.

(** ** Membership in a range *)

Module range_membership.
Import go document stream inputs spec.

Lemma to_N_inj (x y : Byte.byte) : Byte.to_N x = Byte.to_N y -> x = y.
Proof.
  intros H. apply (f_equal Byte.of_N) in H.
  rewrite !Byte.of_to_N in H. now injection H.
Qed.

Lemma bytes_Compare_values (a b : list Byte.byte) :
  bytes_Compare a b = -1 \/ bytes_Compare a b = 0 \/ bytes_Compare a b = 1.
Proof.
  revert b. induction a as [| x a IH]; intros [| y b]; simpl; auto.
  destruct (Byte.to_N x ?= Byte.to_N y)%N; auto.
Qed.

Lemma bytes_Compare_eq (a b : list Byte.byte) :
  bytes_Compare a b = 0 <-> a = b.
Proof.
  revert b. induction a as [| x a IH]; intros [| y b]; simpl;
    try (split; [discriminate | discriminate]); [tauto |].
  destruct (N.compare_spec (Byte.to_N x) (Byte.to_N y)) as [He | Hl | Hg].
  - apply to_N_inj in He. subst y. rewrite IH. split; congruence.
  - split; [discriminate |]. intros H. injection H as -> _. lia.
  - split; [discriminate |]. intros H. injection H as -> _. lia.
Qed.

Lemma bytes_Compare_lt (a b : list Byte.byte) :
  bytes_Compare a b = -1 <-> bytes_lt a b.
Proof.
  revert b. induction a as [| x a IH]; intros [| y b]; simpl.
  - split; [discriminate | inversion 1].
  - split; [constructor | reflexivity].
  - split; [discriminate | inversion 1].
  - destruct (N.compare_spec (Byte.to_N x) (Byte.to_N y)) as [He | Hl | Hg].
    + apply to_N_inj in He. subst y. rewrite IH. split.
      * now constructor.
      * inversion 1; subst; [lia | assumption].
    + split; [now constructor | reflexivity].
    + split; [discriminate |]. inversion 1; subst; lia.
Qed.

Lemma bytes_Compare_gt (a b : list Byte.byte) :
  bytes_Compare a b = 1 <-> bytes_lt b a.
Proof.
  revert b. induction a as [| x a IH]; intros [| y b]; simpl.
  - split; [discriminate | inversion 1].
  - split; [discriminate | inversion 1].
  - split; [constructor | reflexivity].
  - rewrite (N.compare_antisym (Byte.to_N y) (Byte.to_N x)).
    destruct (N.compare_spec (Byte.to_N y) (Byte.to_N x)) as [He | Hl | Hg];
      simpl.
    + apply to_N_inj in He. subst y. rewrite IH. split.
      * now constructor.
      * inversion 1; subst; [lia | assumption].
    + split; [now constructor | reflexivity].
    + split; [discriminate |]. inversion 1; subst; lia.
Qed.

Lemma bytes_Compare_le (a b : list Byte.byte) :
  bytes_Compare a b <= 0 <-> bytes_le a b.
Proof.
  unfold bytes_le. rewrite <- bytes_Compare_eq, <- bytes_Compare_lt.
  destruct (bytes_Compare_values a b) as [H | [H | H]]; lia.
Qed.

Lemma bytes_Compare_ge (a b : list Byte.byte) :
  0 <= bytes_Compare a b <-> bytes_le b a.
Proof.
  unfold bytes_le. rewrite <- bytes_Compare_gt. split.
  - intros H.
    destruct (bytes_Compare_values a b) as [H1 | [H1 | H1]];
      [lia | left; symmetry; now apply bytes_Compare_eq | now right].
  - intros [-> | H].
    + rewrite (proj2 (bytes_Compare_eq a a) eq_refl). lia.
    + rewrite H. lia.
Qed.

Lemma above_min_Compare (m : option (list Byte.byte)) (exclusive : bool)
    (v : list Byte.byte) :
  let cmpMin := match m with Some m => bytes_Compare v m | None => 1 end in
  above_min m exclusive v
  <-> (exclusive && (cmpMin =? 0) = false) /\ 0 <= cmpMin.
Proof.
  destruct m as [m |]; simpl.
  - pose proof (bytes_Compare_values v m) as Hv.
    pose proof (bytes_Compare_gt v m) as Hgt.
    pose proof (bytes_Compare_ge v m) as Hge.
    destruct exclusive; simpl.
    + rewrite <- Hgt. destruct (Z.eqb_spec (bytes_Compare v m) 0); intuition lia.
    + rewrite <- Hge. intuition lia.
  - rewrite andb_false_r. intuition lia.
Qed.

Lemma below_max_Compare (m : option (list Byte.byte)) (exclusive : bool)
    (v : list Byte.byte) :
  let cmpMax := match m with Some m => bytes_Compare v m | None => -1 end in
  below_max m exclusive v
  <-> (exclusive && (cmpMax =? 0) = false) /\ cmpMax <= 0.
Proof.
  destruct m as [m |]; simpl.
  - pose proof (bytes_Compare_values v m) as Hv.
    pose proof (bytes_Compare_lt v m) as Hlt.
    pose proof (bytes_Compare_le v m) as Hle.
    destruct exclusive; simpl.
    + rewrite <- Hlt. destruct (Z.eqb_spec (bytes_Compare v m) 0); intuition lia.
    + rewrite <- Hle. intuition lia.
  - rewrite andb_false_r. intuition lia.
Qed.

(** [IndexRange.IsInRange], when the arity of the range is not above that
    of the index: an exact range holds the encoded lower bound only; any
    other range holds the values between its encoded bounds in
    lexicographic order, an absent bound being no constraint and the
    bounds themselves being left out of an exclusive range. *)
Theorem IndexRange_IsInRange_spec :
  forall (VB : Type) (r : IndexRange VB) (v : list Byte.byte),
    Arity VB r <= IndexArityMax VB r ->
    exists b : bool,
      IndexRange_IsInRange VB r v = Ok b
      /\ (b = true <->
          if IExact VB r then IencodedMin VB r = Some v
          else above_min (IencodedMin VB r) (IExclusive VB r) v
               /\ below_max (IencodedMax VB r) (IExclusive VB r) v).
Proof.
  intros VB r v Har. unfold IndexRange_IsInRange.
  apply Z.ltb_ge in Har.
  destruct (IExact VB r).
  - eexists; split; [reflexivity |].
    destruct (IencodedMin VB r) as [m |].
    + rewrite Z.eqb_eq, bytes_Compare_eq. split; congruence.
    + simpl. split; discriminate.
  - pose proof (above_min_Compare (IencodedMin VB r) (IExclusive VB r) v) as Hmin.
    pose proof (below_max_Compare (IencodedMax VB r) (IExclusive VB r) v) as Hmax.
    cbv zeta in Hmin, Hmax. setoid_rewrite Hmin. setoid_rewrite Hmax.
    clear Hmin Hmax.
    set (cmpMin := match IencodedMin VB r with
                   | Some m => bytes_Compare v m | None => 1 end).
    assert (Hc : (cmpMax <-
                    match IencodedMax VB r with
                    | Some m =>
                        if IndexArityMax VB r <? Arity VB r
                        then v0 <- slice_to v (Z.of_nat (length m) - 1);;
                             Ok (bytes_Compare v0 m)
                        else Ok (bytes_Compare v m)
                    | None => Ok (-1)
                    end;;
                  if IExclusive VB r && (cmpMax =? 0) then Ok false
                  else Ok ((0 <=? cmpMin) && (cmpMax <=? 0)))
                 = (let cmpMax := match IencodedMax VB r with
                                  | Some m => bytes_Compare v m | None => -1 end in
                    if IExclusive VB r && (cmpMax =? 0) then Ok false
                    else Ok ((0 <=? cmpMin) && (cmpMax <=? 0)))).
    { destruct (IencodedMax VB r); [rewrite Har |]; reflexivity. }
    rewrite Hc. clear Hc. cbv zeta.
    set (cmpMax := match IencodedMax VB r with
                   | Some m => bytes_Compare v m | None => -1 end).
    destruct (IExclusive VB r && (cmpMin =? 0)) eqn:E1.
    + exists false. split; [reflexivity |]. intuition discriminate.
    + destruct (IExclusive VB r && (cmpMax =? 0)) eqn:E2.
      * exists false. split; [reflexivity |]. intuition discriminate.
      * eexists; split; [reflexivity |].
        rewrite andb_true_iff, Z.leb_le, Z.leb_le. intuition.
Qed.

Lemma IndexRange_IsInRange_spec_witness :
  Arity (list Value) ir_encoded_5_9 <= IndexArityMax (list Value) ir_encoded_5_9
  /\ exists b : bool,
       IndexRange_IsInRange (list Value) ir_encoded_5_9 ["007"%byte] = Ok b
       /\ (b = true <->
           above_min (Some ["005"%byte]) false ["007"%byte]
           /\ below_max (Some ["009"%byte]) false ["007"%byte]).
Proof.
  split.
  - simpl. lia.
  - apply (IndexRange_IsInRange_spec (list Value) ir_encoded_5_9 ["007"%byte]).
    simpl. lia.
Defined.

(** [ValueRange.IsInRange]: an exact range holds the encoded lower bound
    only; any other range holds the values that are not above its encoded
    upper bound, the two bounds themselves being left out of an exclusive
    range. *)
Theorem ValueRange_IsInRange_spec :
  forall (r : ValueRange) (v : list Byte.byte),
    ValueRange_IsInRange r v = true <->
    if Exact r then encodedMin r = Some v
    else (Exclusive r = true -> encodedMin r <> Some v)
         /\ below_max (encodedMax r) (Exclusive r) v.
Proof.
  intros r v. unfold ValueRange_IsInRange.
  destruct (Exact r).
  - destruct (encodedMin r) as [m |].
    + rewrite Z.eqb_eq, bytes_Compare_eq. split; congruence.
    + simpl. split; discriminate.
  - pose proof (below_max_Compare (encodedMax r) (Exclusive r) v) as Hmax.
    cbv zeta in Hmax. rewrite Hmax. clear Hmax.
    set (cmpMax := match encodedMax r with
                   | Some m => bytes_Compare v m | None => -1 end).
    assert (Hmin : (match encodedMin r with
                    | Some m => bytes_Compare v m | None => 1 end =? 0) = true
                   <-> encodedMin r = Some v).
    { destruct (encodedMin r) as [m |].
      - rewrite Z.eqb_eq, bytes_Compare_eq. split; congruence.
      - simpl. split; discriminate. }
    destruct (Exclusive r); simpl.
    + destruct (match encodedMin r with
                | Some m => bytes_Compare v m | None => 1 end =? 0) eqn:E1.
      * split; [discriminate |]. intros [Hn _]. exfalso.
        apply Hn; [reflexivity | now apply Hmin].
      * destruct (cmpMax =? 0) eqn:E2.
        -- split; [discriminate |]. intros [_ [H _]]. discriminate.
        -- rewrite Z.leb_le. split; [| tauto]. intros H.
           split; [| now split]. intros _ He. apply Hmin in He. discriminate.
    + rewrite Z.leb_le. split; [| tauto]. intros H.
      split; [discriminate | now split].
Qed.

(** C5, at a value below the lower bound: the value range with the encoded
    bounds 05 and 09 takes the value 01 to be in range, and the index range
    with the same bounds does not. *)
Theorem ValueRange_IsInRange_below_min :
  encodedMin vr_encoded = Some ["005"%byte]
  /\ bytes_lt ["001"%byte] ["005"%byte]
  /\ ValueRange_IsInRange vr_encoded ["001"%byte] = true
  /\ IndexRange_IsInRange (list Value) ir_encoded_5_9 ["001"%byte] = Ok false.
Proof.
  repeat split; try reflexivity.
  apply bytes_lt_head. reflexivity.
Qed.

End range_membership.

(** ** Appending a range *)

Module range_append.
Import go document stream inputs spec.

Section ValueRanges.

Variable Value_IsEqual : Value -> Value -> bool * option error.

Local Abbreviation IsEqual := (ValueRange_IsEqual Value_IsEqual).
Local Abbreviation isDuplicate := (ValueRanges_isDuplicate Value_IsEqual).
Local Abbreviation Append := (ValueRanges_Append Value_IsEqual).

Lemma ValueRanges_isDuplicate_Exists (r : ValueRanges) (rng : ValueRange) :
  isDuplicate r rng = true <-> Exists (fun e => IsEqual e rng = true) r.
Proof.
  induction r as [| e r IH]; simpl.
  - split; [discriminate | inversion 1].
  - rewrite Exists_cons. destruct (IsEqual e rng) eqn:He.
    + split; auto.
    + rewrite IH. split; [auto | intros [H | H]; [discriminate | exact H]].
Qed.

Lemma ValueRanges_isDuplicate_app (r r' : ValueRanges) (rng : ValueRange) :
  isDuplicate (r ++ r') rng = isDuplicate r rng || isDuplicate r' rng.
Proof.
  induction r as [| e r IH]; simpl; [reflexivity |].
  destruct (IsEqual e rng); [reflexivity | exact IH].
Qed.

Lemma ValueRanges_Append_spec (r : ValueRanges) (rng : ValueRange) :
  (Exists (fun e => IsEqual e rng = true) r -> Append r rng = r)
  /\ (~ Exists (fun e => IsEqual e rng = true) r -> Append r rng = r ++ [rng])
  /\ (IsEqual rng rng = true -> Append (Append r rng) rng = Append r rng).
Proof.
  unfold ValueRanges_Append. repeat split.
  - intros H. apply ValueRanges_isDuplicate_Exists in H. now rewrite H.
  - intros H. rewrite <- ValueRanges_isDuplicate_Exists in H.
    now destruct (isDuplicate r rng).
  - intros Hrefl. destruct (isDuplicate r rng) eqn:Hd.
    + now rewrite Hd.
    + rewrite ValueRanges_isDuplicate_app, Hd. simpl. now rewrite Hrefl.
Qed.

End ValueRanges.

Section IndexRanges.

Variable ValueBuffer : Type.
Variable ValueBuffer_IsEqual : ValueBuffer -> ValueBuffer -> bool.

Local Abbreviation IsEqual := (IndexRange_IsEqual ValueBuffer ValueBuffer_IsEqual).
Local Abbreviation isDuplicate :=
  (IndexRanges_isDuplicate ValueBuffer ValueBuffer_IsEqual).
Local Abbreviation Append := (IndexRanges_Append ValueBuffer ValueBuffer_IsEqual).

Lemma rangeTypes_differ_defined (rt other : list types.ValueType) :
  (length rt <= length other)%nat ->
  exists b, rangeTypes_differ rt other = Some b.
Proof.
  revert other. induction rt as [| typ rt IH]; intros other Hlen; simpl.
  - eauto.
  - destruct other as [| otyp other]; simpl in Hlen; [lia |].
    destruct (negb (typ =? otyp)); [eauto | apply IH; lia].
Qed.

Lemma IndexRange_IsEqual_defined (e rng : IndexRange ValueBuffer) :
  (length (rangeTypes ValueBuffer e) <= length (rangeTypes ValueBuffer rng))%nat ->
  exists b, IsEqual e rng = Ok b.
Proof.
  intros Hlen. unfold IndexRange_IsEqual.
  destruct (rangeTypes_differ_defined _ _ Hlen) as [b ->].
  repeat match goal with |- context [if ?c then _ else _] => destruct c end;
    eauto.
Qed.

Lemma IndexRanges_isDuplicate_Exists (r : IndexRanges ValueBuffer)
    (rng : IndexRange ValueBuffer) :
  comparable ValueBuffer r rng ->
  exists b, isDuplicate r rng = Ok b
            /\ (b = true <-> Exists (fun e => IsEqual e rng = Ok true) r).
Proof.
  unfold comparable. induction r as [| e r IH]; intros Hc; simpl.
  - exists false. split; [reflexivity |]. split; [discriminate | inversion 1].
  - apply Forall_cons in Hc as [He Hc].
    destruct (IndexRange_IsEqual_defined e rng He) as [b Hb]. rewrite Hb. simpl.
    destruct b.
    + exists true. split; [reflexivity |]. split; [| reflexivity].
      intros _. now left.
    + destruct (IH Hc) as [b' [Hd Hiff]]. exists b'. split; [exact Hd |].
      rewrite Hiff, Exists_cons. rewrite Hb.
      split; [auto | intros [H | H]; [discriminate | exact H]].
Qed.

Lemma IndexRanges_isDuplicate_app (r r' : IndexRanges ValueBuffer)
    (rng : IndexRange ValueBuffer) :
  isDuplicate r rng = Ok false ->
  isDuplicate (r ++ r') rng = isDuplicate r' rng.
Proof.
  induction r as [| e r IH]; simpl; [reflexivity |].
  destruct (IsEqual e rng) as [[|] | |]; simpl; try discriminate. exact IH.
Qed.

Lemma IndexRanges_Append_spec (r : IndexRanges ValueBuffer)
    (rng : IndexRange ValueBuffer) :
  comparable ValueBuffer r rng ->
  (Exists (fun e => IsEqual e rng = Ok true) r -> Append r rng = Ok r)
  /\ (~ Exists (fun e => IsEqual e rng = Ok true) r ->
      Append r rng = Ok (r ++ [rng]))
  /\ (IsEqual rng rng = Ok true ->
      (r' <- Append r rng ;; Append r' rng) = Append r rng).
Proof.
  intros Hc. unfold IndexRanges_Append.
  destruct (IndexRanges_isDuplicate_Exists r rng Hc) as [b [Hd Hiff]].
  rewrite Hd. simpl. repeat split.
  - intros H. apply Hiff in H. now subst b.
  - intros H. destruct b; [exfalso; now apply H, Hiff | reflexivity].
  - intros Hrefl. destruct b; simpl.
    + now rewrite Hd.
    + rewrite (IndexRanges_isDuplicate_app r [rng] rng Hd). simpl.
      now rewrite Hrefl.
Qed.

End IndexRanges.




End range_append.

(** ** The types of an index (internal/database/catalog.go) *)

Module index_types.
Import go database inputs spec.

Lemma AddIndex_types_of_path_typed (fcs : list FieldConstraint) (path : Path)
    (acc : list types.ValueType) :
  (forall fc,
      List.find (fun fc => Path_IsEqual (FC_Path fc) path) fcs = Some fc ->
      FC_Type fc <> 0) ->
  AddIndex_types_of_path fcs path acc = acc ++ [declared_type fcs path].
Proof.
  unfold declared_type. induction fcs as [| fc fcs IH]; intros Hty; simpl.
  - reflexivity.
  - simpl in Hty. destruct (Path_IsEqual (FC_Path fc) path).
    + specialize (Hty fc eq_refl).
      destruct (Z.eqb_spec (FC_Type fc) 0); [contradiction | reflexivity].
    + apply IH. exact Hty.
Qed.

Lemma AddIndex_types_fold (fcs : list FieldConstraint) (paths : list Path) :
  constraints_typed fcs paths ->
  forall acc,
    fold_left (fun types_ path => AddIndex_types_of_path fcs path types_)
              paths acc
    = acc ++ (declared_type fcs <$> paths).
Proof.
  unfold constraints_typed. induction paths as [| path paths IH];
    intros Hty acc; simpl.
  - now rewrite app_nil_r.
  - apply Forall_cons in Hty as [Hp Hty].
    rewrite AddIndex_types_of_path_typed by exact Hp.
    rewrite IH by exact Hty. now rewrite <- app_assoc.
Qed.

Section IndexNames.

Variable Path_String : Path -> string.

Lemma AddIndex_Ok (c c' : catalogCache) (tx tx' : Transaction)
    (info info' : IndexInfo) :
  AddIndex Path_String c tx info = Ok (info', c', tx') ->
  exists ti,
    tables c !! TableName info = Some ti
    /\ Paths info' = Paths info
    /\ Types info' = AddIndex_types ti (Paths info)
    /\ indexes c' !! IndexName info' = Some info'.
Proof.
  unfold AddIndex. intros H.
  destruct (if String.eqb (IndexName info) ""
            then match generated_index_name Path_String (indexes c) info with
                 | Some name => Ok (set_IndexName info name)
                 | None => Panic "no free index name"
                 end
            else Ok info) as [info1 | |] eqn:Hname; simpl in H;
    try discriminate.
  assert (Hsame : TableName info1 = TableName info /\ Paths info1 = Paths info).
  { destruct (String.eqb (IndexName info) "").
    - destruct (generated_index_name Path_String (indexes c) info);
        [| discriminate].
      injection Hname as <-. split; reflexivity.
    - injection Hname as <-. split; reflexivity. }
  destruct Hsame as [Ht Hp].
  repeat match type of H with
         | (if ?b then _ else _) = _ => destruct b; [discriminate |]
         end.
  rewrite Ht in H.
  destruct (tables c !! TableName info) as [ti |] eqn:Hti; [| discriminate].
  injection H as <- <- <-. exists ti. simpl.
  rewrite Hp. repeat split; try reflexivity.
  apply lookup_insert_eq.
Qed.

End IndexNames.

(** After [AddIndex] succeeds, the types of the index are aligned with its
    paths when every constraint met first on an indexed path declares a
    type: [Types] has the length of [Paths], and its element at a position
    is the declared type of the path at that position, 0 when no constraint
    is on the path. *)
Theorem AddIndex_types_aligned :
  forall Path_String (c c' : catalogCache) (tx tx' : Transaction)
         (info info' : IndexInfo) (ti : TableInfo),
    AddIndex Path_String c tx info = Ok (info', c', tx') ->
    tables c !! TableName info = Some ti ->
    constraints_typed (FieldConstraints ti) (Paths info) ->
    Types info' = (declared_type (FieldConstraints ti) <$> Paths info')
    /\ length (Types info') = length (Paths info').
Proof.
  intros Path_String c c' tx tx' info info' ti Hadd Hti Hty.
  destruct (AddIndex_Ok Path_String c c' tx tx' info info' Hadd)
    as [ti' [Hti' [Hp [Htypes _]]]].
  rewrite Hti in Hti'. injection Hti' as <-.
  assert (He : Types info' = declared_type (FieldConstraints ti) <$> Paths info').
  { rewrite Htypes, Hp. unfold AddIndex_types.
    now rewrite AddIndex_types_fold. }
  split; [exact He |]. rewrite He. apply length_fmap.
Qed.

Lemma AddIndex_types_aligned_witness :
  exists info' c' tx',
    AddIndex path_String0 cache_u tx0 idx_u_bc = Ok (info', c', tx')
    /\ Types info' = [types.IntegerValue; 0]
    /\ length (Types info') = length (Paths info').
Proof.
  destruct (AddIndex path_String0 cache_u tx0 idx_u_bc)
    as [[[info' c'] tx'] | |] eqn:Hadd; try discriminate.
  exists info', c', tx'. split; [reflexivity |].
  assert (Hti : tables cache_u !! TableName idx_u_bc = Some ti_u)
    by reflexivity.
  assert (Hty : constraints_typed (FieldConstraints ti_u) (Paths idx_u_bc)).
  { constructor.
    - intros fc H. injection H as <-. discriminate.
    - constructor; [| constructor]. intros fc H. discriminate. }
  destruct (AddIndex_types_aligned path_String0 cache_u c' tx0 tx' idx_u_bc
              info' ti_u Hadd Hti Hty) as [He Hlen].
  split; [| exact Hlen].
  rewrite He. injection Hadd as <- _ _. reflexivity.
Defined.

(** C7, at an index on a path whose constraint declares no type: on the
    table [t (a NOT NULL, b INTEGER)], [AddIndex] of an index on [(a, b)]
    succeeds with a single type for the two paths, the type of [b] at the
    position of [a]. *)
Theorem AddIndex_untyped_constraint :
  exists info' c' tx',
    AddIndex path_String0 cache_t tx0 idx_t_ab = Ok (info', c', tx')
    /\ Paths info' = [path_a; path_b]
    /\ Types info' = [types.IntegerValue]
    /\ declared_type (FieldConstraints ti_t) path_a = 0.
Proof.
  destruct (AddIndex path_String0 cache_t tx0 idx_t_ab)
    as [[[info' c'] tx'] | |] eqn:Hadd; try discriminate.
  exists info', c', tx'. split; [reflexivity |].
  injection Hadd as <- _ _. repeat split.
Qed.

End index_types.

(** ** Rollback of the catalog cache (internal/database/catalog.go) *)

Module catalog_rollback.
Import go database inputs spec.

Lemma catalogCache_eta (c : catalogCache) :
  mkCatalogCache (tables c) (indexes c) (indexesPerTables c) (sequences c) = c.
Proof. now destruct c. Qed.

Lemma Rollback_append_hook (tx : Transaction) (h : Hook) (c : catalogCache) :
  Rollback (append_hook tx h) c = Rollback tx (h c).
Proof.
  unfold Rollback, append_hook. simpl. now rewrite rev_app_distr.
Qed.

(** Each of the four mutations appends one hook, and the hook takes the
    cache after the mutation back to the cache before it. *)
Lemma apply_mutation_hook (m : mutation) (c c' : catalogCache)
    (tx tx' : Transaction) :
  keeps_name m -> table_names_ok c ->
  apply_mutation m c tx = Ok (c', tx') ->
  table_names_ok c' /\ exists h : Hook, tx' = append_hook tx h /\ h c' = c.
Proof.
  intros Hk Hok H. destruct m as [info | tableName fn | info | name]; simpl in H.
  - unfold AddTable in H.
    destruct (bool_decide (is_Some (tables c !! TI_TableName info))) eqn:Ht;
      [discriminate |].
    repeat match type of H with
           | (if ?b then _ else _) = _ => destruct b; [discriminate |]
           end.
    injection H as <- <-.
    apply bool_decide_eq_false in Ht.
    assert (Hn : tables c !! TI_TableName info = None).
    { destruct (tables c !! TI_TableName info) eqn:E; [| reflexivity].
      exfalso. apply Ht. eauto. }
    split.
    + intros n ti. simpl. rewrite lookup_insert. case_decide.
      * intros Hi. injection Hi as <-. congruence.
      * apply Hok.
    + eexists. split; [reflexivity |].
      unfold set_tables. simpl. rewrite delete_insert_id by exact Hn.
      apply catalogCache_eta.
  - unfold updateTable in H.
    destruct (tables c !! tableName) as [ti |] eqn:Hti; [| discriminate].
    destruct (ReadOnly ti); [discriminate |].
    destruct (fn ti) as [clone | |] eqn:Hfn; simpl in H; try discriminate.
    assert (Hname : TI_TableName clone = tableName).
    { rewrite (Hk ti clone Hfn). now apply Hok. }
    rewrite bool_decide_eq_false_2 in H by (intros Hne; now apply Hne).
    injection H as <- <-. split.
    + intros n ti'. simpl. rewrite lookup_insert. case_decide.
      * intros Hi. injection Hi as <-. congruence.
      * apply Hok.
    + eexists. split; [reflexivity |].
      unfold set_tables. simpl. rewrite Hname.
      rewrite insert_delete_eq, insert_insert_eq, insert_id by exact Hti.
      unfold set_indexes. simpl. apply catalogCache_eta.
  - unfold AddSequence in H.
    destruct (bool_decide (is_Some (sequences c !! Name info))) eqn:Ht;
      [discriminate |].
    repeat match type of H with
           | (if ?b then _ else _) = _ => destruct b; [discriminate |]
           end.
    injection H as <- <-. split; [exact Hok |].
    eexists. split; [reflexivity |].
    apply bool_decide_eq_false in Ht.
    assert (Hn : sequences c !! Name info = None).
    { destruct (sequences c !! Name info) eqn:E; [| reflexivity].
      exfalso. apply Ht. eauto. }
    unfold set_sequences. simpl. rewrite delete_insert_id by exact Hn.
    apply catalogCache_eta.
  - unfold DeleteSequence in H.
    destruct (sequences c !! name) as [seq |] eqn:Hs; [| discriminate].
    simpl in H. injection H as <- <-. split; [exact Hok |].
    eexists. split; [reflexivity |].
    unfold set_sequences. simpl. rewrite insert_delete_id by exact Hs.
    apply catalogCache_eta.
Qed.

Lemma run_mutations_Rollback (ms : list mutation) :
  Forall keeps_name ms ->
  forall (c c' : catalogCache) (tx tx' : Transaction),
    table_names_ok c ->
    run_mutations ms c tx = (c', tx') ->
    Rollback tx' c' = Rollback tx c.
Proof.
  induction ms as [| m ms IH]; intros Hk c c' tx tx' Hok Hrun; simpl in Hrun.
  - now injection Hrun as <- <-.
  - apply Forall_cons in Hk as [Hm Hk].
    destruct (apply_mutation m c tx) as [[c1 tx1] | |] eqn:Hap;
      try (now injection Hrun as <- <-).
    destruct (apply_mutation_hook m c c1 tx tx1 Hm Hok Hap)
      as [Hok1 [h [-> Hh]]].
    rewrite (IH Hk c1 c' _ tx' Hok1 Hrun).
    now rewrite Rollback_append_hook, Hh.
Qed.

(** A transaction that creates tables, updates table infos without
    renaming, and creates and deletes sequences, and that aborts after any
    number of these mutations, leaves the cache after its rollback exactly
    as it was before the transaction, when the tables of that cache are
    stored under their names. *)
Theorem rollback_restores_cache :
  forall (ms : list mutation) (c c' : catalogCache) (tx' : Transaction),
    Forall keeps_name ms ->
    table_names_ok c ->
    run_mutations ms c (mkTransaction []) = (c', tx') ->
    Rollback tx' c' = c.
Proof.
  intros ms c c' tx' Hk Hok Hrun.
  now rewrite (run_mutations_Rollback ms Hk c c' _ tx' Hok Hrun).
Qed.

Lemma rollback_restores_cache_witness :
  exists c' tx',
    run_mutations failing_transaction cache_a_b (mkTransaction []) = (c', tx')
    /\ length (OnRollbackHooks tx') = 3%nat
    /\ Rollback tx' c' = cache_a_b.
Proof.
  destruct (run_mutations failing_transaction cache_a_b (mkTransaction []))
    as [c' tx'] eqn:Hrun.
  exists c', tx'. split; [reflexivity |]. split.
  - injection Hrun as _ <-. reflexivity.
  - apply (rollback_restores_cache failing_transaction cache_a_b c' tx');
      [| | exact Hrun].
    + repeat constructor. intros ti clone H. injection H as <-. reflexivity.
    + intros n ti. unfold cache_a_b. simpl.
      rewrite lookup_insert. case_decide as Hb.
      * intros Hi. injection Hi as <-. now subst n.
      * rewrite lookup_singleton. case_decide as Ha; [| discriminate].
        intros Hi. injection Hi as <-. now subst n.
Defined.

(** C1, at the renaming of a table to the name of another table.  With
    the tables [a] and [b] in the cache, [updateTable] of [a] with the new
    name [b] succeeds and appends its hook; the statement then fails and the
    transaction is rolled back.  After the rollback the cache holds [a] and
    no longer holds [b]: it is not the cache of before the transaction. *)
Theorem rollback_of_rename_loses_table :
  exists clone newIndexes c' tx',
    updateTable cache_a_b tx0 "a" rename_to_b = Ok (clone, newIndexes, c', tx')
    /\ tables cache_a_b !! "b" = Some ti_b
    /\ tables (Rollback tx' c') !! "a" = Some ti_a
    /\ tables (Rollback tx' c') !! "b" = None
    /\ Rollback tx' c' <> cache_a_b.
Proof.
  destruct (updateTable cache_a_b tx0 "a" rename_to_b)
    as [[[[clone newIndexes] c'] tx'] | |] eqn:Hup; try discriminate.
  exists clone, newIndexes, c', tx'.
  injection Hup as <- <- <- <-.
  repeat split; try reflexivity.
  intros Heq. apply (f_equal (fun c => tables c !! "b")) in Heq.
  vm_compute in Heq. discriminate.
Qed.

End catalog_rollback.

(** ** The buffered scan of UPDATE (sql/query/update.go) *)

Module update_scan.
Import go query inputs spec.

Section Update.

Variable Document : Type.
Variable set_or_unset : Document -> res Document.
Variable whereClause : Document -> bool.

Lemma st_Iterate_from_length (items : Store Document) :
  forall (b b' : buffers Document) (err : option error),
    st_Iterate_from Document set_or_unset whereClause items b = Ok (b', err) ->
    Z.of_nat (length (keys Document b)) <= updateBufferSize ->
    length (docs Document b) = length (keys Document b) ->
    Z.of_nat (length (keys Document b')) <= updateBufferSize
    /\ length (docs Document b') = length (keys Document b').
Proof.
  induction items as [| [k d] items IH]; intros b b' err H Hlen Hdocs; simpl in H.
  - injection H as <- _. now split.
  - destruct (whereClause d); [| now apply (IH b b' err)].
    destruct (Z.ltb_spec (Z.of_nat (length (keys Document b))) updateBufferSize)
      as [Hlt | Hge].
    + unfold Run_fn in H. destruct (set_or_unset d) as [d' | e | m]; simpl in H.
      * apply (IH _ b' err H); simpl; rewrite !length_app; simpl; lia.
      * injection H as <- _. now split.
      * discriminate.
    + injection H as <- _. now split.
Qed.

End Update.

(** Each turn of the loop of [UpdateStmt.Run] fills its buffers with at
    most [updateBufferSize] = 100 rows, a document for each key. *)
Theorem Run_buffer_at_most_100 :
  forall (Document : Type) (set_or_unset : Document -> res Document)
         (whereClause : Document -> bool)
         (rit : resumableIterator Document) (b : buffers Document)
         (err : option error),
    st_Iterate Document set_or_unset whereClause rit = Ok (b, err) ->
    Z.of_nat (length (keys Document b)) <= 100
    /\ length (docs Document b) = length (keys Document b).
Proof.
  intros Document set_or_unset whereClause rit b err H.
  unfold st_Iterate in H.
  apply (st_Iterate_from_length Document set_or_unset whereClause _ _ _ _ H);
    simpl; [unfold updateBufferSize; lia | reflexivity].
Qed.

Lemma Run_buffer_at_most_100_witness :
  exists b err,
    st_Iterate Z increment no_where (mkResumableIterator Z (update_rows 150) [])
    = Ok (b, err)
    /\ Z.of_nat (length (keys Z b)) <= 100
    /\ length (docs Z b) = length (keys Z b).
Proof.
  destruct (st_Iterate Z increment no_where
              (mkResumableIterator Z (update_rows 150) []))
    as [[b err] | |] eqn:H; try (vm_compute in H; discriminate).
  exists b, err. split; [reflexivity |].
  exact (Run_buffer_at_most_100 Z increment no_where _ b err H).
Defined.

(** C6, on a table of 100 rows: [UPDATE t SET x = x + 1] without a WHERE
    clause replaces 101 documents; the key of the last row of the first
    buffer is replaced twice and its counter ends at 2, all others at 1. *)
Theorem Run_updates_last_row_of_buffer_twice :
  exists s log,
    Run Z increment no_where 3 (update_rows 100) = Some (Ok (s, log, None))
    /\ length log = 101%nat
    /\ length (filter (fun k => k = update_key 100) log) = 2%nat
    /\ s = ((fun i => (update_key i, 1)) <$> seq 1 99) ++ [(update_key 100, 2)].
Proof.
  eexists _, _. split; [vm_compute; reflexivity |].
  repeat split; vm_compute; reflexivity.
Qed.

End update_scan.

(** ** Casts (document/cast.go) *)

Module casts.
Import go document inputs spec.

Section Casts.

Variable float64_to_int64 : float -> Z.
Variable strconv_ParseInt : string -> option Z.
Variable strconv_ParseFloat : string -> option float.
Variable strconv_ParseBool : string -> option bool.
Variable strconv_AppendInt : Z -> string.
Variable strconv_AppendFloat : float -> ascii -> string.
Variable strconv_Quote : string -> string.
Variable strconv_Unquote : string -> option string.
Variable base64_Encode : list Byte.byte -> string.
Variable base64_DecodeString : string -> option (list Byte.byte).
Variable jsonArray_MarshalJSON : list Value -> res string.
Variable jsonDocument_MarshalJSON : list (string * Value) -> res string.
Variable ValueBuffer_UnmarshalJSON : string -> option (list Value).
Variable FieldBuffer_UnmarshalJSON : string -> option (list (string * Value)).

Local Abbreviation CastAs' :=
  (CastAs float64_to_int64 strconv_ParseInt strconv_ParseFloat
     strconv_ParseBool strconv_AppendInt strconv_AppendFloat strconv_Quote
     strconv_Unquote base64_Encode base64_DecodeString jsonArray_MarshalJSON
     jsonDocument_MarshalJSON ValueBuffer_UnmarshalJSON
     FieldBuffer_UnmarshalJSON).

Ltac cast_cases H :=
  repeat match type of H with
         | (if ?b then _ else _) = _ => destruct b eqn:?
         | match ?x with _ => _ end = _ => destruct x eqn:?
         | bind ?r _ = _ => destruct r eqn:?; simpl in H
         end;
  try discriminate;
  try (injection H as <-; reflexivity).

Lemma CastAsBool_Type v v' :
  CastAsBool strconv_ParseBool v = Ok v' -> Type_ v' = types.BoolValue.
Proof.
  unfold CastAsBool. intros H.
  destruct (Z.eqb_spec (Type_ v) types.BoolValue) as [Ht |];
    [injection H as <-; exact Ht |].
  cast_cases H.
Qed.

Lemma CastAsInteger_Type v v' :
  CastAsInteger float64_to_int64 strconv_ParseInt strconv_ParseFloat v = Ok v' ->
  Type_ v' = types.IntegerValue.
Proof.
  unfold CastAsInteger. intros H.
  destruct (Z.eqb_spec (Type_ v) types.IntegerValue) as [Ht |];
    [injection H as <-; exact Ht |].
  cast_cases H.
Qed.

Lemma CastAsDouble_Type v v' :
  CastAsDouble strconv_ParseFloat v = Ok v' -> Type_ v' = types.DoubleValue.
Proof.
  unfold CastAsDouble. intros H.
  destruct (Z.eqb_spec (Type_ v) types.DoubleValue) as [Ht |];
    [injection H as <-; exact Ht |].
  cast_cases H.
Qed.

Lemma CastAsText_Type v v' :
  CastAsText strconv_AppendInt strconv_AppendFloat strconv_Quote
    strconv_Unquote base64_Encode jsonArray_MarshalJSON
    jsonDocument_MarshalJSON v = Ok v' ->
  Type_ v' = types.TextValue.
Proof.
  unfold CastAsText. intros H.
  destruct (Z.eqb_spec (Type_ v) types.TextValue) as [Ht |];
    [injection H as <-; exact Ht |].
  cast_cases H.
Qed.

Lemma CastAsBlob_Type v v' :
  CastAsBlob base64_DecodeString v = Ok v' -> Type_ v' = types.BlobValue.
Proof.
  unfold CastAsBlob. intros H.
  destruct (Z.eqb_spec (Type_ v) types.BlobValue) as [Ht |];
    [injection H as <-; exact Ht |].
  cast_cases H.
Qed.

Lemma CastAsArray_Type v v' :
  CastAsArray ValueBuffer_UnmarshalJSON v = Ok v' ->
  Type_ v' = types.ArrayValue.
Proof.
  unfold CastAsArray. intros H.
  destruct (Z.eqb_spec (Type_ v) types.ArrayValue) as [Ht |];
    [injection H as <-; exact Ht |].
  cast_cases H.
Qed.

Lemma CastAsDocument_Type v v' :
  CastAsDocument FieldBuffer_UnmarshalJSON v = Ok v' ->
  Type_ v' = types.DocumentValue.
Proof.
  unfold CastAsDocument. intros H.
  destruct (Z.eqb_spec (Type_ v) types.DocumentValue) as [Ht |];
    [injection H as <-; exact Ht |].
  cast_cases H.
Qed.

Lemma CastAs_Type v t v' :
  CastAs' v t = Ok v' ->
  Type_ v' = t \/ (Type_ v = types.NullValue /\ v' = v).
Proof.
  unfold CastAs. intros H.
  destruct (Z.eqb_spec (Type_ v) t) as [Ht |];
    [injection H as <-; now left |].
  destruct (Z.eqb_spec (Type_ v) types.NullValue) as [Hn |];
    [injection H as <-; now right |].
  left.
  repeat match type of H with
         | (if ?t =? ?c then _ else _) = _ =>
             destruct (Z.eqb_spec t c) as [-> |]
         end;
    eauto using CastAsBool_Type, CastAsInteger_Type, CastAsDouble_Type,
      CastAsText_Type, CastAsBlob_Type, CastAsArray_Type, CastAsDocument_Type.
  discriminate.
Qed.

Lemma CastAs_refused v t :
  Type_ v <> t -> Type_ v <> types.NullValue ->
  cast_attempted (Type_ v) t = false ->
  exists e, CastAs' v t = Err e.
Proof.
  intros Ht Hn Hc. unfold CastAs.
  destruct (Z.eqb_spec (Type_ v) t); [contradiction |].
  destruct (Z.eqb_spec (Type_ v) types.NullValue); [contradiction |].
  unfold cast_attempted in Hc.
  unfold CastAsBool, CastAsInteger, CastAsDouble, CastAsBlob, CastAsArray,
    CastAsDocument.
  revert Hc.
  repeat match goal with
         | |- context [t =? ?c] => destruct (Z.eqb_spec t c) as [-> | ?]
         end;
    cbn [orb]; intros Hc; try discriminate;
    repeat match type of Hc with
           | (_ || _) = false => apply orb_false_iff in Hc as [Hc ?]
           end;
    repeat match goal with
           | H : (?a =? ?b) = false |- _ => rewrite H; clear H
           | H : ?a <> ?b |- context [?a =? ?b] =>
               rewrite (proj2 (Z.eqb_neq a b) H)
           end;
    eauto.
Qed.

End Casts.

(** [CastAs] leaves a Null value and a value of the target type as they
    are; when it succeeds the result has the target type, or is the Null
    value it was given, and casting the result again changes nothing. *)
Theorem CastAs_target_type :
  forall f2i pint pfloat pbool aint afloat quote unquote b64e b64d marr mdoc
         uarr udoc,
    let CastAs' := CastAs f2i pint pfloat pbool aint afloat quote unquote
                     b64e b64d marr mdoc uarr udoc in
    (forall v t, Type_ v = types.NullValue -> CastAs' v t = Ok v)
    /\ (forall v, CastAs' v (Type_ v) = Ok v)
    /\ (forall v t v',
          CastAs' v t = Ok v' ->
          (Type_ v' = t \/ (Type_ v = types.NullValue /\ v' = v))
          /\ CastAs' v' t = Ok v').
Proof.
  intros. subst CastAs'. split; [| split].
  - intros v t Hn. unfold CastAs. rewrite Hn.
    destruct (types.NullValue =? t); reflexivity.
  - intros v. unfold CastAs. now rewrite Z.eqb_refl.
  - intros v t v' H. pose proof H as Ht. apply CastAs_Type in Ht.
    split; [exact Ht |].
    destruct Ht as [Ht | [Hn ->]]; [| exact H].
    unfold CastAs. now rewrite Ht, Z.eqb_refl.
Qed.

Lemma CastAs_target_type_witness :
  CastAs0 (NewIntegerValue 5) types.BoolValue = Ok (NewBoolValue true)
  /\ Type_ (NewBoolValue true) = types.BoolValue
  /\ CastAs0 (NewBoolValue true) types.BoolValue = Ok (NewBoolValue true).
Proof.
  assert (H : CastAs0 (NewIntegerValue 5) types.BoolValue
              = Ok (NewBoolValue true)) by reflexivity.
  destruct (CastAs_target_type trunc0 parse_int0 parse_float0 parse_bool0
              print_int0 print_float0 quote0 unquote0 base64_encode0
              base64_decode0 marshal_array0 marshal_document0
              unmarshal_array0 unmarshal_document0) as [_ [_ H3]].
  destruct (H3 (NewIntegerValue 5) types.BoolValue (NewBoolValue true) H)
    as [[Ht | [Hn _]] Hi].
  - split; [exact H |]. split; [exact Ht | exact Hi].
  - discriminate Hn.
Defined.

(** A cast between two different types that [CastAs] does not attempt
    returns an error: to Bool from a Double, Blob, Array or Document; to
    Integer from a Blob, Array or Document; to Double from a Bool, Blob,
    Array or Document; to Blob, Array or Document from anything but a Text;
    and to a type that is none of the eight. *)
Theorem CastAs_refuses :
  forall f2i pint pfloat pbool aint afloat quote unquote b64e b64d marr mdoc
         uarr udoc (v : Value) (t : types.ValueType),
    Type_ v <> t -> Type_ v <> types.NullValue ->
    cast_attempted (Type_ v) t = false ->
    exists e,
      CastAs f2i pint pfloat pbool aint afloat quote unquote b64e b64d marr
        mdoc uarr udoc v t = Err e.
Proof. intros. now apply CastAs_refused. Qed.

Lemma CastAs_refuses_witness :
  exists e, CastAs0 (NewDoubleValue 1.5) types.BlobValue = Err e.
Proof.
  apply (CastAs_refuses trunc0 parse_int0 parse_float0 parse_bool0
           print_int0 print_float0 quote0 unquote0 base64_encode0
           base64_decode0 marshal_array0 marshal_document0
           unmarshal_array0 unmarshal_document0
           (NewDoubleValue 1.5) types.BlobValue);
    [discriminate | discriminate | reflexivity].
Defined.

(** Bool and Integer: a Bool cast to Integer is 1 or 0 and casts back to
    the same Bool; an Integer cast to Bool is true unless it is 0, and
    casts back to 1 or 0. *)
Theorem CastAs_Bool_Integer_round_trip :
  forall f2i pint pfloat pbool aint afloat quote unquote b64e b64d marr mdoc
         uarr udoc,
    let CastAs' := CastAs f2i pint pfloat pbool aint afloat quote unquote
                     b64e b64d marr mdoc uarr udoc in
    (forall b : bool,
        CastAs' (NewBoolValue b) types.IntegerValue
        = Ok (NewIntegerValue (if b then 1 else 0))
        /\ (i <- CastAs' (NewBoolValue b) types.IntegerValue ;;
            CastAs' i types.BoolValue) = Ok (NewBoolValue b))
    /\ (forall x : Z,
          CastAs' (NewIntegerValue x) types.BoolValue
          = Ok (NewBoolValue (negb (x =? 0)))
          /\ (b <- CastAs' (NewIntegerValue x) types.BoolValue ;;
              CastAs' b types.IntegerValue)
             = Ok (NewIntegerValue (if x =? 0 then 0 else 1))).
Proof.
  intros. subst CastAs'. split.
  - intros b. destruct b; split; reflexivity.
  - intros x. split; [reflexivity |].
    cbn. destruct (x =? 0); reflexivity.
Qed.

(** Blob and Text: where unquoting undoes the quotes put around the
    base64 text of a blob, and decoding undoes the encoding, a Blob cast to
    Text is its base64 text, and casting that back gives the same Blob. *)
Theorem CastAs_Blob_Text_round_trip :
  forall f2i pint pfloat pbool aint afloat quote unquote b64e b64d marr mdoc
         uarr udoc (b : list Byte.byte),
    let CastAs' := CastAs f2i pint pfloat pbool aint afloat quote unquote
                     b64e b64d marr mdoc uarr udoc in
    unquote (String dquote (b64e b ++ String dquote EmptyString))
    = Some (b64e b) ->
    b64d (b64e b) = Some b ->
    CastAs' (NewBlobValue b) types.TextValue = Ok (NewTextValue (b64e b))
    /\ (t <- CastAs' (NewBlobValue b) types.TextValue ;;
        CastAs' t types.BlobValue) = Ok (NewBlobValue b).
Proof.
  intros f2i pint pfloat pbool aint afloat quote unquote b64e b64d marr mdoc
    uarr udoc b CastAs' Hq Hd. subst CastAs'.
  assert (H : CastAs f2i pint pfloat pbool aint afloat quote unquote b64e
                b64d marr mdoc uarr udoc (NewBlobValue b) types.TextValue
              = Ok (NewTextValue (b64e b))).
  { unfold CastAs, CastAsText, MarshalJSON. cbn. now rewrite Hq. }
  split; [exact H |]. rewrite H. cbn.
  unfold CastAs, CastAsBlob. cbn. now rewrite Hd.
Qed.

Lemma CastAs_Blob_Text_round_trip_witness :
  let CastAs1 :=
    CastAs trunc0 parse_int0 parse_float0 parse_bool0 print_int0
      print_float0 quote0 unquote1 base64_encode1 base64_decode1
      marshal_array0 marshal_document0 unmarshal_array0
      unmarshal_document0 in
  CastAs1 (NewBlobValue ["a"%byte; "b"%byte]) types.TextValue
  = Ok (NewTextValue "ab")
  /\ (t <- CastAs1 (NewBlobValue ["a"%byte; "b"%byte]) types.TextValue ;;
      CastAs1 t types.BlobValue) = Ok (NewBlobValue ["a"%byte; "b"%byte]).
Proof.
  apply (CastAs_Blob_Text_round_trip trunc0 parse_int0 parse_float0
           parse_bool0 print_int0 print_float0 quote0 unquote1
           base64_encode1 base64_decode1 marshal_array0 marshal_document0
           unmarshal_array0 unmarshal_document0 ["a"%byte; "b"%byte]);
    reflexivity.
Defined.

End casts.

(** ** Arithmetic on well-typed values (document/value.go) *)

Module arithmetic.
Import go document inputs spec int64_facts.

Section Arith.

Variable float64_to_int64 : float -> Z.
Variable math_Mod : float -> float -> float.
Variable strconv_ParseInt : string -> option Z.
Variable strconv_ParseFloat : string -> option float.

Local Abbreviation calc :=
  (calculateValues float64_to_int64 math_Mod strconv_ParseInt strconv_ParseFloat).

Ltac each_operator H :=
  unfold arithmetic_operators in H;
  repeat (destruct H as [<- | H]); [.. | destruct H].

Ltac settle :=
  repeat match goal with
         | |- context [if ?b then _ else _] => destruct b
         end;
  eexists; (split; [reflexivity |]); unfold arithmetic_type; simpl; auto.

Lemma calculateIntegers_Integer (x y : Z) (operator : ascii) :
  In operator arithmetic_operators ->
  exists r,
    calculateIntegers float64_to_int64 strconv_ParseInt strconv_ParseFloat
      (NewIntegerValue x) (NewIntegerValue y) operator = Ok r
    /\ arithmetic_type r.
Proof.
  intros H. each_operator H; unfold calculateIntegers, integers_add; simpl;
    settle.
Qed.

Lemma calculateFloats_numbers (a b : Value) (operator : ascii) :
  In operator arithmetic_operators ->
  (exists x, a = NewIntegerValue x) \/ (exists f, a = NewDoubleValue f) ->
  (exists x, b = NewIntegerValue x) \/ (exists f, b = NewDoubleValue f) ->
  exists r,
    calculateFloats float64_to_int64 math_Mod strconv_ParseFloat a b operator
    = Ok r
    /\ arithmetic_type r.
Proof.
  intros H [[x ->] | [f ->]] [[y ->] | [g ->]];
    each_operator H; unfold calculateFloats; simpl; settle.
Qed.

Lemma well_typed_number (v : Value) :
  well_typed v -> types.IsNumber (Type_ v) = true ->
  (exists x, v = NewIntegerValue x) \/ (exists f, v = NewDoubleValue f).
Proof.
  destruct v as [tp [| b | x | f | l | s | a | d]]; unfold well_typed; simpl;
    intros -> Hn; try discriminate; eauto.
Qed.

Lemma calculateValues_well_typed (a b : Value) (operator : ascii) :
  well_typed a -> well_typed b -> In operator arithmetic_operators ->
  exists r, calc a b operator = Ok r /\ arithmetic_type r.
Proof.
  intros Ha Hb Hop. unfold calculateValues.
  destruct ((Type_ a =? types.NullValue) || (Type_ b =? types.NullValue));
    [eexists; split; [reflexivity | now left] |].
  destruct ((Type_ a =? types.BoolValue) || (Type_ b =? types.BoolValue));
    [eexists; split; [reflexivity | now left] |].
  destruct (types.IsNumber (Type_ a)) eqn:Hna;
    [| eexists; split; [reflexivity | now left]].
  destruct (types.IsNumber (Type_ b)) eqn:Hnb;
    [| eexists; split; [reflexivity | now left]].
  cbn [andb].
  pose proof (well_typed_number a Ha Hna) as Hca.
  pose proof (well_typed_number b Hb Hnb) as Hcb.
  destruct ((Type_ a =? types.DoubleValue) || (Type_ b =? types.DoubleValue))
    eqn:Hd.
  - now apply calculateFloats_numbers.
  - destruct Hca as [[x ->] | [f ->]]; [| discriminate Hd].
    destruct Hcb as [[y ->] | [g ->]]; [| discriminate Hd].
    now apply calculateIntegers_Integer.
Qed.

End Arith.

(** On two well-typed values, none of the eight arithmetic operations
    fails or panics: each returns a value, which is a Null, an Integer or a
    Double. *)
Theorem arithmetic_never_fails :
  forall f2i fmod pint pfloat (a b : Value) (operator : ascii),
    well_typed a -> well_typed b -> In operator arithmetic_operators ->
    exists r,
      calculateValues f2i fmod pint pfloat a b operator = Ok r
      /\ arithmetic_type r.
Proof. intros. now apply calculateValues_well_typed. Qed.

Lemma arithmetic_never_fails_witness :
  exists r,
    calculateValues trunc0 mod0 parse_int0 parse_float0
      (NewTextValue "a") (NewDoubleValue 2.5) "%" = Ok r
    /\ arithmetic_type r.
Proof.
  apply (arithmetic_never_fails trunc0 mod0 parse_int0 parse_float0
           (NewTextValue "a") (NewDoubleValue 2.5) "%"%char).
  - reflexivity.
  - reflexivity.
  - unfold arithmetic_operators. do 4 right. now left.
Defined.

(** Division and remainder of Integers.  A zero divisor gives Null.
    Otherwise [Div] is the quotient truncated toward zero and [Mod] the
    remainder, which has the sign of the dividend; the one quotient that
    does not fit, that of the smallest int64 by -1, is not promoted to a
    Double: the result is the smallest int64 again. *)
Theorem Integer_division :
  forall f2i fmod pint pfloat (x y : Z),
    is_int64 x -> is_int64 y ->
    (y = 0 ->
     Div f2i fmod pint pfloat (NewIntegerValue x) (NewIntegerValue y)
     = Ok NewNullValue
     /\ Mod f2i fmod pint pfloat (NewIntegerValue x) (NewIntegerValue y)
        = Ok NewNullValue)
    /\ (y <> 0 -> ~ (x = MinInt64 /\ y = -1) ->
        Div f2i fmod pint pfloat (NewIntegerValue x) (NewIntegerValue y)
        = Ok (NewIntegerValue (x ÷ y)))
    /\ (x = MinInt64 -> y = -1 ->
        Div f2i fmod pint pfloat (NewIntegerValue x) (NewIntegerValue y)
        = Ok (NewIntegerValue MinInt64))
    /\ (y <> 0 ->
        Mod f2i fmod pint pfloat (NewIntegerValue x) (NewIntegerValue y)
        = Ok (NewIntegerValue (Z.rem x y))
        /\ x = y * (x ÷ y) + Z.rem x y
        /\ Z.abs (Z.rem x y) < Z.abs y
        /\ 0 <= Z.rem x y * x).
Proof.
  intros f2i fmod pint pfloat x y Hx Hy.
  assert (HD : Div f2i fmod pint pfloat (NewIntegerValue x) (NewIntegerValue y)
               = if y =? 0 then Ok NewNullValue
                 else Ok (NewIntegerValue (int64_div x y))) by reflexivity.
  assert (HM : Mod f2i fmod pint pfloat (NewIntegerValue x) (NewIntegerValue y)
               = if y =? 0 then Ok NewNullValue
                 else Ok (NewIntegerValue (int64_rem x y))) by reflexivity.
  rewrite HD, HM. clear HD HM. repeat split.
  - subst y. reflexivity.
  - subst y. reflexivity.
  - intros Hy0 Hedge. rewrite (proj2 (Z.eqb_neq y 0) Hy0).
    unfold int64_div. rewrite wrap64_id_small; [reflexivity |].
    unfold is_int64, MinInt64, MaxInt64 in *.
    assert (Habs : Z.abs (x ÷ y) <= Z.abs x).
    { rewrite <- Z.quot_abs by assumption.
      rewrite Z.quot_div_nonneg by lia.
      apply Z.div_le_upper_bound; [lia | nia]. }
    destruct (Z.eq_dec x (- 2 ^ 63)) as [-> | Hxm]; [| lia].
    assert (Hy1 : y <> -1) by (intros ->; now apply Hedge).
    destruct (Z.eq_dec y 1) as [-> | Hy2]; [rewrite Z.quot_1_r; lia |].
    assert (Hlt : Z.abs (- 2 ^ 63 ÷ y) < 2 ^ 63); [| lia].
    rewrite <- Z.quot_abs by assumption.
    rewrite Z.quot_div_nonneg by lia.
    apply Z.div_lt_upper_bound; [lia |]. change (Z.abs (- 2 ^ 63)) with (2 ^ 63).
    nia.
  - intros -> ->. reflexivity.
  - rewrite (proj2 (Z.eqb_neq y 0) H). reflexivity.
  - apply Z.quot_rem'.
  - now apply Z.rem_bound_abs.
  - now apply Z.rem_sign_mul.
Qed.

Lemma Integer_division_witness :
  Div trunc0 mod0 parse_int0 parse_float0
    (NewIntegerValue (-7)) (NewIntegerValue 2) = Ok (NewIntegerValue (-3))
  /\ Mod trunc0 mod0 parse_int0 parse_float0
       (NewIntegerValue (-7)) (NewIntegerValue 2) = Ok (NewIntegerValue (-1))
  /\ Div trunc0 mod0 parse_int0 parse_float0
       (NewIntegerValue (-7)) (NewIntegerValue 0) = Ok NewNullValue.
Proof.
  assert (H7 : is_int64 (-7)) by (unfold is_int64, MinInt64, MaxInt64; lia).
  assert (H2 : is_int64 2) by (unfold is_int64, MinInt64, MaxInt64; lia).
  assert (H0 : is_int64 0) by (unfold is_int64, MinInt64, MaxInt64; lia).
  destruct (Integer_division trunc0 mod0 parse_int0 parse_float0 (-7) 2 H7 H2)
    as [_ [Hq [_ Hr]]].
  destruct (Integer_division trunc0 mod0 parse_int0 parse_float0 (-7) 0 H7 H0)
    as [Hz _].
  split; [| split].
  - apply Hq; [lia | intros [Hc _]; discriminate Hc].
  - apply Hr. lia.
  - apply Hz. reflexivity.
Defined.

End arithmetic.

(** ** The catalog cache: names, lookups and loading
    (internal/database/catalog.go) *)

Module catalog_cache.
Import go database inputs spec.

Lemma not_is_Some {A} (o : option A) :
  bool_decide (is_Some o) = false -> o = None.
Proof.
  intros H. apply bool_decide_eq_false in H.
  destruct o; [exfalso; apply H; eauto | reflexivity].
Qed.

Lemma is_Some_true {A} (o : option A) :
  bool_decide (is_Some o) = true -> is_Some o.
Proof. apply bool_decide_eq_true. Qed.

(** What a successful [AddTable] did. *)
Lemma AddTable_Ok (c c' : catalogCache) (tx tx' : Transaction) (info : TableInfo) :
  AddTable c tx info = Ok (c', tx') ->
  ~ name_used c (TI_TableName info)
  /\ c' = set_tables c (<[TI_TableName info := info]> (tables c)).
Proof.
  unfold AddTable. intros H.
  destruct (bool_decide (is_Some (tables c !! TI_TableName info))) eqn:H1;
    [discriminate |].
  destruct (bool_decide (is_Some (indexes c !! TI_TableName info))) eqn:H2;
    [discriminate |].
  destruct (bool_decide (is_Some (sequences c !! TI_TableName info))) eqn:H3;
    [discriminate |].
  injection H as <- _. apply not_is_Some in H1, H2, H3.
  split; [| reflexivity].
  unfold name_used. rewrite H1, H2, H3.
  intros [H | [H | H]]; now apply is_Some_None in H.
Qed.

(** What a successful [AddSequence] did. *)
Lemma AddSequence_Ok (c c' : catalogCache) (tx tx' : Transaction)
    (info : SequenceInfo) :
  AddSequence c tx info = Ok (c', tx') ->
  ~ name_used c (Name info)
  /\ c' = set_sequences c (<[Name info := mkSequence info None]> (sequences c)).
Proof.
  unfold AddSequence. intros H.
  destruct (bool_decide (is_Some (sequences c !! Name info))) eqn:H1;
    [discriminate |].
  destruct (bool_decide (is_Some (tables c !! Name info))) eqn:H2;
    [discriminate |].
  destruct (bool_decide (is_Some (indexes c !! Name info))) eqn:H3;
    [discriminate |].
  injection H as <- _. apply not_is_Some in H1, H2, H3.
  split; [| reflexivity].
  unfold name_used. rewrite H1, H2, H3.
  intros [H | [H | H]]; now apply is_Some_None in H.
Qed.

Section IndexNames.

Variable Path_String : Path -> string.

(** What a successful [AddIndex] did. *)
Lemma AddIndex_Ok_cache (c c' : catalogCache) (tx tx' : Transaction)
    (info info' : IndexInfo) :
  AddIndex Path_String c tx info = Ok (info', c', tx') ->
  ~ name_used c (IndexName info')
  /\ TableName info' = TableName info
  /\ is_Some (tables c !! TableName info)
  /\ (IndexName info <> "" -> IndexName info' = IndexName info)
  /\ c' = mkCatalogCache (tables c)
            (<[IndexName info' := info']> (indexes c))
            (<[TableName info :=
                 lookup_list (indexesPerTables c) (TableName info) ++ [info']]>
               (indexesPerTables c))
            (sequences c).
Proof.
  unfold AddIndex. intros H.
  destruct (if String.eqb (IndexName info) ""
            then match generated_index_name Path_String (indexes c) info with
                 | Some name => Ok (set_IndexName info name)
                 | None => Panic "no free index name"
                 end
            else Ok info) as [info1 | |] eqn:Hname; simpl in H;
    try discriminate.
  assert (Hsame : TableName info1 = TableName info
                  /\ (IndexName info <> "" -> IndexName info1 = IndexName info)).
  { destruct (String.eqb_spec (IndexName info) "") as [He | Hne].
    - destruct (generated_index_name Path_String (indexes c) info);
        [| discriminate].
      injection Hname as <-. split; [reflexivity | congruence].
    - injection Hname as <-. split; reflexivity. }
  destruct Hsame as [Ht Hn].
  destruct (bool_decide (is_Some (indexes c !! IndexName info1))) eqn:H1;
    [discriminate |].
  destruct (bool_decide (is_Some (tables c !! IndexName info1))) eqn:H2;
    [discriminate |].
  destruct (bool_decide (is_Some (sequences c !! IndexName info1))) eqn:H3;
    [discriminate |].
  rewrite Ht in H.
  destruct (tables c !! TableName info) as [ti |] eqn:Hti; [| discriminate].
  injection H as <- <- _. simpl. apply not_is_Some in H1, H2, H3.
  repeat split; try assumption; eauto.
  unfold name_used. rewrite H1, H2, H3.
  intros [H | [H | H]]; now apply is_Some_None in H.
Qed.

End IndexNames.

(** What a successful [DeleteIndex] did. *)
Lemma DeleteIndex_Ok (c c' : catalogCache) (tx tx' : Transaction)
    (indexName : string) (info : IndexInfo) :
  DeleteIndex c tx indexName = Ok (info, c', tx') ->
  indexes c !! indexName = Some info
  /\ ConstraintPath info = None
  /\ c' = mkCatalogCache (tables c) (delete indexName (indexes c))
            (<[TableName info :=
                 filter (fun idx => IndexName idx <> indexName)
                        (lookup_list (indexesPerTables c) (TableName info))]>
               (indexesPerTables c))
            (sequences c).
Proof.
  unfold DeleteIndex. intros H.
  destruct (indexes c !! indexName) as [info0 |] eqn:Hi; [| discriminate].
  destruct (bool_decide (is_Some (ConstraintPath info0))) eqn:Hc;
    [discriminate |].
  injection H as <- <- _. apply not_is_Some in Hc. repeat split. exact Hc.
Qed.

(** What a successful [DeleteTable] did. *)
Lemma DeleteTable_Ok (c c' : catalogCache) (tx tx' : Transaction)
    (tableName : string) (ti : TableInfo) (removed : list IndexInfo) :
  DeleteTable c tx tableName = Ok (ti, removed, c', tx') ->
  tables c !! tableName = Some ti
  /\ ReadOnly ti = false
  /\ removed = indexes_of_table (indexes c) tableName
  /\ c' = mkCatalogCache (delete tableName (tables c)) (indexes c)
            (delete tableName (indexesPerTables c)) (sequences c).
Proof.
  unfold DeleteTable. intros H.
  destruct (tables c !! tableName) as [ti0 |] eqn:Ht; [| discriminate].
  destruct (ReadOnly ti0) eqn:Hr; [discriminate |].
  injection H as <- <- <- _. repeat split. exact Hr.
Qed.

(** What a successful [DeleteSequence] did. *)
Lemma DeleteSequence_Ok (c c' : catalogCache) (tx tx' : Transaction)
    (name : string) (seq : Sequence) :
  DeleteSequence c tx name = Ok (seq, c', tx') ->
  sequences c !! name = Some seq
  /\ c' = set_sequences c (delete name (sequences c)).
Proof.
  unfold DeleteSequence. intros H.
  destruct (sequences c !! name) as [seq0 |] eqn:Hs; [| discriminate].
  injection H as <- <- _. split; reflexivity.
Qed.

Lemma names_unique_insert_table (c : catalogCache) (k : string) (ti : TableInfo) :
  names_unique c -> ~ name_used c k ->
  names_unique (set_tables c (<[k := ti]> (tables c))).
Proof.
  intros Hu Hk n. specialize (Hu n). simpl.
  destruct (decide (k = n)) as [<- | Hne].
  - unfold name_used in Hk. split.
    + intros _. split.
      * destruct (indexes c !! k) eqn:E; [exfalso; apply Hk; eauto | reflexivity].
      * destruct (sequences c !! k) eqn:E; [exfalso; apply Hk; eauto | reflexivity].
    + apply Hu.
  - rewrite lookup_insert_ne by exact Hne. exact Hu.
Qed.

Lemma names_unique_insert_index (c : catalogCache) (k : string) (info : IndexInfo)
    (ipt : gmap string (list IndexInfo)) :
  names_unique c -> ~ name_used c k ->
  names_unique (mkCatalogCache (tables c) (<[k := info]> (indexes c)) ipt
                               (sequences c)).
Proof.
  intros Hu Hk n. specialize (Hu n). simpl.
  destruct (decide (k = n)) as [<- | Hne].
  - unfold name_used in Hk. split.
    + intros Ht. exfalso. apply Hk. now left.
    + intros _.
      destruct (sequences c !! k) eqn:E; [exfalso; apply Hk; eauto | reflexivity].
  - rewrite lookup_insert_ne by exact Hne. exact Hu.
Qed.

Lemma names_unique_insert_sequence (c : catalogCache) (k : string) (seq : Sequence) :
  names_unique c -> ~ name_used c k ->
  names_unique (set_sequences c (<[k := seq]> (sequences c))).
Proof.
  intros Hu Hk n. specialize (Hu n). simpl.
  destruct (decide (k = n)) as [<- | Hne].
  - unfold name_used in Hk. split.
    + intros Ht. exfalso. apply Hk. now left.
    + intros Hi. exfalso. apply Hk. right. now left.
  - rewrite lookup_insert_ne by exact Hne. exact Hu.
Qed.

Lemma is_Some_delete {A} (m : gmap string A) (k n : string) :
  is_Some (delete k m !! n) -> is_Some (m !! n).
Proof.
  intros [x Hx]. apply lookup_delete_Some in Hx as [_ Hx]. eauto.
Qed.

Lemma None_delete {A} (m : gmap string A) (k n : string) :
  m !! n = None -> delete k m !! n = None.
Proof. intros H. apply lookup_delete_None. now right. Qed.

Lemma names_unique_delete (c : catalogCache) (kt ki ks : option string)
    (ipt : gmap string (list IndexInfo)) :
  names_unique c ->
  names_unique
    (mkCatalogCache
       (match kt with Some k => delete k (tables c) | None => tables c end)
       (match ki with Some k => delete k (indexes c) | None => indexes c end)
       ipt
       (match ks with Some k => delete k (sequences c) | None => sequences c end)).
Proof.
  intros Hu n. destruct (Hu n) as [H1 H2]. simpl. split.
  - intros Ht.
    assert (Ht' : is_Some (tables c !! n))
      by (destruct kt; [now apply is_Some_delete in Ht | exact Ht]).
    destruct (H1 Ht') as [Hi Hs]. split.
    + destruct ki; [now apply None_delete | exact Hi].
    + destruct ks; [now apply None_delete | exact Hs].
  - intros Hi.
    assert (Hi' : is_Some (indexes c !! n))
      by (destruct ki; [now apply is_Some_delete in Hi | exact Hi]).
    specialize (H2 Hi'). destruct ks; [now apply None_delete | exact H2].
Qed.



Lemma name_used_dec (c : catalogCache) (n : string) :
  name_used c n \/ ~ name_used c n.
Proof.
  unfold name_used.
  destruct (tables c !! n), (indexes c !! n), (sequences c !! n); eauto;
    right; intros [H | [H | H]]; now apply is_Some_None in H.
Qed.

Lemma is_Some_bool_decide {A} (o : option A) :
  is_Some o -> bool_decide (is_Some o) = true.
Proof. intros H. now apply bool_decide_eq_true. Qed.

Lemma not_used_lookups (c : catalogCache) (n : string) :
  ~ name_used c n ->
  tables c !! n = None /\ indexes c !! n = None /\ sequences c !! n = None.
Proof.
  unfold name_used. intros H.
  destruct (tables c !! n), (indexes c !! n), (sequences c !! n);
    try (exfalso; apply H; eauto; fail). auto.
Qed.

Lemma used_cases {A B C} (a : option A) (b : option B) (c : option C) :
  is_Some a \/ is_Some b \/ is_Some c ->
  (if bool_decide (is_Some a) then true
   else if bool_decide (is_Some b) then true
   else bool_decide (is_Some c)) = true.
Proof.
  intros [H | [H | H]]; destruct a, b, c; try reflexivity;
    now apply is_Some_None in H.
Qed.

(** Creating an object.  [AddTable] and [AddSequence] fail with
    AlreadyExists exactly when the name is used by a table, an index or a
    sequence; otherwise they succeed and the object is found under its
    name.  [AddIndex] with a given name fails in the same way, fails with
    TableNotFound when the name is free and the table is missing, and
    otherwise succeeds: the index is found under its name and is the last
    of the indexes of its table, whose other indexes stay in place. *)
Theorem creation_checks_names :
  forall (Path_String : Path -> string) (c : catalogCache) (tx : Transaction),
    (forall info : TableInfo,
        (name_used c (TI_TableName info) ->
         AddTable c tx info = Err (AlreadyExistsError (TI_TableName info)))
        /\ (~ name_used c (TI_TableName info) ->
            exists c' tx',
              AddTable c tx info = Ok (c', tx')
              /\ GetTable c' (TI_TableName info) = Ok info))
    /\ (forall info : SequenceInfo,
          (name_used c (Name info) ->
           AddSequence c tx info = Err (AlreadyExistsError (Name info)))
          /\ (~ name_used c (Name info) ->
              exists c' tx',
                AddSequence c tx info = Ok (c', tx')
                /\ GetSequence c' (Name info) = Ok (mkSequence info None)))
    /\ (forall info : IndexInfo,
          IndexName info <> "" ->
          (name_used c (IndexName info) ->
           AddIndex Path_String c tx info
           = Err (AlreadyExistsError (IndexName info)))
          /\ (~ name_used c (IndexName info) ->
              tables c !! TableName info = None ->
              AddIndex Path_String c tx info = Err ErrTableNotFound)
          /\ (~ name_used c (IndexName info) ->
              is_Some (tables c !! TableName info) ->
              exists info' c' tx',
                AddIndex Path_String c tx info = Ok (info', c', tx')
                /\ IndexName info' = IndexName info
                /\ GetIndex c' (IndexName info) = Ok info'
                /\ GetTableIndexes c' (TableName info)
                   = GetTableIndexes c (TableName info) ++ [info'])).
Proof.
  intros Path_String c tx. refine (conj _ (conj _ _)).
  - intros info. split.
    + intros Hu. unfold AddTable, name_used in *.
      pose proof (used_cases _ _ _ Hu) as Hc.
      repeat match goal with
             | |- context [bool_decide ?P] => destruct (bool_decide P)
             end; try reflexivity; discriminate.
    + intros Hn. apply not_used_lookups in Hn as [H1 [H2 H3]].
      unfold AddTable. rewrite H1, H2, H3. simpl.
      eexists _, _. split; [reflexivity |].
      unfold GetTable. simpl. now rewrite lookup_insert_eq.
  - intros info. split.
    + intros Hu. unfold AddSequence, name_used in *.
      assert (Hu' : is_Some (sequences c !! Name info)
                    \/ is_Some (tables c !! Name info)
                    \/ is_Some (indexes c !! Name info)) by tauto.
      pose proof (used_cases _ _ _ Hu') as Hc.
      repeat match goal with
             | |- context [bool_decide ?P] => destruct (bool_decide P)
             end; try reflexivity; discriminate.
    + intros Hn. apply not_used_lookups in Hn as [H1 [H2 H3]].
      unfold AddSequence. rewrite H1, H2, H3. simpl.
      eexists _, _. split; [reflexivity |].
      unfold GetSequence. simpl. now rewrite lookup_insert_eq.
  - intros info Hname.
    assert (Hstart : AddIndex Path_String c tx info
                     = (if bool_decide (is_Some (indexes c !! IndexName info))
                        then Err (AlreadyExistsError (IndexName info))
                        else if bool_decide (is_Some (tables c !! IndexName info))
                        then Err (AlreadyExistsError (IndexName info))
                        else if bool_decide (is_Some (sequences c !! IndexName info))
                        then Err (AlreadyExistsError (IndexName info))
                        else
                          match tables c !! TableName info with
                          | None => Err ErrTableNotFound
                          | Some ti =>
                              AddIndex Path_String c tx info
                          end)).
    { unfold AddIndex.
      rewrite (proj2 (String.eqb_neq (IndexName info) "") Hname). simpl.
      repeat match goal with
             | |- context [bool_decide ?P] => destruct (bool_decide P)
             end; try reflexivity.
      destruct (tables c !! TableName info); reflexivity. }
    refine (conj _ (conj _ _)).
    + intros Hu. rewrite Hstart. unfold name_used in Hu.
      assert (Hu' : is_Some (indexes c !! IndexName info)
                    \/ is_Some (tables c !! IndexName info)
                    \/ is_Some (sequences c !! IndexName info)) by tauto.
      pose proof (used_cases _ _ _ Hu') as Hc.
      repeat match goal with
             | |- context [bool_decide ?P] => destruct (bool_decide P)
             end; try reflexivity; discriminate.
    + intros Hn Ht. apply not_used_lookups in Hn as [H1 [H2 H3]].
      rewrite Hstart, H1, H2, H3, Ht. reflexivity.
    + intros Hn [ti Hti]. apply not_used_lookups in Hn as [H1 [H2 H3]].
      unfold AddIndex.
      rewrite (proj2 (String.eqb_neq (IndexName info) "") Hname). simpl.
      rewrite H1, H2, H3, Hti. simpl.
      eexists _, _, _. split; [reflexivity |]. simpl.
      split; [reflexivity |]. split.
      * unfold GetIndex. simpl. now rewrite lookup_insert_eq.
      * unfold GetTableIndexes, lookup_list. simpl.
        now rewrite lookup_insert_eq.
Qed.

Lemma creation_checks_names_witness :
  AddTable cache_a_b tx0 ti_b = Err (AlreadyExistsError "b")
  /\ AddIndex path_String0 cache_t tx0
       (mkIndexInfo "missing" "idx" [path_a] false [] [] None)
     = Err ErrTableNotFound.
Proof.
  split.
  - apply (proj1 (proj1 (creation_checks_names path_String0 cache_a_b tx0) ti_b)).
    left. unfold cache_a_b. simpl. rewrite lookup_insert_eq. eauto.
  - apply (proj1 (proj2 (proj2 (proj2 (creation_checks_names path_String0
                                         cache_t tx0))
                          (mkIndexInfo "missing" "idx" [path_a] false [] [] None)
                          ltac:(discriminate)))).
    + intros [H | [H | H]]; simpl in H; now apply is_Some_None in H.
    + reflexivity.
Defined.

(** Dropping an object.  [DeleteTable] fails with TableNotFound on a
    missing table and refuses a read-only one; otherwise the table is no
    longer found, it has no index list, and the result lists the indexes
    that were on it.  [DeleteIndex] fails with IndexNotFound on a missing
    index and refuses one that a constraint requires; otherwise the index
    is no longer found and no index of that name is left in the list of
    its table.  [DeleteSequence] fails with SequenceNotFound on a missing
    sequence; otherwise the sequence is no longer found.  The lists of the
    other tables are not touched. *)
Theorem deletion_checks_and_removes :
  forall (c : catalogCache) (tx : Transaction),
    (forall tableName,
        (tables c !! tableName = None ->
         DeleteTable c tx tableName = Err ErrTableNotFound)
        /\ (forall ti, tables c !! tableName = Some ti -> ReadOnly ti = true ->
             exists e, DeleteTable c tx tableName = Err e)
        /\ (forall ti, tables c !! tableName = Some ti -> ReadOnly ti = false ->
             exists removed c' tx',
               DeleteTable c tx tableName = Ok (ti, removed, c', tx')
               /\ GetTable c' tableName = Err ErrTableNotFound
               /\ GetTableIndexes c' tableName = []
               /\ (forall idx, idx ∈ removed <->
                                (exists k, indexes c !! k = Some idx)
                                /\ TableName idx = tableName)
               /\ (forall t, t <> tableName ->
                    GetTable c' t = GetTable c t
                    /\ GetTableIndexes c' t = GetTableIndexes c t)))
    /\ (forall indexName,
          (indexes c !! indexName = None ->
           DeleteIndex c tx indexName = Err ErrIndexNotFound)
          /\ (forall info, indexes c !! indexName = Some info ->
               is_Some (ConstraintPath info) ->
               exists e, DeleteIndex c tx indexName = Err e)
          /\ (forall info, indexes c !! indexName = Some info ->
               ConstraintPath info = None ->
               exists c' tx',
                 DeleteIndex c tx indexName = Ok (info, c', tx')
                 /\ GetIndex c' indexName = Err ErrIndexNotFound
                 /\ GetTableIndexes c' (TableName info)
                    = filter (fun idx => IndexName idx <> indexName)
                             (GetTableIndexes c (TableName info))
                 /\ (forall t, t <> TableName info ->
                      GetTableIndexes c' t = GetTableIndexes c t)
                 /\ (forall n, n <> indexName ->
                      GetIndex c' n = GetIndex c n)))
    /\ (forall name,
          (sequences c !! name = None ->
           DeleteSequence c tx name = Err ErrSequenceNotFound)
          /\ (forall seq, sequences c !! name = Some seq ->
               exists c' tx',
                 DeleteSequence c tx name = Ok (seq, c', tx')
                 /\ GetSequence c' name = Err ErrSequenceNotFound
                 /\ (forall n, n <> name ->
                      GetSequence c' n = GetSequence c n))).
Proof.
  intros c tx. refine (conj _ (conj _ _)).
  - intros tableName. refine (conj _ (conj _ _)).
    + intros H. unfold DeleteTable. now rewrite H.
    + intros ti H Hr. unfold DeleteTable. rewrite H, Hr. eauto.
    + intros ti H Hr. unfold DeleteTable. rewrite H, Hr.
      eexists _, _, _. split; [reflexivity |].
      unfold GetTable, GetTableIndexes, lookup_list. simpl.
      rewrite !lookup_delete_eq. simpl.
      refine (conj eq_refl (conj eq_refl (conj _ _))).
      * intros idx. unfold indexes_of_table.
        rewrite list_elem_of_filter, list_elem_of_fmap. split.
        -- intros [Ht [[k idx'] [-> Hin]]]. simpl in *. split; [| exact Ht].
           apply elem_of_map_to_list in Hin. eauto.
        -- intros [[k Hi] Ht]. split; [exact Ht |].
           exists (k, idx). split; [reflexivity |].
           now apply elem_of_map_to_list.
      * intros t Ht. now rewrite !lookup_delete_ne by congruence.
  - intros indexName. refine (conj _ (conj _ _)).
    + intros H. unfold DeleteIndex. now rewrite H.
    + intros info H Hc. unfold DeleteIndex. rewrite H.
      rewrite (is_Some_bool_decide _ Hc). eauto.
    + intros info H Hc. unfold DeleteIndex. rewrite H, Hc. simpl.
      eexists _, _. split; [reflexivity |].
      unfold GetIndex, GetTableIndexes, lookup_list. simpl.
      rewrite lookup_delete_eq, lookup_insert_eq. simpl.
      refine (conj eq_refl (conj eq_refl (conj _ _))).
      * intros t Ht. now rewrite lookup_insert_ne by congruence.
      * intros n Hn. now rewrite lookup_delete_ne by congruence.
  - intros name. split.
    + intros H. unfold DeleteSequence. now rewrite H.
    + intros seq H. unfold DeleteSequence. rewrite H.
      eexists _, _. split; [reflexivity |].
      unfold GetSequence. simpl. rewrite lookup_delete_eq.
      split; [reflexivity |].
      intros n Hn. now rewrite lookup_delete_ne by congruence.
Qed.

Lemma deletion_checks_and_removes_witness :
  (exists c' tx',
      DeleteIndex cache_u_idx tx0 "idx_u_b" = Ok (idx_u_b, c', tx')
      /\ GetIndex c' "idx_u_b" = Err ErrIndexNotFound
      /\ GetTableIndexes c' "u" = [])
  /\ DeleteTable cache_u_idx tx0 "v" = Err ErrTableNotFound.
Proof.
  destruct (deletion_checks_and_removes cache_u_idx tx0) as [HT [HI _]].
  split.
  - destruct (proj2 (proj2 (HI "idx_u_b")) idx_u_b eq_refl eq_refl)
      as [c' [tx' [H1 [H2 [H3 _]]]]].
    exists c', tx'. split; [exact H1 |]. split; [exact H2 |].
    change "u" with (TableName idx_u_b). rewrite H3. reflexivity.
  - apply (proj1 (HT "v")). reflexivity.
Defined.

Section IndexNames.

Variable Path_String : Path -> string.
Variable m : gmap string IndexInfo.
Variable info : IndexInfo.

Local Abbreviation cand := (index_name_candidate Path_String info).

Lemma candidate_inj (i j : nat) : cand i = cand j -> i = j.
Proof.
  unfold index_name_candidate. intros H.
  repeat apply (inj (String.app _)) in H.
  now apply (inj pretty) in H.
Qed.

Lemma free_index_name_None (fuel i : nat) :
  free_index_name Path_String fuel m info i = None ->
  forall j, (i <= j < i + fuel)%nat -> is_Some (m !! cand j).
Proof.
  revert i. induction fuel as [| fuel IH]; intros i H j Hj; [lia |].
  simpl in H. fold (cand i) in H.
  destruct (bool_decide (is_Some (m !! cand i))) eqn:Hb; [| discriminate].
  apply bool_decide_eq_true in Hb.
  destruct (decide (j = i)) as [-> | Hne]; [exact Hb |].
  apply (IH (S i) H). lia.
Qed.

Lemma free_index_name_Some (fuel i : nat) (name : string) :
  free_index_name Path_String fuel m info i = Some name ->
  exists k, (i <= k)%nat /\ name = cand k /\ m !! name = None
            /\ forall j, (i <= j < k)%nat -> is_Some (m !! cand j).
Proof.
  revert i. induction fuel as [| fuel IH]; intros i H; [discriminate |].
  simpl in H. fold (cand i) in H.
  destruct (bool_decide (is_Some (m !! cand i))) eqn:Hb.
  - apply bool_decide_eq_true in Hb.
    destruct (IH (S i) H) as [k [Hk [-> [Hfree Hbelow]]]].
    exists k. repeat split; [lia | exact Hfree |].
    intros j Hj. destruct (decide (j = i)) as [-> | Hne]; [exact Hb |].
    apply Hbelow. lia.
  - injection H as <-. exists i. repeat split; [lia | | intros j Hj; lia].
    now apply not_is_Some.
Qed.

Lemma candidates_not_all_used (n : nat) :
  (size m < n)%nat ->
  ~ forall j, (1 <= j < 1 + n)%nat -> is_Some (m !! cand j).
Proof.
  intros Hn Hall.
  set (l := cand <$> seq 1 n).
  assert (Hnd : NoDup l).
  { apply NoDup_fmap_2; [intros x y; apply candidate_inj | apply NoDup_seq]. }
  assert (Hsub : (list_to_set l : gset string) ⊆ dom m).
  { intros x Hx. apply elem_of_list_to_set in Hx.
    apply list_elem_of_fmap in Hx as [j [-> Hj]].
    apply elem_of_seq in Hj. apply elem_of_dom. apply Hall. lia. }
  apply subseteq_size in Hsub.
  rewrite size_list_to_set in Hsub by exact Hnd.
  rewrite size_dom in Hsub. unfold l in Hsub.
  rewrite length_fmap, length_seq in Hsub. lia.
Qed.

Lemma generated_index_name_free :
  exists name,
    generated_index_name Path_String m info = Some name
    /\ m !! name = None
    /\ ((name = index_name_base Path_String info)
        \/ (is_Some (m !! index_name_base Path_String info)
            /\ exists k, (1 <= k)%nat /\ name = cand k
                         /\ forall j, (1 <= j < k)%nat -> is_Some (m !! cand j))).
Proof.
  unfold generated_index_name. fold (index_name_base Path_String info).
  destruct (bool_decide (is_Some (m !! index_name_base Path_String info)))
    eqn:Hb.
  - apply bool_decide_eq_true in Hb.
    destruct (free_index_name Path_String (S (size m)) m info 1)
      as [name |] eqn:Hf.
    + destruct (free_index_name_Some _ _ _ Hf) as [k [Hk [-> [Hfree Hbelow]]]].
      exists (cand k). repeat split; [exact Hfree |]. right. eauto.
    + exfalso. apply (candidates_not_all_used (S (size m))); [lia |].
      intros j Hj. apply (free_index_name_None _ _ Hf). lia.
  - apply not_is_Some in Hb. eauto.
Qed.

End IndexNames.

(** The name that [AddIndex] generates for an index without a name.  The
    search for a free name ends: the name is [table_paths_idx] when no index
    has that name, and otherwise [table_paths_idx] followed by the least
    number from 1 on that gives a name no index has. *)
Theorem generated_index_name_is_fresh :
  forall (Path_String : Path -> string) (m : gmap string IndexInfo)
         (info : IndexInfo),
    exists name,
      generated_index_name Path_String m info = Some name
      /\ m !! name = None
      /\ ((name = index_name_base Path_String info)
          \/ (is_Some (m !! index_name_base Path_String info)
              /\ exists k, (1 <= k)%nat
                  /\ name = index_name_candidate Path_String info k
                  /\ forall j, (1 <= j < k)%nat ->
                       is_Some (m !! index_name_candidate Path_String info j))).
Proof. intros. apply generated_index_name_free. Qed.

Lemma last_named_cons {A} (key : A -> string) (n : string) (x : A) (l : list A) :
  last_named key n (x :: l)
  = match last_named key n l with
    | Some y => Some y
    | None => if decide (key x = n) then Some x else None
    end.
Proof.
  unfold last_named. rewrite filter_cons.
  destruct (decide (key x = n)); [| now destruct (last _)].
  destruct (filter (fun x => key x = n) l) as [| y l'] eqn:E; [reflexivity |].
  rewrite last_cons. now destruct (last (y :: l')).
Qed.

Lemma fold_insert_lookup {A} (key : A -> string) (l : list A) :
  forall (m0 : gmap string A) (n : string),
    fold_left (fun m x => <[key x := x]> m) l m0 !! n
    = match last_named key n l with
      | Some x => Some x
      | None => m0 !! n
      end.
Proof.
  induction l as [| x l IH]; intros m0 n; [reflexivity |].
  cbn [fold_left]. rewrite IH, last_named_cons.
  destruct (last_named key n l); [reflexivity |].
  destruct (decide (key x = n)) as [<- | Hne].
  - apply lookup_insert_eq.
  - now apply lookup_insert_ne.
Qed.

Lemma load_tables_fold (l : list TableInfo) :
  forall c,
    fold_left (fun c ti => set_tables c (<[TI_TableName ti := ti]> (tables c))) l c
    = set_tables c (fold_left (fun m ti => <[TI_TableName ti := ti]> m) l (tables c)).
Proof.
  induction l as [| ti l IH]; intros c; simpl.
  - now destruct c.
  - now rewrite IH.
Qed.

Lemma load_sequences_fold (l : list Sequence) :
  forall c,
    fold_left
      (fun c seq => set_sequences c (<[Name (Info seq) := seq]> (sequences c))) l c
    = set_sequences c
        (fold_left (fun m seq => <[Name (Info seq) := seq]> m) l (sequences c)).
Proof.
  induction l as [| seq l IH]; intros c; simpl.
  - now destruct c.
  - now rewrite IH.
Qed.

Lemma load_indexes_fold (l : list IndexInfo) :
  forall c c',
    c' = fold_left
           (fun c idx =>
              let c := set_indexes c (<[IndexName idx := idx]> (indexes c)) in
              set_indexesPerTables c
                (<[TableName idx :=
                     lookup_list (indexesPerTables c) (TableName idx) ++ [idx]]>
                   (indexesPerTables c))) l c ->
    tables c' = tables c /\ sequences c' = sequences c
    /\ indexes c' = fold_left (fun m idx => <[IndexName idx := idx]> m) l (indexes c)
    /\ forall t, lookup_list (indexesPerTables c') t
                 = lookup_list (indexesPerTables c) t
                   ++ filter (fun idx => TableName idx = t) l.
Proof.
  intros c c' ->.
  match goal with |- context [fold_left ?g l c] => set (f := g) end.
  revert c. induction l as [| idx l IH]; intros c.
  - simpl. repeat split. intros t. now rewrite app_nil_r.
  - cbn [fold_left].
    destruct (IH (f c idx)) as [Ht [Hs [Hi Hp]]].
    rewrite Ht, Hs, Hi.
    refine (conj eq_refl (conj eq_refl (conj eq_refl _))).
    intros t. rewrite Hp. rewrite filter_cons.
    unfold f, lookup_list at 1. simpl.
    destruct (decide (TableName idx = t)) as [<- | Hne].
    + rewrite lookup_insert_eq. simpl. now rewrite <- app_assoc.
    + now rewrite lookup_insert_ne by exact Hne.
Qed.

(** Loading.  After [load] into an empty cache, a table, an index or a
    sequence is found under a name exactly when one of that name was
    loaded, and it is the last one loaded under that name; the indexes of a
    table are the loaded indexes of that table, in the order of the
    load. *)
Theorem load_then_lookup :
  forall (tables_ : list TableInfo) (indexes_ : list IndexInfo)
         (sequences_ : list Sequence) (n : string),
    let c := load newCatalogCache tables_ indexes_ sequences_ in
    GetTable c n
    = match last_named TI_TableName n tables_ with
      | Some ti => Ok ti
      | None => Err ErrTableNotFound
      end
    /\ GetIndex c n
       = match last_named IndexName n indexes_ with
         | Some idx => Ok idx
         | None => Err ErrIndexNotFound
         end
    /\ GetSequence c n
       = match last_named (fun seq => Name (Info seq)) n sequences_ with
         | Some seq => Ok seq
         | None => Err ErrSequenceNotFound
         end
    /\ GetTableIndexes c n = filter (fun idx => TableName idx = n) indexes_.
Proof.
  intros tables_ indexes_ sequences_ n c. subst c. unfold load.
  set (c1 := fold_left _ tables_ newCatalogCache).
  set (c2 := fold_left _ indexes_ c1).
  rewrite load_sequences_fold.
  destruct (load_indexes_fold indexes_ c1 c2 eq_refl) as [Ht [Hs [Hi Hp]]].
  assert (Hc1 : c1 = set_tables newCatalogCache
                       (fold_left (fun m ti => <[TI_TableName ti := ti]> m)
                                  tables_ (tables newCatalogCache)))
    by apply load_tables_fold.
  clearbody c2. rewrite Hc1 in Ht, Hs, Hi, Hp. clear Hc1. clearbody c1.
  unfold GetTable, GetIndex, GetSequence, GetTableIndexes.
  cbn [tables indexes sequences indexesPerTables set_sequences].
  rewrite Ht, Hs, Hi, Hp.
  cbn [tables indexes sequences indexesPerTables set_tables newCatalogCache].
  rewrite !fold_insert_lookup, !lookup_empty.
  unfold lookup_list. rewrite lookup_empty. simpl.
  refine (conj _ (conj _ (conj _ eq_refl))).
  - now destruct (last_named TI_TableName n tables_).
  - now destruct (last_named IndexName n indexes_).
  - now destruct (last_named (fun seq => Name (Info seq)) n sequences_).
Qed.

Lemma load_tables (c : catalogCache) (tables_ : list TableInfo)
    (indexes_ : list IndexInfo) (sequences_ : list Sequence) :
  tables (load c tables_ indexes_ sequences_)
  = fold_left (fun m ti => <[TI_TableName ti := ti]> m) tables_ (tables c).
Proof.
  unfold load.
  set (c1 := fold_left _ tables_ c).
  set (c2 := fold_left _ indexes_ c1).
  rewrite load_sequences_fold.
  destruct (load_indexes_fold indexes_ c1 c2 eq_refl) as [Ht _].
  cbn [tables set_sequences]. rewrite Ht. unfold c1.
  now rewrite load_tables_fold.
Qed.

(** [Catalog.Load] on a new catalog puts the catalog table and the
    sequence table in the cache, whatever was loaded under their names;
    the catalog table is read-only there: [DeleteTable] and [updateTable]
    refuse it, and a table of its name cannot be added. *)
Theorem Load_makes_catalog_table_read_only :
  forall (schema sequence : TableInfo) (tables_ : list TableInfo)
         (indexes_ : list IndexInfo) (sequences_ : list Sequence)
         (tx : Transaction) (fn : TableInfo -> res TableInfo)
         (info : TableInfo),
    TI_TableName sequence <> TI_TableName schema ->
    TI_TableName info = TI_TableName schema ->
    let c := cache (Catalog_Load (NewCatalog schema sequence)
                      tables_ indexes_ sequences_) in
    GetTable c (TI_TableName schema) = Ok (set_ReadOnly schema true)
    /\ GetTable c (TI_TableName sequence) = Ok sequence
    /\ DeleteTable c tx (TI_TableName schema)
       = Err (errorString "cannot write to read-only table")
    /\ updateTable c tx (TI_TableName schema) fn
       = Err (errorString "cannot write to read-only table")
    /\ AddTable c tx info = Err (AlreadyExistsError (TI_TableName schema)).
Proof.
  intros schema sequence tables_ indexes_ sequences_ tx fn info Hne Hinfo c.
  assert (Hs : tables c !! TI_TableName schema = Some (set_ReadOnly schema true)).
  { subst c. unfold Catalog_Load, NewCatalog. cbn [cache SchemaTable_info
      SequenceTable_info]. rewrite load_tables.
    rewrite !fold_left_app. cbn [fold_left].
    rewrite lookup_insert_ne by exact Hne.
    change (TI_TableName schema) with (TI_TableName (set_ReadOnly schema true))
      at 1.
    apply lookup_insert_eq. }
  assert (Hq : tables c !! TI_TableName sequence = Some sequence).
  { subst c. unfold Catalog_Load, NewCatalog. cbn [cache SchemaTable_info
      SequenceTable_info]. rewrite load_tables.
    rewrite !fold_left_app. cbn [fold_left]. apply lookup_insert_eq. }
  clearbody c.
  unfold GetTable, DeleteTable, updateTable, AddTable.
  rewrite Hinfo, Hs, Hq. cbn [ReadOnly set_ReadOnly].
  refine (conj eq_refl (conj eq_refl (conj eq_refl (conj eq_refl _)))).
  rewrite bool_decide_eq_true_2; [reflexivity | eauto].
Qed.

Lemma Load_makes_catalog_table_read_only_witness :
  let c := cache (Catalog_Load (NewCatalog NewCatalogTable_info ti_sequence)
                    [ti_t; ti_impostor] [] []) in
  GetTable c CatalogTableName = Ok (set_ReadOnly NewCatalogTable_info true)
  /\ DeleteTable c tx0 CatalogTableName
     = Err (errorString "cannot write to read-only table").
Proof.
  destruct (Load_makes_catalog_table_read_only NewCatalogTable_info
              ti_sequence [ti_t; ti_impostor] [] [] tx0 Ok ti_impostor)
    as [H1 [_ [H3 _]]]; [discriminate | reflexivity |].
  split; [exact H1 | exact H3].
Defined.

End catalog_cache.

(** ** One pass of UPDATE (sql/query/update.go) *)

Module update_pass.
Import go query inputs spec.

Section Update.

Variable Document : Type.
Variable set_or_unset : Document -> res Document.
Variable whereClause : Document -> bool.

Lemma Seek_nil (s : Store Document) : Seek Document s [] = s.
Proof.
  destruct s as [| [k d] s]; [reflexivity |].
  simpl. now destruct k.
Qed.

Lemma matching_cons (k : list Byte.byte) (d : Document) (s : Store Document) :
  matching_rows whereClause ((k, d) :: s)
  = if whereClause d then (k, d) :: matching_rows whereClause s else matching_rows whereClause s.
Proof.
  unfold matching_rows. rewrite filter_cons. simpl.
  destruct (whereClause d); [now rewrite decide_True | now rewrite decide_False].
Qed.

Lemma matching_app (s t : Store Document) :
  matching_rows whereClause (s ++ t) = matching_rows whereClause s ++ matching_rows whereClause t.
Proof. apply filter_app. Qed.

(** The scan of a pass whose matching_rows whereClause rows all update and fit in the
    buffer: it buffers them all. *)
Lemma st_Iterate_from_all (items : Store Document) :
  forall b : buffers Document,
    clause_succeeds set_or_unset whereClause items ->
    Z.of_nat (length (keys Document b))
    + Z.of_nat (length (matching_rows whereClause items)) <= updateBufferSize ->
    exists ds,
      st_Iterate_from Document set_or_unset whereClause items b
      = Ok (mkBuffers Document
              (keys Document b ++ (fst <$> matching_rows whereClause items))
              (docs Document b ++ ds), None)
      /\ Forall2 (fun kv d' => set_or_unset (snd kv) = Ok d')
                 (matching_rows whereClause items) ds.
Proof.
  induction items as [| [k d] items IH]; intros b Hok Hlen.
  - exists []. simpl. rewrite !app_nil_r. split; [now destruct b | constructor].
  - apply Forall_cons in Hok as [Hd Hok].
    rewrite matching_cons in *. simpl. simpl in Hd.
    destruct (whereClause d) eqn:Hw.
    + destruct (Hd eq_refl) as [d' Hd'].
      simpl in Hlen.
      destruct (Z.ltb_spec (Z.of_nat (length (keys Document b)))
                  updateBufferSize) as [_ | Hge]; [| lia].
      unfold Run_fn. rewrite Hd'. simpl.
      destruct (IH (mkBuffers Document (keys Document b ++ [k])
                      (docs Document b ++ [d']))) as [ds [H1 H2]];
        [exact Hok | simpl; rewrite length_app; simpl; lia |].
      exists (d' :: ds). simpl in H1. rewrite H1.
      rewrite <- !app_assoc. simpl. split; [reflexivity |].
      constructor; [exact Hd' | exact H2].
    + apply IH; assumption.
Qed.

(** The scan of a pass that meets a row on which the clause fails: it
    stops there with the error, the rows before it buffered. *)
Lemma st_Iterate_from_fails (pre : Store Document) :
  forall (b : buffers Document) (k : list Byte.byte) (d : Document)
         (post : Store Document) (e : error),
    clause_succeeds set_or_unset whereClause pre ->
    whereClause d = true -> set_or_unset d = Err e ->
    Z.of_nat (length (keys Document b))
    + Z.of_nat (length (matching_rows whereClause pre)) < updateBufferSize ->
    exists ds,
      st_Iterate_from Document set_or_unset whereClause
        (pre ++ (k, d) :: post) b
      = Ok (mkBuffers Document
              (keys Document b ++ (fst <$> matching_rows whereClause pre))
              (docs Document b ++ ds), Some e)
      /\ Forall2 (fun kv d' => set_or_unset (snd kv) = Ok d')
                 (matching_rows whereClause pre) ds.
Proof.
  induction pre as [| [k0 d0] pre IH]; intros b k d post e Hok Hw He Hlen.
  - exists []. simpl. rewrite Hw, !app_nil_r.
    simpl in Hlen.
    destruct (Z.ltb_spec (Z.of_nat (length (keys Document b)))
                updateBufferSize) as [_ | Hge]; [| lia].
    unfold Run_fn. rewrite He. simpl.
    split; [now destruct b | constructor].
  - apply Forall_cons in Hok as [Hd Hok].
    rewrite matching_cons in *. simpl. simpl in Hd.
    destruct (whereClause d0) eqn:Hw0.
    + destruct (Hd eq_refl) as [d' Hd'].
      simpl in Hlen.
      destruct (Z.ltb_spec (Z.of_nat (length (keys Document b)))
                  updateBufferSize) as [_ | Hge]; [| lia].
      unfold Run_fn at 1. rewrite Hd'. simpl.
      destruct (IH (mkBuffers Document (keys Document b ++ [k0])
                      (docs Document b ++ [d'])) k d post e)
        as [ds [H1 H2]];
        [exact Hok | exact Hw | exact He
        | simpl; rewrite length_app; simpl; lia |].
      exists (d' :: ds). simpl in H1. rewrite H1.
      rewrite <- !app_assoc. simpl. split; [reflexivity |].
      constructor; [exact Hd' | exact H2].
    + now apply IH.
Qed.

Lemma Replace_middle (pre : Store Document) :
  forall (k : list Byte.byte) (d0 d : Document) (post : Store Document),
    k ∉ (fst <$> pre) ->
    Replace Document (pre ++ (k, d0) :: post) k d
    = Ok (pre ++ (k, d) :: post).
Proof.
  induction pre as [| [k' d'] pre IH]; intros k d0 d post Hk; simpl.
  - now rewrite (proj2 (range_membership.bytes_Compare_eq k k) eq_refl).
  - rewrite fmap_cons in Hk. apply not_elem_of_cons in Hk as [Hne Hk]. simpl in Hne.
    destruct (Z.eqb_spec (bytes_Compare k' k) 0) as [H0 | _].
    + apply range_membership.bytes_Compare_eq in H0. congruence.
    + now rewrite IH.
Qed.

(** The replacements of a pass: each buffered row is replaced where it
    is, and the rest of the table is not touched. *)
Lemma Run_replace_rows (rest : Store Document) :
  forall (done tail : Store Document) (ds : list Document)
         (log : list (list Byte.byte)),
    NoDup (fst <$> (done ++ rest)) ->
    Forall2 (fun kv d' => set_or_unset (snd kv) = Ok d') (matching_rows whereClause rest) ds ->
    exists rest',
      Run_replace Document (done ++ rest ++ tail) (fst <$> matching_rows whereClause rest) ds log
      = Ok (done ++ rest' ++ tail, log ++ (fst <$> matching_rows whereClause rest))
      /\ updated_rows set_or_unset whereClause rest rest'.
Proof.
  induction rest as [| [k d] rest IH]; intros done tail ds log Hnd Hds.
  - exists []. simpl. rewrite app_nil_r. split; [| constructor].
    now destruct ds.
  - rewrite matching_cons in *.
    assert (Hk : k ∉ (fst <$> done)).
    { rewrite fmap_app in Hnd. apply NoDup_app in Hnd as [_ [Hnd _]].
      intros Hin. apply (Hnd k Hin). rewrite fmap_cons. simpl. left. }
    destruct (whereClause d) eqn:Hw.
    + inversion Hds as [| kv d' ms ds' Hd' Hds' E1 E2]; subst. simpl in Hd'.
      rewrite fmap_cons. simpl.
      rewrite (Replace_middle done k d d' (rest ++ tail) Hk). simpl.
      destruct (IH (done ++ [(k, d')]) tail ds' (log ++ [k]))
        as [rest' [H1 H2]]; [| exact Hds' |].
      { rewrite <- app_assoc. simpl.
        rewrite fmap_app, fmap_cons in *. exact Hnd. }
      rewrite <- app_assoc in H1. simpl in H1. rewrite H1.
      exists ((k, d') :: rest'). rewrite <- !app_assoc. simpl.
      split; [reflexivity |].
      constructor; [| exact H2]. simpl. now rewrite Hw.
    + destruct (IH (done ++ [(k, d)]) tail ds log) as [rest' [H1 H2]];
        [| exact Hds |].
      { now rewrite <- app_assoc. }
      rewrite <- app_assoc in H1. simpl in H1. simpl. rewrite H1.
      exists ((k, d) :: rest'). rewrite <- !app_assoc. simpl.
      split; [reflexivity |].
      constructor; [| exact H2]. simpl. now rewrite Hw.
Qed.

End Update.





End update_pass.

(** ** The SUM, AVG, MIN and MAX aggregators over a document iterator *)

Module aggregators.
Import go document functions inputs spec.

#[local] Arguments wrap64 : simpl never.
#[local] Arguments float64_of_int64 : simpl never.

Lemma wrap64_add_l (a b : Z) : wrap64 (wrap64 a + b) = wrap64 (a + b).
Proof.
  destruct (integer_overflow.wrap64_decompose a) as [k Hk].
  destruct (integer_overflow.wrap64_decompose (a + b)) as [j Hj].
  rewrite Hk, Hj.
  rewrite (integer_overflow.wrap64_eq (a - k * 2 ^ 64 + b) (j - k)); [ring |].
  replace (a - k * 2 ^ 64 + b - (j - k) * 2 ^ 64) with (a + b - j * 2 ^ 64)
    by ring.
  rewrite <- Hj. apply integer_overflow.wrap64_range.
Qed.

Lemma numbers_cons (v : Value) (vals : list Value) :
  numbers (v :: vals)
  = if types.IsNumber (Type_ v) then v :: numbers vals else numbers vals.
Proof.
  unfold numbers. rewrite filter_cons.
  destruct (types.IsNumber (Type_ v));
    [now rewrite decide_True | now rewrite decide_False].
Qed.

Lemma evaluates_no_error (e : Expr) (env : Environment) :
  snd (e env) = None \/ snd (e env) = Some ErrFieldNotFound ->
  bool_decide (snd (e env) <> None)
  && bool_decide (snd (e env) <> Some ErrFieldNotFound) = false.
Proof. intros [-> | ->]; reflexivity. Qed.

(** One call of [SumAggregator.Aggregate]. *)
Lemma SumAggregator_Aggregate_step (fn : SumFunc) (oi : option Z)
    (osf : option float) (env : Environment) :
  let v := fst (SumFunc_Expr fn env) in
  snd (SumFunc_Expr fn env) = None
  \/ snd (SumFunc_Expr fn env) = Some ErrFieldNotFound ->
  well_typed v ->
  SumAggregator_Aggregate (mkSumAggregator fn oi osf) env
  = Ok (match V v, osf with
        | iint64 x, Some f =>
            mkSumAggregator fn oi (Some (f + float64_of_int64 x)%float)
        | iint64 x, None =>
            mkSumAggregator fn (Some (wrap64 (default 0 oi + x))) None
        | ifloat64 x, Some f => mkSumAggregator fn oi (Some (f + x)%float)
        | ifloat64 x, None =>
            mkSumAggregator fn oi
              (Some (match oi with
                     | Some i => float64_of_int64 i
                     | None => 0
                     end + x)%float)
        | _, _ => mkSumAggregator fn oi osf
        end, None).
Proof.
  intros v He Hv. subst v. unfold SumAggregator_Aggregate.
  cbn [Sum_Fn SumF SumI].
  pose proof (evaluates_no_error _ _ He) as Hb.
  destruct (SumFunc_Expr fn env) as [v err]. cbn [fst snd] in *.
  rewrite Hb.
  destruct v as [tp [| b | x | f | l | s | a | d]]; unfold well_typed in Hv;
    cbn in Hv; subst tp; destruct osf as [f0 |], oi as [i |]; reflexivity.
Qed.

Section Sum.

Variable fn : SumFunc.

Lemma evaluates_cons (e : Expr) (d : list (string * Value))
    (docs : list (list (string * Value))) :
  evaluates e (document_rows (d :: docs)) ->
  (snd (e (mkEnvironment (Some d))) = None
   \/ snd (e (mkEnvironment (Some d))) = Some ErrFieldNotFound)
  /\ evaluates e (document_rows docs).
Proof.
  unfold evaluates, document_rows. rewrite fmap_cons.
  intros H. now apply Forall_cons in H.
Qed.

(** Once a Double was met, the sum is a float64 sum. *)
Lemma Sum_float_phase (docs : list (list (string * Value))) :
  forall (oi : option Z) (f : float),
    evaluates (SumFunc_Expr fn) (document_rows docs) ->
    Forall well_typed (row_values (SumFunc_Expr fn) docs) ->
    stream.documentIterator_Iterate docs SumAggregator_Aggregate
      (mkSumAggregator fn oi (Some f))
    = Ok (mkSumAggregator fn oi
            (Some (float_sum f (numbers (row_values (SumFunc_Expr fn) docs)))),
          None).
Proof.
  induction docs as [| d docs IH]; intros oi f Hev Hwt; [reflexivity |].
  apply evaluates_cons in Hev as [He Hev].
  unfold row_values in *. rewrite fmap_cons in *.
  apply Forall_cons in Hwt as [Hv Hwt].
  cbn [stream.documentIterator_Iterate].
  rewrite (SumAggregator_Aggregate_step fn oi (Some f) _ He Hv).
  rewrite numbers_cons. cbn [bind].
  destruct (fst (SumFunc_Expr fn (mkEnvironment (Some d))))
    as [tp [| b | x | f0 | l | s | a | dd]]; unfold well_typed in Hv;
    cbn in Hv; subst tp; cbn; now rewrite IH.
Qed.

(** While only Integers are met, the sum is an int64 sum. *)
Lemma Sum_int_phase (docs : list (list (string * Value))) :
  forall (oi : option Z) (ints : list Z),
    evaluates (SumFunc_Expr fn) (document_rows docs) ->
    Forall well_typed (row_values (SumFunc_Expr fn) docs) ->
    numbers (row_values (SumFunc_Expr fn) docs) = NewIntegerValue <$> ints ->
    stream.documentIterator_Iterate docs SumAggregator_Aggregate
      (mkSumAggregator fn oi None)
    = Ok (mkSumAggregator fn
            (match ints with
             | [] => oi
             | _ :: _ => Some (wrap64 (default 0 oi + Zsum ints))
             end) None, None).
Proof.
  induction docs as [| d docs IH]; intros oi ints Hev Hwt Hn.
  - destruct ints; [reflexivity | discriminate].
  - apply evaluates_cons in Hev as [He Hev].
    unfold row_values in *. rewrite fmap_cons in *.
    apply Forall_cons in Hwt as [Hv Hwt].
    cbn [stream.documentIterator_Iterate].
    rewrite (SumAggregator_Aggregate_step fn oi None _ He Hv).
    rewrite numbers_cons in Hn. cbn [bind].
    destruct (fst (SumFunc_Expr fn (mkEnvironment (Some d))))
      as [tp [| b | x | f0 | l | s | a | dd]]; unfold well_typed in Hv;
      cbn in Hv; subst tp; cbn in Hn |- *;
      try (now apply IH).
    + destruct ints as [| y ints]; [discriminate |].
      rewrite fmap_cons in Hn. injection Hn as -> Hn.
      rewrite (IH _ ints Hev Hwt Hn). do 3 f_equal.
      destruct ints as [| z ints].
      * unfold Zsum. simpl. now rewrite Z.add_0_r.
      * cbn [from_option id]. rewrite wrap64_add_l. f_equal. f_equal.
        unfold Zsum. simpl. ring.
    + destruct ints; discriminate.
Qed.

(** Integers, then a Double, then numbers. *)
Lemma Sum_mixed (docs : list (list (string * Value))) :
  forall (oi : option Z) (ints : list Z) (f : float) (rest : list Value),
    (forall i, oi = Some i -> is_int64 i) ->
    evaluates (SumFunc_Expr fn) (document_rows docs) ->
    Forall well_typed (row_values (SumFunc_Expr fn) docs) ->
    numbers (row_values (SumFunc_Expr fn) docs)
    = (NewIntegerValue <$> ints) ++ NewDoubleValue f :: rest ->
    exists oi',
      stream.documentIterator_Iterate docs SumAggregator_Aggregate
      (mkSumAggregator fn oi None)
      = Ok (mkSumAggregator fn oi'
              (Some (float_sum
                       (match oi, ints with
                        | None, [] => 0%float
                        | _, _ => float64_of_int64
                                    (wrap64 (default 0 oi + Zsum ints)%Z)
                        end + f)%float rest)), None).
Proof.
  induction docs as [| d docs IH]; intros oi ints f rest Hoi Hev Hwt Hn.
  - destruct ints; discriminate.
  - apply evaluates_cons in Hev as [He Hev].
    unfold row_values in *. rewrite fmap_cons in *.
    apply Forall_cons in Hwt as [Hv Hwt].
    cbn [stream.documentIterator_Iterate].
    rewrite (SumAggregator_Aggregate_step fn oi None _ He Hv).
    rewrite numbers_cons in Hn. cbn [bind].
    destruct (fst (SumFunc_Expr fn (mkEnvironment (Some d))))
      as [tp [| b | x | f0 | l | s | a | dd]]; unfold well_typed in Hv;
      cbn in Hv; subst tp; cbn in Hn |- *;
      try (now apply IH).
    + destruct ints as [| y ints]; [discriminate |].
      rewrite fmap_cons in Hn. cbn in Hn. injection Hn as -> Hn.
      destruct (IH (Some (wrap64 (default 0 oi + y))) ints f rest)
        as [oi' H]; [| exact Hev | exact Hwt | exact Hn |].
      { intros i Hi. injection Hi as <-. apply integer_overflow.wrap64_range. }
      exists oi'. rewrite H. do 5 f_equal.
      cbn [from_option id]. rewrite wrap64_add_l.
      replace (default 0 oi + y + Zsum ints) with (default 0 oi + Zsum (y :: ints))
        by (unfold Zsum; simpl; ring).
      now destruct oi.
    + destruct ints as [| y ints]; [| discriminate].
      cbn in Hn. injection Hn as -> Hn.
      exists oi. rewrite (Sum_float_phase docs oi _ Hev Hwt).
      unfold row_values. rewrite Hn. do 5 f_equal.
      destruct oi as [i |]; [| reflexivity].
      cbn [from_option id]. unfold Zsum. simpl. rewrite Z.add_0_r.
      now rewrite (integer_overflow.wrap64_id i (Hoi i eq_refl)).
Qed.

(** The numbers of well-typed values: Integers, then nothing or a Double
    and numbers. *)
Lemma numbers_split (vals : list Value) :
  Forall well_typed vals ->
  exists ints,
    numbers vals = NewIntegerValue <$> ints
    \/ exists f rest,
        numbers vals = (NewIntegerValue <$> ints) ++ NewDoubleValue f :: rest.
Proof.
  induction vals as [| v vals IH]; intros Hwt.
  - exists []. now left.
  - apply Forall_cons in Hwt as [Hv Hwt].
    destruct (IH Hwt) as [ints Hs]. rewrite numbers_cons.
    destruct (types.IsNumber (Type_ v)) eqn:Hn; [| now exists ints].
    destruct (arithmetic.well_typed_number v Hv Hn) as [[x ->] | [f ->]].
    + exists (x :: ints). destruct Hs as [-> | [f [rest ->]]];
        [now left | right; now exists f, rest].
    + exists []. right. now exists f, (numbers vals).
Qed.

End Sum.

(** SUM over a document iterator, where the summed expression evaluates
    to well-typed values without an error other than a missing field.  The
    aggregation ends without error or panic, and its result is Null when
    no row holds a number; the int64 sum of the numbers, which wraps
    around, when they are all Integers; and otherwise a Double: the
    float64 sum, from left to right, of the wrapped sum of the Integers
    that come before the first Double and of the numbers from it on. *)
Theorem SumAggregator_sums_numbers :
  forall (fn : SumFunc) (docs : list (list (string * Value))),
    let vals := row_values (SumFunc_Expr fn) docs in
    evaluates (SumFunc_Expr fn) (document_rows docs) ->
    Forall well_typed vals ->
    exists agg,
      stream.documentIterator_Iterate (stream.NewDocumentIterator docs)
        SumAggregator_Aggregate (SumFunc_Aggregator fn)
      = Ok (agg, None)
      /\ (numbers vals = [] -> SumAggregator_Eval agg = NewNullValue)
      /\ (forall x ints,
            numbers vals = NewIntegerValue <$> (x :: ints) ->
            SumAggregator_Eval agg
            = NewIntegerValue (wrap64 (Zsum (x :: ints))))
      /\ (forall ints f rest,
            numbers vals = (NewIntegerValue <$> ints) ++ NewDoubleValue f :: rest ->
            SumAggregator_Eval agg
            = NewDoubleValue
                (float_sum
                   (match ints with
                    | [] => 0%float
                    | _ :: _ => float64_of_int64 (wrap64 (Zsum ints))
                    end + f)%float rest)).
Proof.
  intros fn docs vals Hev Hwt. subst vals.
  unfold stream.NewDocumentIterator, SumFunc_Aggregator.
  set (r := stream.documentIterator_Iterate docs SumAggregator_Aggregate
              (mkSumAggregator fn None None)).
  assert (Hr : exists agg, r = Ok (agg, None)).
  { destruct (numbers_split _ Hwt) as [ints [Hn | [f [rest Hn]]]].
    - unfold r. rewrite (Sum_int_phase fn docs None ints Hev Hwt Hn). eauto.
    - destruct (Sum_mixed fn docs None ints f rest) as [oi' H];
        [discriminate | exact Hev | exact Hwt | exact Hn |].
      unfold r. rewrite H. eauto. }
  destruct Hr as [agg Hr]. exists agg. split; [exact Hr |].
  refine (conj _ (conj _ _)).
  - intros Hn. unfold r in Hr.
    rewrite (Sum_int_phase fn docs None [] Hev Hwt Hn) in Hr.
    now injection Hr as <-.
  - intros x ints Hn. unfold r in Hr.
    rewrite (Sum_int_phase fn docs None (x :: ints) Hev Hwt Hn) in Hr.
    now injection Hr as <-.
  - intros ints f rest Hn. unfold r in Hr.
    destruct (Sum_mixed fn docs None ints f rest) as [oi' H];
      [discriminate | exact Hev | exact Hwt | exact Hn |].
    rewrite H in Hr. injection Hr as <-.
    unfold SumAggregator_Eval. cbn [SumF SumI from_option id].
    now destruct ints.
Qed.

Lemma SumAggregator_sums_numbers_witness :
  exists agg,
    stream.documentIterator_Iterate
      (stream.NewDocumentIterator
         [doc_a (NewIntegerValue MaxInt64); doc_a (NewTextValue "x"); [];
          doc_a (NewIntegerValue 1)])
      SumAggregator_Aggregate (SumFunc_Aggregator (mkSumFunc field_a))
    = Ok (agg, None)
    /\ SumAggregator_Eval agg = NewIntegerValue MinInt64.
Proof.
  destruct (SumAggregator_sums_numbers (mkSumFunc field_a)
              [doc_a (NewIntegerValue MaxInt64); doc_a (NewTextValue "x"); [];
               doc_a (NewIntegerValue 1)])
    as [agg [H1 [_ [H2 _]]]].
  - unfold evaluates. repeat (constructor; [(left + right); reflexivity |]).
    constructor.
  - repeat (constructor; [reflexivity |]). constructor.
  - exists agg. split; [exact H1 |].
    exact (H2 MaxInt64 [1] eq_refl).
Defined.

(** One call of [AvgAggregator.Aggregate]. *)
Lemma AvgAggregator_Aggregate_step (fn : AvgFunc) (a : float) (n : Z)
    (env : Environment) :
  let v := fst (AvgFunc_Expr fn env) in
  snd (AvgFunc_Expr fn env) = None
  \/ snd (AvgFunc_Expr fn env) = Some ErrFieldNotFound ->
  well_typed v ->
  AvgAggregator_Aggregate (mkAvgAggregator fn a n) env
  = Ok (if types.IsNumber (Type_ v)
        then mkAvgAggregator fn (a + as_float v)%float (wrap64 (n + 1))
        else mkAvgAggregator fn a n, None).
Proof.
  intros v He Hv. subst v. unfold AvgAggregator_Aggregate.
  cbn [Avg_Fn Avg Counter].
  pose proof (evaluates_no_error _ _ He) as Hb.
  destruct (AvgFunc_Expr fn env) as [v err]. cbn [fst snd] in *.
  rewrite Hb.
  destruct v as [tp [| b | x | f | l | s | a0 | d]]; unfold well_typed in Hv;
    cbn in Hv; subst tp; reflexivity.
Qed.

Lemma Avg_iterate (fn : AvgFunc) (docs : list (list (string * Value))) :
  forall (a : float) (n : Z),
    0 <= n -> n + Z.of_nat (length docs) <= MaxInt64 ->
    evaluates (AvgFunc_Expr fn) (document_rows docs) ->
    Forall well_typed (row_values (AvgFunc_Expr fn) docs) ->
    stream.documentIterator_Iterate docs AvgAggregator_Aggregate
      (mkAvgAggregator fn a n)
    = Ok (mkAvgAggregator fn
            (float_sum a (numbers (row_values (AvgFunc_Expr fn) docs)))
            (n + Z.of_nat
                   (length (numbers (row_values (AvgFunc_Expr fn) docs)))),
          None).
Proof.
  induction docs as [| d docs IH]; intros a n Hn Hlen Hev Hwt.
  - cbn. now rewrite Z.add_0_r.
  - apply evaluates_cons in Hev as [He Hev].
    unfold row_values in *. rewrite fmap_cons in *.
    apply Forall_cons in Hwt as [Hv Hwt].
    cbn [stream.documentIterator_Iterate length] in *.
    rewrite (AvgAggregator_Aggregate_step fn a n _ He Hv).
    rewrite numbers_cons. cbn [bind].
    destruct (types.IsNumber _).
    + rewrite (int64_facts.wrap64_id_small (n + 1))
        by (unfold MaxInt64 in *; lia).
      rewrite IH; [| lia | lia | exact Hev | exact Hwt].
      cbn [length]. unfold float_sum. cbn [fold_left].
      do 3 f_equal. lia.
    + apply IH; [lia | lia | exact Hev | exact Hwt].
Qed.

(** AVG over a document iterator of at most [MaxInt64] rows, where the
    expression evaluates to well-typed values without an error other than
    a missing field.  The aggregation ends without error or panic, and its
    result is a Double: 0 when no row holds a number, and otherwise the
    float64 sum of the numbers, from left to right, divided by their
    count. *)
Theorem AvgAggregator_averages_numbers :
  forall (fn : AvgFunc) (docs : list (list (string * Value))),
    let vals := row_values (AvgFunc_Expr fn) docs in
    Z.of_nat (length docs) <= MaxInt64 ->
    evaluates (AvgFunc_Expr fn) (document_rows docs) ->
    Forall well_typed vals ->
    exists agg,
      stream.documentIterator_Iterate (stream.NewDocumentIterator docs)
        AvgAggregator_Aggregate (AvgFunc_Aggregator fn)
      = Ok (agg, None)
      /\ AvgAggregator_Eval agg
         = NewDoubleValue
             (match numbers vals with
              | [] => 0
              | _ :: _ =>
                  float_sum 0 (numbers vals)
                  / float64_of_int64 (Z.of_nat (length (numbers vals)))
              end)%float.
Proof.
  intros fn docs vals Hlen Hev Hwt. subst vals.
  unfold stream.NewDocumentIterator, AvgFunc_Aggregator.
  rewrite (Avg_iterate fn docs 0%float 0 ltac:(lia) ltac:(lia) Hev Hwt).
  eexists. split; [reflexivity |].
  unfold AvgAggregator_Eval. cbn [Avg Counter]. rewrite Z.add_0_l.
  now destruct (numbers (row_values (AvgFunc_Expr fn) docs)).
Qed.

Lemma AvgAggregator_averages_numbers_witness :
  exists agg,
    stream.documentIterator_Iterate
      (stream.NewDocumentIterator
         [doc_a (NewIntegerValue 1); doc_a NewNullValue;
          doc_a (NewDoubleValue 2)])
      AvgAggregator_Aggregate (AvgFunc_Aggregator (mkAvgFunc field_a))
    = Ok (agg, None)
    /\ AvgAggregator_Eval agg = NewDoubleValue 1.5.
Proof.
  destruct (AvgAggregator_averages_numbers (mkAvgFunc field_a)
              [doc_a (NewIntegerValue 1); doc_a NewNullValue;
               doc_a (NewDoubleValue 2)])
    as [agg [H1 H2]].
  - vm_compute. discriminate.
  - unfold evaluates. repeat (constructor; [(left + right); reflexivity |]).
    constructor.
  - repeat (constructor; [reflexivity |]). constructor.
  - exists agg. split; [exact H1 |]. rewrite H2. vm_compute. reflexivity.
Defined.

Lemma non_null_cons (v : Value) (vals : list Value) :
  non_null (v :: vals)
  = if is_NullLiteral v then non_null vals else v :: non_null vals.
Proof.
  unfold non_null. rewrite filter_cons.
  destruct (is_NullLiteral v);
    [now rewrite decide_False | now rewrite decide_True].
Qed.

(** Two well-typed values other than Null are compared by content when
    they are of one class, and by type otherwise, the order of the types
    being that of their classes. *)
Lemma class_cases (a b : Value) :
  well_typed a -> well_typed b ->
  is_NullLiteral a = false -> is_NullLiteral b = false ->
  (Type_ a =? 0) = false
  /\ (((Type_ a =? Type_ b)
       || (types.IsNumber (Type_ a) && types.IsNumber (Type_ b)) = true
       /\ type_class (Type_ a) = type_class (Type_ b))
      \/ ((Type_ a =? Type_ b)
          || (types.IsNumber (Type_ a) && types.IsNumber (Type_ b)) = false
          /\ ((Type_ b <? Type_ a) = true
              /\ type_class (Type_ b) < type_class (Type_ a)
              \/ (Type_ b <? Type_ a) = false /\ (Type_ a <? Type_ b) = true
                 /\ type_class (Type_ a) < type_class (Type_ b)))).
Proof.
  destruct a as [ta [| ba | xa | fa | la | sa | aa | da]];
    destruct b as [tb [| bb | xb | fb | lb | sb | ab | db]];
    unfold well_typed; cbn; intros -> -> Ha Hb;
    try discriminate Ha; try discriminate Hb;
    (split; [reflexivity |]);
    first [ left; split; reflexivity
          | right; split; [reflexivity |];
            first [ left; split; reflexivity
                  | right; repeat split; reflexivity ] ].
Qed.

Lemma order_irrefl (lt : Value -> Value -> bool * option error) (v : Value) :
  strict_order_on_classes lt -> fst (lt v v) = false.
Proof.
  intros [_ [Hasym _]]. destruct (fst (lt v v)) eqn:E; [| reflexivity].
  now rewrite (Hasym v v eq_refl E) in E.
Qed.

Lemma int_gt_order : strict_order_on_classes int_gt.
Proof.
  unfold strict_order_on_classes, int_gt. cbn [fst snd].
  refine (conj (fun _ _ => eq_refl) (conj _ _)).
  - intros a b _ H. apply Z.ltb_lt in H. apply Z.ltb_ge. lia.
  - intros a b c _ _ H1 H2. apply Z.ltb_ge in H1, H2. apply Z.ltb_ge. lia.
Qed.

Lemma int_lt_order : strict_order_on_classes int_lt.
Proof.
  unfold strict_order_on_classes, int_lt. cbn [fst snd].
  refine (conj (fun _ _ => eq_refl) (conj _ _)).
  - intros a b _ H. apply Z.ltb_lt in H. apply Z.ltb_ge. lia.
  - intros a b c _ _ H1 H2. apply Z.ltb_ge in H1, H2. apply Z.ltb_ge. lia.
Qed.

Section Min.

Variable IsGreaterThan : Value -> Value -> bool * option error.
Hypothesis order : strict_order_on_classes IsGreaterThan.
Variable fn : MinFunc.

(** One call of [MinAggregator.Aggregate], after the values [seen]. *)
Lemma MinAggregator_Aggregate_step (m : Value) (seen : list Value)
    (env : Environment) :
  let v := fst (MinFunc_Expr fn env) in
  snd (MinFunc_Expr fn env) = None
  \/ snd (MinFunc_Expr fn env) = Some ErrFieldNotFound ->
  well_typed v ->
  Forall (fun w => well_typed w /\ is_NullLiteral w = false) seen ->
  match seen with
  | [] => m = mkValue 0 inil
  | _ :: _ => extremum IsGreaterThan Z.le m seen
  end ->
  exists m',
    MinAggregator_Aggregate IsGreaterThan (mkMinAggregator fn m) env
    = (mkMinAggregator fn m', None)
    /\ if is_NullLiteral v
       then m' = m
       else extremum IsGreaterThan Z.le m' (seen ++ [v]).
Proof.
  intros v He Hv Hseen Hm. subst v. unfold MinAggregator_Aggregate.
  cbn [Min_Fn Min].
  pose proof (evaluates_no_error _ _ He) as Hb.
  destruct (MinFunc_Expr fn env) as [v err]. cbn [fst snd] in *.
  rewrite Hb. clear Hb He err.
  destruct (is_NullLiteral v) eqn:Hnull; [now exists m |].
  pose proof (order_irrefl IsGreaterThan v order) as Hvv.
  destruct order as [Herr [Hasym Htrans]].
  destruct seen as [| w0 seen0].
  - subst m. cbn. exists v. split; [reflexivity |].
    split; [now apply list_elem_of_singleton |]. intros w Hw.
    apply list_elem_of_singleton in Hw. subst w. split; [lia | now intros _].
  - set (seen := w0 :: seen0) in *.
    destruct Hm as [Hin Hleast].
    pose proof (proj1 (Forall_forall _ _) Hseen m Hin) as [Hwm Hnm].
    destruct (class_cases m v Hwm Hv Hnm Hnull) as [H0 Hc]. rewrite H0.
    destruct Hc as [[Hsame Hcl] | [Hdiff Hord]].
    + rewrite Hsame.
      pose proof (Herr m v) as Hnone.
      destruct (IsGreaterThan m v) as [ok e] eqn:Hgt. cbn [snd] in Hnone.
      subst e. destruct ok.
      * exists v. split; [reflexivity |].
        split; [apply elem_of_app; right; now apply list_elem_of_singleton |].
        intros w Hw.
        apply elem_of_app in Hw as [Hw | Hw].
        -- destruct (Hleast w Hw) as [Hle Hng]. split; [lia |].
           intros Hcw.
           apply (Htrans v m w); [now symmetry | congruence | | ].
           ++ apply Hasym; [exact Hcl | now rewrite Hgt].
           ++ apply Hng. congruence.
        -- apply list_elem_of_singleton in Hw. subst w.
           split; [lia | now intros _].
      * exists m. split; [reflexivity |].
        split; [apply elem_of_app; now left |]. intros w Hw.
        apply elem_of_app in Hw as [Hw | Hw]; [now apply Hleast |].
        apply list_elem_of_singleton in Hw. subst w.
        split; [lia |]. intros _. now rewrite Hgt.
    + rewrite Hdiff.
      destruct Hord as [[Hlt Hcl] | [Hlt [_ Hcl]]]; rewrite Hlt.
      * exists v. split; [reflexivity |].
        split; [apply elem_of_app; right; now apply list_elem_of_singleton |].
        intros w Hw.
        apply elem_of_app in Hw as [Hw | Hw].
        -- destruct (Hleast w Hw) as [Hle _]. split; lia.
        -- apply list_elem_of_singleton in Hw. subst w.
           split; [lia | now intros _].
      * exists m. split; [reflexivity |].
        split; [apply elem_of_app; now left |]. intros w Hw.
        apply elem_of_app in Hw as [Hw | Hw]; [now apply Hleast |].
        apply list_elem_of_singleton in Hw. subst w.
        split; lia.
Qed.

Lemma Min_iterate (docs : list (list (string * Value))) :
  forall (m : Value) (seen : list Value),
    evaluates (MinFunc_Expr fn) (document_rows docs) ->
    Forall well_typed (row_values (MinFunc_Expr fn) docs) ->
    Forall (fun w => well_typed w /\ is_NullLiteral w = false) seen ->
    match seen with
    | [] => m = mkValue 0 inil
    | _ :: _ => extremum IsGreaterThan Z.le m seen
    end ->
    exists m',
      stream.documentIterator_Iterate docs
        (fun m env => Ok (MinAggregator_Aggregate IsGreaterThan m env))
        (mkMinAggregator fn m)
      = Ok (mkMinAggregator fn m', None)
      /\ match seen ++ non_null (row_values (MinFunc_Expr fn) docs) with
         | [] => m' = mkValue 0 inil
         | _ :: _ =>
             extremum IsGreaterThan Z.le m'
               (seen ++ non_null (row_values (MinFunc_Expr fn) docs))
         end.
Proof.
  induction docs as [| d docs IH]; intros m seen Hev Hwt Hseen Hm.
  - exists m. split; [reflexivity |]. cbn. now rewrite app_nil_r.
  - apply evaluates_cons in Hev as [He Hev].
    unfold row_values in *. rewrite fmap_cons in *.
    apply Forall_cons in Hwt as [Hv Hwt].
    cbn [stream.documentIterator_Iterate bind].
    destruct (MinAggregator_Aggregate_step m seen _ He Hv Hseen Hm)
      as [m1 [H1 H2]].
    rewrite H1. rewrite non_null_cons.
    destruct (is_NullLiteral _) eqn:Hnull.
    + subst m1. now apply IH.
    + destruct (IH m1 (seen ++ [fst (MinFunc_Expr fn (mkEnvironment (Some d)))])
                  Hev Hwt) as [m' [H3 H4]].
      * apply Forall_app. split; [exact Hseen |]. now repeat constructor.
      * now destruct seen.
      * exists m'. split; [exact H3 |].
        now rewrite <- app_assoc in H4.
Qed.

End Min.

(** MIN over a document iterator, where the expression evaluates to
    well-typed values without an error other than a missing field, and
    the comparison of values is a strict order on each class that returns
    no error.  The aggregation ends without error; its result is Null when
    every row holds Null, and otherwise a least of the values other than
    Null: one of them, of the lowest class among them (Bool, then the
    numbers, Text, Blob, Array, Document), and not greater than any of them
    in that class. *)
Theorem MinAggregator_returns_a_least_value :
  forall (IsGreaterThan : Value -> Value -> bool * option error)
         (fn : MinFunc) (docs : list (list (string * Value))),
    let vals := row_values (MinFunc_Expr fn) docs in
    strict_order_on_classes IsGreaterThan ->
    evaluates (MinFunc_Expr fn) (document_rows docs) ->
    Forall well_typed vals ->
    exists agg,
      stream.documentIterator_Iterate (stream.NewDocumentIterator docs)
        (fun m env => Ok (MinAggregator_Aggregate IsGreaterThan m env))
        (MinFunc_Aggregator fn)
      = Ok (agg, None)
      /\ match non_null vals with
         | [] => MinAggregator_Eval agg = NewNullValue
         | _ :: _ =>
             extremum IsGreaterThan Z.le (MinAggregator_Eval agg)
               (non_null vals)
         end.
Proof.
  intros gt fn docs vals Hord Hev Hwt. subst vals.
  destruct (Min_iterate gt Hord fn docs (mkValue 0 inil) [] Hev Hwt)
    as [m' [H1 H2]]; [constructor | reflexivity |].
  exists (mkMinAggregator fn m'). split; [exact H1 |].
  cbn [app] in H2. unfold MinAggregator_Eval. cbn [Min].
  destruct (non_null (row_values (MinFunc_Expr fn) docs)) as [| w ws] eqn:Hnn.
  - now subst m'.
  - replace (Type_ m' =? 0) with false; [exact H2 |].
    destruct H2 as [Hin _]. rewrite <- Hnn in Hin.
    unfold non_null in Hin. apply list_elem_of_filter in Hin as [Hnull Hin].
    pose proof (proj1 (Forall_forall _ _) Hwt m' Hin) as Hw.
    now destruct (class_cases m' m' Hw Hw Hnull Hnull) as [-> _].
Qed.

Lemma MinAggregator_returns_a_least_value_witness :
  exists agg,
    stream.documentIterator_Iterate
      (stream.NewDocumentIterator
         [doc_a (NewIntegerValue 3); doc_a NewNullValue;
          doc_a (NewTextValue "a"); doc_a (NewIntegerValue 1)])
      (fun m env => Ok (MinAggregator_Aggregate int_gt m env))
      (MinFunc_Aggregator (mkMinFunc field_a))
    = Ok (agg, None)
    /\ extremum int_gt Z.le (MinAggregator_Eval agg)
         [NewIntegerValue 3; NewTextValue "a"; NewIntegerValue 1].
Proof.
  apply (MinAggregator_returns_a_least_value int_gt (mkMinFunc field_a)
           [doc_a (NewIntegerValue 3); doc_a NewNullValue;
            doc_a (NewTextValue "a"); doc_a (NewIntegerValue 1)]).
  - exact int_gt_order.
  - unfold evaluates. repeat (constructor; [left; reflexivity |]).
    constructor.
  - repeat (constructor; [reflexivity |]). constructor.
Defined.

Section Max.

Variable IsLesserThan : Value -> Value -> bool * option error.
Hypothesis order : strict_order_on_classes IsLesserThan.
Variable fn : MaxFunc.

(** One call of [MaxAggregator.Aggregate], after the values [seen]. *)
Lemma MaxAggregator_Aggregate_step (m : Value) (seen : list Value)
    (env : Environment) :
  let v := fst (MaxFunc_Expr fn env) in
  snd (MaxFunc_Expr fn env) = None
  \/ snd (MaxFunc_Expr fn env) = Some ErrFieldNotFound ->
  well_typed v ->
  Forall (fun w => well_typed w /\ is_NullLiteral w = false) seen ->
  match seen with
  | [] => m = mkValue 0 inil
  | _ :: _ => extremum IsLesserThan Z.ge m seen
  end ->
  exists m',
    MaxAggregator_Aggregate IsLesserThan (mkMaxAggregator fn m) env
    = (mkMaxAggregator fn m', None)
    /\ if is_NullLiteral v
       then m' = m
       else extremum IsLesserThan Z.ge m' (seen ++ [v]).
Proof.
  intros v He Hv Hseen Hm. subst v. unfold MaxAggregator_Aggregate.
  cbn [Max_Fn Max].
  pose proof (evaluates_no_error _ _ He) as Hb.
  destruct (MaxFunc_Expr fn env) as [v err]. cbn [fst snd] in *.
  rewrite Hb. clear Hb He err.
  destruct (is_NullLiteral v) eqn:Hnull; [now exists m |].
  pose proof (order_irrefl IsLesserThan v order) as Hvv.
  destruct order as [Herr [Hasym Htrans]].
  destruct seen as [| w0 seen0].
  - subst m. cbn. exists v. split; [reflexivity |].
    split; [now apply list_elem_of_singleton |]. intros w Hw.
    apply list_elem_of_singleton in Hw. subst w. split; [lia | now intros _].
  - set (seen := w0 :: seen0) in *.
    destruct Hm as [Hin Hleast].
    pose proof (proj1 (Forall_forall _ _) Hseen m Hin) as [Hwm Hnm].
    destruct (class_cases m v Hwm Hv Hnm Hnull) as [H0 Hc]. rewrite H0.
    destruct Hc as [[Hsame Hcl] | [Hdiff Hord]].
    + rewrite Hsame.
      pose proof (Herr m v) as Hnone.
      destruct (IsLesserThan m v) as [ok e] eqn:Hlt0. cbn [snd] in Hnone.
      subst e. destruct ok.
      * exists v. split; [reflexivity |].
        split; [apply elem_of_app; right; now apply list_elem_of_singleton |].
        intros w Hw.
        apply elem_of_app in Hw as [Hw | Hw].
        -- destruct (Hleast w Hw) as [Hle Hng]. split; [lia |].
           intros Hcw.
           apply (Htrans v m w); [now symmetry | congruence | | ].
           ++ apply Hasym; [exact Hcl | now rewrite Hlt0].
           ++ apply Hng. congruence.
        -- apply list_elem_of_singleton in Hw. subst w.
           split; [lia | now intros _].
      * exists m. split; [reflexivity |].
        split; [apply elem_of_app; now left |]. intros w Hw.
        apply elem_of_app in Hw as [Hw | Hw]; [now apply Hleast |].
        apply list_elem_of_singleton in Hw. subst w.
        split; [lia |]. intros _. now rewrite Hlt0.
    + rewrite Hdiff.
      destruct Hord as [[Hlt Hcl] | [_ [Hlt Hcl]]].
      * apply Z.ltb_lt in Hlt.
        destruct (Z.ltb_spec (Type_ m) (Type_ v)) as [Hlt' | _]; [lia |].
        exists m. split; [reflexivity |].
        split; [apply elem_of_app; now left |]. intros w Hw.
        apply elem_of_app in Hw as [Hw | Hw]; [now apply Hleast |].
        apply list_elem_of_singleton in Hw. subst w.
        split; lia.
      * rewrite Hlt. exists v. split; [reflexivity |].
        split; [apply elem_of_app; right; now apply list_elem_of_singleton |].
        intros w Hw.
        apply elem_of_app in Hw as [Hw | Hw].
        -- destruct (Hleast w Hw) as [Hle _]. split; lia.
        -- apply list_elem_of_singleton in Hw. subst w.
           split; [lia | now intros _].
Qed.

Lemma Max_iterate (docs : list (list (string * Value))) :
  forall (m : Value) (seen : list Value),
    evaluates (MaxFunc_Expr fn) (document_rows docs) ->
    Forall well_typed (row_values (MaxFunc_Expr fn) docs) ->
    Forall (fun w => well_typed w /\ is_NullLiteral w = false) seen ->
    match seen with
    | [] => m = mkValue 0 inil
    | _ :: _ => extremum IsLesserThan Z.ge m seen
    end ->
    exists m',
      stream.documentIterator_Iterate docs
        (fun m env => Ok (MaxAggregator_Aggregate IsLesserThan m env))
        (mkMaxAggregator fn m)
      = Ok (mkMaxAggregator fn m', None)
      /\ match seen ++ non_null (row_values (MaxFunc_Expr fn) docs) with
         | [] => m' = mkValue 0 inil
         | _ :: _ =>
             extremum IsLesserThan Z.ge m'
               (seen ++ non_null (row_values (MaxFunc_Expr fn) docs))
         end.
Proof.
  induction docs as [| d docs IH]; intros m seen Hev Hwt Hseen Hm.
  - exists m. split; [reflexivity |]. cbn. now rewrite app_nil_r.
  - apply evaluates_cons in Hev as [He Hev].
    unfold row_values in *. rewrite fmap_cons in *.
    apply Forall_cons in Hwt as [Hv Hwt].
    cbn [stream.documentIterator_Iterate bind].
    destruct (MaxAggregator_Aggregate_step m seen _ He Hv Hseen Hm)
      as [m1 [H1 H2]].
    rewrite H1. rewrite non_null_cons.
    destruct (is_NullLiteral _) eqn:Hnull.
    + subst m1. now apply IH.
    + destruct (IH m1 (seen ++ [fst (MaxFunc_Expr fn (mkEnvironment (Some d)))])
                  Hev Hwt) as [m' [H3 H4]].
      * apply Forall_app. split; [exact Hseen |]. now repeat constructor.
      * now destruct seen.
      * exists m'. split; [exact H3 |].
        now rewrite <- app_assoc in H4.
Qed.

End Max.

(** MAX over a document iterator, where the expression evaluates to
    well-typed values without an error other than a missing field, and
    the comparison of values is a strict order on each class that returns
    no error.  The aggregation ends without error; its result is Null when
    every row holds Null, and otherwise a greatest of the values other than
    Null: one of them, of the highest class among them (Bool, then the
    numbers, Text, Blob, Array, Document), and not lesser than any of them
    in that class. *)
Theorem MaxAggregator_returns_a_greatest_value :
  forall (IsLesserThan : Value -> Value -> bool * option error)
         (fn : MaxFunc) (docs : list (list (string * Value))),
    let vals := row_values (MaxFunc_Expr fn) docs in
    strict_order_on_classes IsLesserThan ->
    evaluates (MaxFunc_Expr fn) (document_rows docs) ->
    Forall well_typed vals ->
    exists agg,
      stream.documentIterator_Iterate (stream.NewDocumentIterator docs)
        (fun m env => Ok (MaxAggregator_Aggregate IsLesserThan m env))
        (MaxFunc_Aggregator fn)
      = Ok (agg, None)
      /\ match non_null vals with
         | [] => MaxAggregator_Eval agg = NewNullValue
         | _ :: _ =>
             extremum IsLesserThan Z.ge (MaxAggregator_Eval agg)
               (non_null vals)
         end.
Proof.
  intros lt fn docs vals Hord Hev Hwt. subst vals.
  destruct (Max_iterate lt Hord fn docs (mkValue 0 inil) [] Hev Hwt)
    as [m' [H1 H2]]; [constructor | reflexivity |].
  exists (mkMaxAggregator fn m'). split; [exact H1 |].
  cbn [app] in H2. unfold MaxAggregator_Eval. cbn [Max].
  destruct (non_null (row_values (MaxFunc_Expr fn) docs)) as [| w ws] eqn:Hnn.
  - now subst m'.
  - replace (Type_ m' =? 0) with false; [exact H2 |].
    destruct H2 as [Hin _]. rewrite <- Hnn in Hin.
    unfold non_null in Hin. apply list_elem_of_filter in Hin as [Hnull Hin].
    pose proof (proj1 (Forall_forall _ _) Hwt m' Hin) as Hw.
    now destruct (class_cases m' m' Hw Hw Hnull Hnull) as [-> _].
Qed.

Lemma MaxAggregator_returns_a_greatest_value_witness :
  exists agg,
    stream.documentIterator_Iterate
      (stream.NewDocumentIterator
         [doc_a (NewIntegerValue 3); doc_a NewNullValue;
          doc_a (NewTextValue "a"); doc_a (NewIntegerValue 1)])
      (fun m env => Ok (MaxAggregator_Aggregate int_lt m env))
      (MaxFunc_Aggregator (mkMaxFunc field_a))
    = Ok (agg, None)
    /\ extremum int_lt Z.ge (MaxAggregator_Eval agg)
         [NewIntegerValue 3; NewTextValue "a"; NewIntegerValue 1].
Proof.
  apply (MaxAggregator_returns_a_greatest_value int_lt (mkMaxFunc field_a)
           [doc_a (NewIntegerValue 3); doc_a NewNullValue;
            doc_a (NewTextValue "a"); doc_a (NewIntegerValue 1)]).
  - exact int_lt_order.
  - unfold evaluates. repeat (constructor; [left; reflexivity |]).
    constructor.
  - repeat (constructor; [reflexivity |]). constructor.
Defined.

End aggregators.

(** ** Encoding of the ranges *)

Module range_encoding.
Import go document stream inputs spec.

Ltac bools :=
  repeat match goal with
         | H : negb _ = true |- _ => apply negb_true_iff in H
         | H : negb _ = false |- _ => apply negb_false_iff in H
         | H : _ && _ = true |- _ => apply andb_true_iff in H as [? ?]
         | H : _ && _ = false |- _ => apply andb_false_iff in H
         | H : types.IsZero _ = _ |- _ => unfold types.IsZero in H
         | H : (_ =? _) = true |- _ => apply Z.eqb_eq in H
         | H : (_ =? _) = false |- _ => apply Z.eqb_neq in H
         end.

Lemma ValueRange_encode_Ok
    (EncodeValue : Value -> option (list Byte.byte) * option error)
    (r r' : ValueRange) :
  ValueRange_encode EncodeValue r = Ok (r', None) ->
  typed_range r' /\ encoded_from EncodeValue r r'.
Proof.
  destruct r as [mn mx ex ea emn emx rt].
  unfold ValueRange_encode, typed_range, encoded_from.
  cbn [Min Max Exclusive Exact encodedMin encodedMax rangeType].
  destruct (types.IsZero (Type_ mn)) eqn:Zmn; cbn;
    [| destruct (EncodeValue mn) as [bmn [e |]] eqn:Emn; cbn;
       [discriminate |]];
    (destruct (types.IsZero (Type_ mx)) eqn:Zmx; cbn;
     [| destruct (EncodeValue mx) as [bmx [e |]] eqn:Emx; cbn;
        [discriminate |];
        match goal with
        | |- context [if ?c then Panic _ else _] => destruct c eqn:Hchk
        end; cbn; [discriminate |]]);
    repeat (progress (rewrite ?Zmn, ?Zmx; cbn));
    (destruct (ex && ea) eqn:Hflags; cbn; [discriminate |]);
    intros H; injection H as <-; cbn;
    (repeat split; try reflexivity; try exact Hflags).
  apply andb_false_iff in Hchk as [Hc | Hc]; bools; congruence.
Qed.

(** [ValueRanges.Encode] that returns no error leaves every range typed:
    the two boundaries have the type of the range, an unset boundary
    having taken the type of the other one, and no range is both exclusive
    and exact; the contents of the boundaries and the flags are kept, and
    each boundary that had a type is encoded. *)
Theorem ValueRanges_Encode_types_boundaries :
  forall (EncodeValue : Value -> option (list Byte.byte) * option error)
         (r r' : ValueRanges),
    ValueRanges_Encode EncodeValue r = Ok (r', None) ->
    Forall2 (fun rng rng' =>
               typed_range rng' /\ encoded_from EncodeValue rng rng')
            r r'.
Proof.
  intros EncodeValue r. induction r as [| rng r IH]; intros r' H.
  - injection H as <-. constructor.
  - cbn [ValueRanges_Encode] in H.
    destruct (ValueRange_encode EncodeValue rng) as [[rng' [e |]] | e | m]
      eqn:Hrng; cbn in H; try discriminate.
    destruct (ValueRanges_Encode EncodeValue r) as [[r'' err] | e | m]
      eqn:Hr; cbn in H; try discriminate.
    injection H as <- ->.
    constructor; [now apply ValueRange_encode_Ok | now apply IH].
Qed.

Lemma ValueRanges_Encode_types_boundaries_witness :
  exists r',
    ValueRanges_Encode encode_value0 [vr_one_sided; vr_two_sided]
    = Ok (r', None)
    /\ Forall2 (fun rng rng' =>
                  typed_range rng' /\ encoded_from encode_value0 rng rng')
               [vr_one_sided; vr_two_sided] r'.
Proof.
  eexists. split; [reflexivity |].
  apply (ValueRanges_Encode_types_boundaries encode_value0
           [vr_one_sided; vr_two_sided]).
  reflexivity.
Defined.

(** [ValueRange.encode] on a range that was not encoded before, with an
    encoder that does not fail on its boundaries: it panics exactly when
    the two boundaries have types that differ or the range is both
    exclusive and exact, and returns without error otherwise. *)
Theorem ValueRange_encode_panics :
  forall (EncodeValue : Value -> option (list Byte.byte) * option error)
         (r : ValueRange),
    rangeType r = 0 ->
    snd (EncodeValue (Min r)) = None -> snd (EncodeValue (Max r)) = None ->
    ((exists msg, ValueRange_encode EncodeValue r = Panic msg)
     <-> boundaries_differ r \/ (Exclusive r = true /\ Exact r = true))
    /\ ((exists msg, ValueRange_encode EncodeValue r = Panic msg)
        \/ exists r', ValueRange_encode EncodeValue r = Ok (r', None)).
Proof.
  intros EncodeValue [mn mx ex ea emn emx rt].
  unfold ValueRange_encode, boundaries_differ, types.IsZero.
  cbn [Min Max Exclusive Exact encodedMin encodedMax rangeType].
  intros -> Hmn Hmx.
  destruct (EncodeValue mn) as [bmn emn'] eqn:Emn.
  destruct (EncodeValue mx) as [bmx emx'] eqn:Emx.
  cbn [snd] in Hmn, Hmx. subst emn' emx'.
  destruct (Type_ mn =? 0) eqn:Zmn; destruct (Type_ mx =? 0) eqn:Zmx;
    destruct (Type_ mn =? Type_ mx) eqn:Heq; destruct ex, ea;
    repeat (progress (cbn; rewrite ?Emn, ?Emx, ?Zmn, ?Zmx, ?Heq));
    bools;
    (split;
     [split;
      [intros [msg Hp];
       first [discriminate Hp | right; split; reflexivity
             | left; repeat split; assumption]
      | intros [[H1 [H2 H3]] | [H1 H2]];
        first [eexists; reflexivity | exfalso; congruence | discriminate
              | exfalso; lia]]
     | first [left; eexists; reflexivity | right; eexists; reflexivity]]).
Qed.

Lemma ValueRange_encode_panics_witness :
  exists msg, ValueRange_encode encode_value0 vr_mixed = Panic msg.
Proof.
  apply (ValueRange_encode_panics encode_value0 vr_mixed);
    [reflexivity | reflexivity | reflexivity |].
  left. unfold boundaries_differ. repeat split; discriminate.
Defined.

Lemma maxTypes_differ_eq (maxTypes rt : list types.ValueType) :
  maxTypes_differ maxTypes rt = Some false ->
  length maxTypes = length rt -> maxTypes = rt.
Proof.
  revert rt. induction maxTypes as [| t ts IH]; intros [| u us] H Hlen;
    try discriminate; [reflexivity |].
  cbn in H. destruct (Z.eqb_spec t u) as [-> | Hne]; cbn in H;
    [| discriminate].
  f_equal. apply IH; [exact H | now injection Hlen].
Qed.

(** [IndexRange.encode] that returns no error: the range is not both
    exclusive and exact; each bound that holds values is encoded; the
    types of the range are those of the upper bound when it holds values,
    and otherwise those of the lower bound when that holds values; and
    when both bounds hold values, the types of the upper bound are the
    types of the lower bound. *)
Theorem IndexRange_encode_checks_types :
  forall (ValueBuffer : Type) (Len : ValueBuffer -> Z)
         (Types : ValueBuffer -> list types.ValueType)
         (Encode : ValueBuffer -> option (list Byte.byte) * option error)
         (r r' : IndexRange ValueBuffer),
    IndexRange_encode ValueBuffer Len Types Encode r = Ok (r', None) ->
    IExclusive _ r' && IExact _ r' = false
    /\ (IMin _ r' = IMin _ r /\ IMax _ r' = IMax _ r
        /\ IExclusive _ r' = IExclusive _ r /\ IExact _ r' = IExact _ r
        /\ Arity _ r' = Arity _ r /\ IndexArityMax _ r' = IndexArityMax _ r)
    /\ (0 < Len (IMin _ r) -> IencodedMin _ r' = fst (Encode (IMin _ r)))
    /\ (0 < Len (IMax _ r) ->
        IencodedMax _ r' = fst (Encode (IMax _ r))
        /\ rangeTypes _ r' = Types (IMax _ r))
    /\ (0 < Len (IMin _ r) -> Len (IMax _ r) <= 0 ->
        rangeTypes _ r' = Types (IMin _ r))
    /\ (0 < Len (IMin _ r) -> 0 < Len (IMax _ r) ->
        Types (IMin _ r) <> [] -> Types (IMax _ r) = Types (IMin _ r)).
Proof.
  intros VB Len Types Encode [mn mx ex ea ar am emn emx rt] r'.
  unfold IndexRange_encode.
  cbn [IMin IMax IExclusive IExact Arity IndexArityMax IencodedMin
         IencodedMax rangeTypes].
  destruct (Encode mn) as [bmn emn'] eqn:Emn.
  destruct (Encode mx) as [bmx emx'] eqn:Emx.
  destruct (Z.ltb_spec 0 (Len mn)) as [Lmn | Lmn];
    destruct (Z.ltb_spec 0 (Len mx)) as [Lmx | Lmx];
    destruct emn' as [e1 |]; destruct emx' as [e2 |];
    repeat (progress (cbn; rewrite ?Emn, ?Emx)); try discriminate.
  all: repeat match goal with
         | |- context [if ?c then _ else _] => destruct c eqn:?; cbn
         | |- context [match maxTypes_differ ?a ?b with _ => _ end] =>
             destruct (maxTypes_differ a b) as [[|] |] eqn:Hd; cbn
         end; try discriminate.
  all: intros H; injection H as <-; cbn.
  all: refine (conj _ (conj _ (conj _ (conj _ (conj _ _)))));
    try assumption; try (repeat split; reflexivity); try (intros; lia);
    try (intros; split; reflexivity); try (intros; reflexivity).
  all: bools.
  all: intros _ _ Hne.
  - apply maxTypes_differ_eq; [exact Hd |].
    match goal with
    | H : Z.of_nat _ = Z.of_nat _ |- _ => now apply Nat2Z.inj in H
    end.
  - destruct (Types mn); [now contradiction Hne | discriminate].
Qed.

Lemma IndexRange_encode_checks_types_witness :
  exists r',
    IndexRange_encode (list Value) vb_Len vb_Types0 encode_buffer0 ir_1_5
    = Ok (r', None)
    /\ rangeTypes _ r' = [types.IntegerValue].
Proof.
  eexists. split; [reflexivity |].
  destruct (IndexRange_encode_checks_types (list Value) vb_Len vb_Types0
              encode_buffer0 ir_1_5 _ eq_refl) as [_ [_ [_ [H _]]]].
  apply H. reflexivity.
Defined.

End range_encoding.

(** ** Comparison, IN and NOT IN (sql/query/expr/comparison.go) *)

Module comparison.
Import go document inputs spec.

(** A comparison built with one of the tokens =, !=, >, >=, <, <= never
    panics, and its value is the true, the false or the Null literal; it is
    the false literal, with the error, when the evaluation of the operands
    fails.  Built with another token, it panics as soon as both operands
    are evaluated and neither is Null. *)
Theorem cmpOp_Eval_returns_a_literal :
  forall (EvalStack : Type)
         (eval : expr.simpleOperator EvalStack -> EvalStack ->
                 Value * Value * option error)
         (eq neq gt gte lt lte : Value -> Value -> bool * option error)
         (op : expr.cmpOp EvalStack) (ctx : EvalStack),
    (expr.Tok _ op <> expr.IN ->
     exists v err,
       expr.Eval EvalStack eval eq neq gt gte lt lte op ctx = Ok (v, err)
       /\ (v = expr.trueLitteral \/ v = expr.falseLitteral
           \/ v = expr.nullLitteral)
       /\ (forall e, snd (eval op ctx) = Some e ->
                     v = expr.falseLitteral /\ err = Some e))
    /\ (expr.Tok _ op = expr.IN ->
        forall v1 v2,
          eval op ctx = (v1, v2, None) ->
          Type_ v1 <> types.NullValue -> Type_ v2 <> types.NullValue ->
          exists msg,
            expr.Eval EvalStack eval eq neq gt gte lt lte op ctx = Panic msg).
Proof.
  intros EvalStack eval eq neq gt gte lt lte op ctx. split.
  - intros Htok. unfold expr.Eval, expr.compare.
    destruct (eval op ctx) as [[v1 v2] [e |]]; cbn [snd].
    + eexists _, _. split; [reflexivity |]. split; [tauto |].
      intros e' He. injection He as <-. now split.
    + destruct ((Type_ v1 =? types.NullValue) || (Type_ v2 =? types.NullValue)).
      * eexists _, _. split; [reflexivity |]. split; [tauto | discriminate].
      * destruct (expr.Tok EvalStack op); try contradiction; cbn;
          match goal with
          | |- context [let '(_, _) := ?c in _] => destruct c as [[|] err]
          end;
          eexists _, _; (split; [reflexivity |]); (split; [tauto | discriminate]).
  - intros Htok v1 v2 Hev H1 H2. unfold expr.Eval, expr.compare.
    rewrite Hev, Htok.
    apply Z.eqb_neq in H1, H2. rewrite H1, H2. cbn. eauto.
Qed.

Lemma cmpOp_Eval_returns_a_literal_witness :
  exists v err,
    expr.Eval unit eval0 cmp0 cmp0 cmp0 cmp0 cmp0 cmp0
      (expr.Gte unit (const_expr (NewIntegerValue 1))
         (const_expr (NewIntegerValue 2))) tt
    = Ok (v, err)
    /\ (v = expr.trueLitteral \/ v = expr.falseLitteral
        \/ v = expr.nullLitteral).
Proof.
  destruct (proj1 (cmpOp_Eval_returns_a_literal unit eval0
                     cmp0 cmp0 cmp0 cmp0 cmp0 cmp0
                     (expr.Gte unit (const_expr (NewIntegerValue 1))
                        (const_expr (NewIntegerValue 2))) tt))
    as [v [err [H1 [H2 _]]]]; [discriminate |].
  now exists v, err.
Defined.

(** NOT IN is the negation of IN.  [inOp.Eval] returns the true, the false
    or the Null literal, the Null literal whenever it returns an error;
    [notInOp.Eval] on it returns the same error, the false literal for the
    true one, the true literal for the false one and Null for Null.  When
    an operand is Null both are Null; when neither is and the right one is
    not an array, IN is false and NOT IN is true. *)
Theorem NotIn_negates_In :
  forall (EvalStack : Type)
         (eval : expr.simpleOperator EvalStack -> EvalStack ->
                 Value * Value * option error)
         (ConvertToArray : Value -> list Value * option error)
         (ArrayContains : list Value -> Value -> bool * option error)
         (a b : expr.Expr EvalStack) (ctx : EvalStack),
    let in_ :=
      expr.inOp_Eval EvalStack eval ConvertToArray ArrayContains
        (expr.In EvalStack a b) ctx in
    let not_in :=
      expr.notInOp_Eval EvalStack
        (expr.NotIn EvalStack eval ConvertToArray ArrayContains a b) ctx in
    (fst in_ = expr.trueLitteral \/ fst in_ = expr.falseLitteral
     \/ fst in_ = expr.nullLitteral)
    /\ (snd in_ <> None -> fst in_ = expr.nullLitteral)
    /\ snd not_in = snd in_
    /\ (fst in_ = expr.trueLitteral -> fst not_in = expr.falseLitteral)
    /\ (fst in_ = expr.falseLitteral -> fst not_in = expr.trueLitteral)
    /\ (fst in_ = expr.nullLitteral -> fst not_in = expr.nullLitteral)
    /\ (forall va vb,
          eval (expr.In EvalStack a b) ctx = (va, vb, None) ->
          (Type_ va = types.NullValue \/ Type_ vb = types.NullValue ->
           in_ = (expr.nullLitteral, None)
           /\ not_in = (expr.nullLitteral, None))
          /\ (Type_ va <> types.NullValue -> Type_ vb <> types.NullValue ->
              Type_ vb <> types.ArrayValue ->
              in_ = (expr.falseLitteral, None)
              /\ not_in = (expr.trueLitteral, None))).
Proof.
  intros EvalStack eval conv contains a b ctx in_ not_in.
  assert (Hnot : not_in
                 = match snd in_ with
                   | Some e => in_
                   | None =>
                       if expr.is_bool_literal (fst in_) true
                       then (expr.falseLitteral, None)
                       else if expr.is_bool_literal (fst in_) false
                            then (expr.trueLitteral, None)
                            else (fst in_, None)
                   end).
  { subst not_in. unfold expr.notInOp_Eval, expr.NotIn. fold in_.
    now destruct in_ as [v [e |]]. }
  assert (Hin : (fst in_ = expr.trueLitteral \/ fst in_ = expr.falseLitteral
                 \/ fst in_ = expr.nullLitteral)
                /\ (snd in_ <> None -> fst in_ = expr.nullLitteral)).
  { subst in_. unfold expr.inOp_Eval.
    destruct (eval _ ctx) as [[va vb] [e |]]; cbn; [tauto |].
    destruct ((Type_ va =? types.NullValue) || (Type_ vb =? types.NullValue));
      cbn; [tauto |].
    destruct (negb (Type_ vb =? types.ArrayValue)); cbn; [tauto |].
    destruct (conv vb) as [arr [e |]]; cbn; [tauto |].
    destruct (contains arr va) as [[|] [e |]]; cbn; tauto. }
  destruct Hin as [Hlit Herr].
  split; [exact Hlit |]. split; [exact Herr |].
  assert (Hcases : forall v e, in_ = (v, e) ->
            snd not_in = e
            /\ (v = expr.trueLitteral -> fst not_in = expr.falseLitteral)
            /\ (v = expr.falseLitteral -> fst not_in = expr.trueLitteral)
            /\ (v = expr.nullLitteral -> fst not_in = expr.nullLitteral)).
  { intros v e E. rewrite Hnot, E. cbn [fst snd].
    rewrite E in Herr. cbn [fst snd] in Herr.
    destruct e as [e |].
    - rewrite (Herr ltac:(discriminate)). cbn.
      repeat split; try discriminate; reflexivity.
    - destruct Hlit as [Hv | [Hv | Hv]]; rewrite E in Hv; cbn in Hv; subst v;
        cbn; repeat split; try discriminate; reflexivity. }
  destruct (Hcases (fst in_) (snd in_) ltac:(now destruct in_))
    as [H1 [H2 [H3 H4]]].
  refine (conj H1 (conj H2 (conj H3 (conj H4 _)))).
  intros va vb Hev. split.
  - intros Hnull.
    assert (E : in_ = (expr.nullLitteral, None)).
    { subst in_. unfold expr.inOp_Eval. rewrite Hev.
      destruct Hnull as [-> | ->]; cbn; [reflexivity |].
      now rewrite orb_true_r. }
    split; [exact E |]. rewrite Hnot, E. reflexivity.
  - intros Ha Hb Harr.
    assert (E : in_ = (expr.falseLitteral, None)).
    { subst in_. unfold expr.inOp_Eval. rewrite Hev.
      apply Z.eqb_neq in Ha, Hb, Harr. now rewrite Ha, Hb, Harr. }
    split; [exact E |]. rewrite Hnot, E. reflexivity.
Qed.

Lemma NotIn_negates_In_witness :
  expr.inOp_Eval unit eval0 to_array0 contains0
    (expr.In unit (const_expr (NewIntegerValue 1))
       (const_expr (NewTextValue "a"))) tt
  = (expr.falseLitteral, None)
  /\ expr.notInOp_Eval unit
       (expr.NotIn unit eval0 to_array0 contains0
          (const_expr (NewIntegerValue 1)) (const_expr (NewTextValue "a"))) tt
     = (expr.trueLitteral, None).
Proof.
  destruct (NotIn_negates_In unit eval0 to_array0 contains0
              (const_expr (NewIntegerValue 1)) (const_expr (NewTextValue "a"))
              tt) as [_ [_ [_ [_ [_ [_ H]]]]]].
  apply (H (NewIntegerValue 1) (NewTextValue "a") eq_refl);
    discriminate.
Defined.

End comparison.
